(** * VTK / VTU loaders: cell triangulation, cell walks and scalar fields

    A shallow embedding of [src/utils/vtkUtils.ts] (the triangulation
    engine), of the XML loader [VTULoader] and of the legacy loader
    [VTKUnstructuredLoader], followed by the properties of the
    specification that concern them.

    Numbers.  Point ids, offsets, counts and cell-type codes are integers
    in both file formats and are modelled by [Z]; cell data with
    fractions, infinities or NaN is outside the walks of this
    development.  An array read that misses the array is the JavaScript
    [undefined] ([JUndefined]).  Scalar field values are doubles that are
    only ever compared, never computed with; they are modelled by [num]:
    the rationals, the two infinities and NaN, with the comparison of
    IEEE 754.

    Lexing.  The legacy loader is modelled from its tokenised lines on and
    the XML loader from the [Piece] element on: [parseInt], [parseFloat],
    [atob], the DOM queries and the typed-array constructors are inputs
    of the model. *)

From Stdlib Require Import ZArith QArith Lia.
From Stdlib.Strings Require Import Byte.
From stdpp Require Import base option list gmap strings sorting.

Local Open Scope Z_scope.

(** ** Values held by JavaScript number arrays *)

Inductive jsval : Type :=
| JNum (n : Z)
| JUndefined.

#[global] Instance jsval_eq_dec : EqDecision jsval.
Proof. solve_decision. Defined.

(** [a[k]] on an array of values: [undefined] outside [0 .. length-1]. *)
Definition js_get (a : list jsval) (k : Z) : jsval :=
  if k <? 0 then JUndefined else default JUndefined (a !! Z.to_nat k).

(** [a[k]] on an array of integers (a typed array, or a [number[]] filled
    with integers). *)
Definition int_get (a : list Z) (k : Z) : jsval :=
  if k <? 0 then JUndefined else from_option JNum JUndefined (a !! Z.to_nat k).

(** [a.length] *)
Definition len {A} (a : list A) : Z := Z.of_nat (length a).

(** ** The triangulation engine on a store of arrays

    [triangulateCell] receives two array references and pushes onto the
    second one.  The store maps references to array contents, so that the
    two arguments may or may not be the same array. *)

Module Engine.

Definition loc := nat.
Abbreviation store := (gmap loc (list jsval)).

Definition arr (s : store) (l : loc) : list jsval := default [] (s !! l).

(** A computation reads and updates the store; [None] is a loop that ran
    out of fuel. *)
Definition M (R : Type) : Type := store -> option (R * store).

Definition ret {R} (r : R) : M R := fun s => Some (r, s).
Definition bind {R R'} (m : M R) (k : R -> M R') : M R' :=
  fun s => match m s with
           | Some (r, s') => k r s'
           | None => None
           end.
Definition out_of_fuel {R} : M R := fun _ => None.

Declare Scope engine_scope.
Delimit Scope engine_scope with engine.
Notation "'let!' x ':=' m 'in' k" := (bind m (fun x => k))
  (at level 10, x name, m at level 100, k at level 200) : engine_scope.
Notation "m ';;' k" := (bind m (fun _ => k))
  (at level 100, k at level 200, right associativity) : engine_scope.
Local Open Scope engine_scope.

(** [a.length], [a[k]] and [a.push(x, y, z)] *)
Definition length_of (a : loc) : M Z := fun s => Some (len (arr s a), s).
Definition read (a : loc) (k : Z) : M jsval := fun s => Some (js_get (arr s a) k, s).
Definition push (a : loc) (vs : list jsval) : M unit :=
  fun s => Some (tt, <[a := arr s a ++ vs]> s).

(** [indices.push(cellIndices[p], cellIndices[q], cellIndices[r])] *)
Definition push3 (cellIndices indices : loc) (p q r : Z) : M unit :=
  let! x := read cellIndices p in
  let! y := read cellIndices q in
  let! z := read cellIndices r in
  push indices [x; y; z].

(** [for (let k = k0; k < cellIndices.length - 1; k++) push(0, k, k+1)];
    the bound is read again at every turn, as in the source. *)
Fixpoint polygon_loop (fuel : nat) (cellIndices indices : loc) (k : Z) : M unit :=
  match fuel with
  | O => out_of_fuel
  | S fuel' =>
      let! n := length_of cellIndices in
      if k <? n - 1
      then push3 cellIndices indices 0 k (k + 1) ;;
           polygon_loop fuel' cellIndices indices (k + 1)
      else ret tt
  end.

(** [face.map(id => cellIndices[id])] *)
Definition map_read (cellIndices : loc) (face : list Z) : M (list jsval) :=
  fun s => Some (map (js_get (arr s cellIndices)) face, s).

(** [for (const face of faces) { const idx = face.map(id => cellIndices[id]);
      indices.push(idx[0], idx[1], idx[2]);
      indices.push(idx[0], idx[2], idx[3]) }] *)
Fixpoint quad_faces (faces : list (list Z)) (cellIndices indices : loc) : M unit :=
  match faces with
  | [] => ret tt
  | face :: rest =>
      let! idx := map_read cellIndices face in
      push indices [js_get idx 0; js_get idx 1; js_get idx 2] ;;
      push indices [js_get idx 0; js_get idx 2; js_get idx 3] ;;
      quad_faces rest cellIndices indices
  end.

Definition hexFaces : list (list Z) :=
  [ [0; 1; 5; 4]; [1; 2; 6; 5]; [2; 3; 7; 6]; [3; 0; 4; 7];
    [0; 3; 2; 1]; [4; 5; 6; 7] ].

Definition wedgeQuads : list (list Z) :=
  [ [0; 1; 4; 3]; [1; 2; 5; 4]; [2; 0; 3; 5] ].

(** [if (cellIndices.length >= m) { body }] *)
Definition if_length_ge (cellIndices : loc) (m : Z) (body : M unit) : M unit :=
  let! n := length_of cellIndices in
  if m <=? n then body else ret tt.

(** The [switch (type) { ... }] block. *)
Definition switch_type (fuel : nat) (type : Z) (cellIndices indices : loc) : M unit :=
  if type =? 5 then
    if_length_ge cellIndices 3 (push3 cellIndices indices 0 1 2)
  else if type =? 7 then
    if_length_ge cellIndices 3 (polygon_loop fuel cellIndices indices 1)
  else if type =? 9 then
    if_length_ge cellIndices 4
      (push3 cellIndices indices 0 1 2 ;;
       push3 cellIndices indices 0 2 3)
  else if type =? 10 then
    if_length_ge cellIndices 4
      (push3 cellIndices indices 0 1 2 ;;
       push3 cellIndices indices 0 2 3 ;;
       push3 cellIndices indices 0 3 1 ;;
       push3 cellIndices indices 1 3 2)
  else if type =? 12 then
    if_length_ge cellIndices 8 (quad_faces hexFaces cellIndices indices)
  else if type =? 13 then
    if_length_ge cellIndices 6
      (push3 cellIndices indices 0 1 2 ;;
       push3 cellIndices indices 3 5 4 ;;
       quad_faces wedgeQuads cellIndices indices)
  else if type =? 14 then
    if_length_ge cellIndices 5
      (push3 cellIndices indices 0 1 2 ;;
       push3 cellIndices indices 0 2 3 ;;
       push3 cellIndices indices 0 1 4 ;;
       push3 cellIndices indices 1 2 4 ;;
       push3 cellIndices indices 2 3 4 ;;
       push3 cellIndices indices 3 0 4)
  else ret tt.

(** Every [push] adds three elements, so the division at the end is
    exact. *)
Definition triangulateCell (fuel : nat) (type : Z) (cellIndices indices : loc) : M Z :=
  let! initialLength := length_of indices in
  switch_type fuel type cellIndices indices ;;
  let! finalLength := length_of indices in
  ret ((finalLength - initialLength) / 3).

End Engine.

(** The call [triangulateCell(type, cellIndices, indices)] as both loaders
    make it: [cellIndices] is an array created for this cell, [indices]
    another array.  The result is the new content of [indices] and the
    returned count. *)
Definition two_arrays (cellIndices indices : list jsval) : Engine.store :=
  <[1%nat := indices]> {[0%nat := cellIndices]}.

Definition call_triangulateCell (type : Z) (cellIndices indices : list jsval)
  : list jsval * Z :=
  match Engine.triangulateCell (length cellIndices) type 0%nat 1%nat
          (two_arrays cellIndices indices) with
  | Some (n, s') => (Engine.arr s' 1%nat, n)
  | None => (indices, 0)
  end.

(** ** Loops

    [for (let i = lo; i < hi; i++) body], for a bound [hi] that the body
    leaves alone; the second form has a body that may [break].  The
    counter is an integer.  The source's counter is a number, which
    [i++] does not move past 2^53: a loop of the source whose bound lies
    above 2^53 does not end, and what is said of a loop here is said of
    the loops of the source that end.  [Counted] below has the legacy
    walk with the counter as a number. *)

Fixpoint iterate_from {St : Type} (n : nat) (i : Z) (body : Z -> St -> St) (s : St) : St :=
  match n with
  | O => s
  | S n' => iterate_from n' (i + 1) body (body i s)
  end.

Definition for_lt {St : Type} (lo hi : Z) (body : Z -> St -> St) (s : St) : St :=
  iterate_from (Z.to_nat (hi - lo)) lo body s.

Inductive flow (St : Type) : Type :=
| Continue (s : St)
| Break (s : St).
Arguments Continue {St} s.
Arguments Break {St} s.

Fixpoint iterate_break {St : Type} (n : nat) (i : Z) (body : Z -> St -> flow St) (s : St) : St :=
  match n with
  | O => s
  | S n' => match body i s with
            | Continue s' => iterate_break n' (i + 1) body s'
            | Break s' => s'
            end
  end.

Definition for_lt_break {St : Type} (lo hi : Z) (body : Z -> St -> flow St) (s : St) : St :=
  iterate_break (Z.to_nat (hi - lo)) lo body s.

(** [a[i]] on an array of integers, at an index that the surrounding loop
    bound keeps inside the array. *)
Definition int_at (a : list Z) (i : Z) : Z := default 0 (a !! Z.to_nat i).

(** ** Cell walks

    What both loaders build while they walk the cells: the index buffer,
    the triangle-to-cell map, and (a ghost field, not in the source) the
    arguments of every call of the engine, in order. *)
Record walk : Type := MkWalk {
  indices : list jsval;
  cellIdMap : list Z;
  calls : list (Z * list jsval)
}.

Definition empty_walk : walk := MkWalk [] [] [].

(** [const trianglesAdded = triangulateCell(type, cellIndices, indices);
     for (let t = 0; t < trianglesAdded; t++) cellIdMap.push(i);] *)
Definition emit (i type : Z) (cellIndices : list jsval) (w : walk) : walk :=
  let '(indices', trianglesAdded) := call_triangulateCell type cellIndices (indices w) in
  MkWalk indices'
         (for_lt 0 trianglesAdded (fun _ m => m ++ [i]) (cellIdMap w))
         (calls w ++ [(type, cellIndices)]).

(** *** The XML loader ([VTULoader.parse], "Generate Geometry Indices") *)

(** [for (let k = currentOffset; k < nextOffset; k++)
       if (k < connectivity.length) cellIndices.push(connectivity[k]);]
    The counter [k] is an integer here.  This is the loop of the source
    for offsets up to 2^53, which typed arrays of integers never exceed;
    for an offset above 2^53, which an array of type [Float32] can hold,
    [k++] stops moving and the loop of the source does not end. *)
Definition xml_slice (connectivity : list Z) (currentOffset nextOffset : Z) : list jsval :=
  for_lt currentOffset nextOffset
    (fun k cellIndices =>
       if k <? len connectivity then cellIndices ++ [int_get connectivity k]
       else cellIndices)
    [].

(** One turn of the loop over cells; the state is [currentOffset] and the
    walk. *)
Definition xml_cell (connectivity offsets types : list Z) (i : Z) (st : Z * walk)
  : Z * walk :=
  let '(currentOffset, w) := st in
  let nextOffset := int_at offsets i in
  let type := int_at types i in
  let cellIndices := xml_slice connectivity currentOffset nextOffset in
  (nextOffset, emit i type cellIndices w).

Definition xml_walk (numberOfCells : Z) (connectivity offsets types : list Z) : walk :=
  let safeNumCells := Z.min numberOfCells (Z.min (len offsets) (len types)) in
  snd (for_lt 0 safeNumCells (xml_cell connectivity offsets types) (0, empty_walk)).

(** *** The legacy loader ([VTKUnstructuredLoader.parse]) *)

(** Type inference for poly-data: the [if ... else if ...] chain. *)
Definition infer_type (nPts : Z) : Z :=
  if nPts =? 1 then 1
  else if nPts =? 2 then 3
  else if nPts =? 3 then 5
  else if nPts =? 4 then 9
  else 7.

(** [while (index < cellDataRaw.length) { nPts = cellDataRaw[index]; ...;
      index += nPts + 1 }].  A read that misses the array gives
    [undefined]: the chain pushes 7, [index] becomes NaN and the test
    [NaN < length] ends the loop. *)
Fixpoint infer_loop (fuel : nat) (cellDataRaw : list Z) (index : Z) (cellTypes : list Z)
  : option (list Z) :=
  match fuel with
  | O => None
  | S fuel' =>
      if index <? len cellDataRaw then
        match int_get cellDataRaw index with
        | JNum nPts =>
            infer_loop fuel' cellDataRaw (index + (nPts + 1))
                       (cellTypes ++ [infer_type nPts])
        | JUndefined => Some (cellTypes ++ [7])
        end
      else Some cellTypes
  end.

(** "Post-Processing for POLYDATA": the cell types and [numCells] that the
    geometry generation uses. *)
Definition infer_types (fuel : nat) (cellDataRaw cellTypes : list Z) (numCells : Z)
  : option (list Z * Z) :=
  if (len cellTypes =? 0) && (0 <? len cellDataRaw) then
    cellTypes' ← infer_loop fuel cellDataRaw 0 cellTypes;
    Some (cellTypes', len cellTypes')
  else Some (cellTypes, numCells).

(** State of the geometry generation: the read position, the walk, and (a
    ghost field) every position at which [cellDataRaw] was read. *)
Record legacy_state : Type := MkLegacy {
  cellDataIndex : Z;
  lwalk : walk;
  raw_reads : list Z
}.

(** [cellDataRaw[cellDataIndex++]] *)
Definition next_raw (cellDataRaw : list Z) (st : legacy_state) : Z * legacy_state :=
  (int_at cellDataRaw (cellDataIndex st),
   MkLegacy (cellDataIndex st + 1) (lwalk st) (raw_reads st ++ [cellDataIndex st])).

(** [for (let j = 0; j < nPts; j++)
       if (cellDataIndex < cellDataRaw.length)
         cellIndices.push(cellDataRaw[cellDataIndex++]);]
    The counter [j] is an integer here.  For [nPts] up to 2^53 this is
    the loop of the source; for [nPts] above 2^53 the loop of the source
    does not end ([Counted.legacy_slice]). *)
Definition legacy_slice (cellDataRaw : list Z) (nPts : Z) (st : legacy_state)
  : list jsval * legacy_state :=
  for_lt 0 nPts
    (fun _ '(cellIndices, st) =>
       if cellDataIndex st <? len cellDataRaw then
         let '(v, st') := next_raw cellDataRaw st in (cellIndices ++ [JNum v], st')
       else (cellIndices, st))
    ([], st).

Definition legacy_cell (cellDataRaw cellTypes : list Z) (i : Z) (st : legacy_state)
  : flow legacy_state :=
  let type := int_at cellTypes i in
  if len cellDataRaw <=? cellDataIndex st then Break st
  else
    let '(nPts, st1) := next_raw cellDataRaw st in
    let '(cellIndices, st2) := legacy_slice cellDataRaw nPts st1 in
    Continue (MkLegacy (cellDataIndex st2)
                       (emit i type cellIndices (lwalk st2))
                       (raw_reads st2)).

Definition legacy_walk (cellDataRaw cellTypes : list Z) (numCells : Z) : legacy_state :=
  let safeNumCells := Z.min numCells (len cellTypes) in
  for_lt_break 0 safeNumCells (legacy_cell cellDataRaw cellTypes)
               (MkLegacy 0 empty_walk []).

(** ** Scalar fields *)

(** A JavaScript number that is only compared. *)
Inductive num : Type :=
| NaN
| NegInf
| Fin (q : Q)
| PosInf.

Definition isNaN (v : num) : bool :=
  match v with NaN => true | _ => false end.

(** [a < b]: false as soon as one side is NaN. *)
Definition num_lt (a b : num) : bool :=
  match a, b with
  | NaN, _ | _, NaN => false
  | NegInf, NegInf => false
  | NegInf, _ => true
  | Fin _, NegInf => false
  | Fin p, Fin q => negb (Qle_bool q p)
  | Fin _, PosInf => true
  | PosInf, _ => false
  end.

(** [a > b] *)
Definition num_gt (a b : num) : bool := num_lt b a.

Record ScalarField : Type := MkField {
  name : option string;
  min : num;
  max : num;
  data : list num
}.

Record VTKData : Type := MkVTKData {
  pointData : list ScalarField;
  cellData : list ScalarField;
  vtk_cellIdMap : list Z
}.

(** [let min = Infinity, max = -Infinity;
     for (const v of data) { if (v < min) min = v; if (v > max) max = v; }] *)
Definition extrema (data : list num) : num * num :=
  foldl (fun '(min, max) v =>
           (if num_lt v min then v else min, if num_gt v max then v else max))
        (PosInf, NegInf) data.

(** ** Mesh assembly

    The geometry keeps the point buffer, the index buffer when it is not
    empty, and the field data.  The normals and bounds that three.js
    derives from them are not modelled. *)
Record geometry (P : Type) : Type := MkGeometry {
  position : P;
  index : option (list jsval);
  userData : VTKData
}.
Arguments MkGeometry {P} position index userData.
Arguments position {P} g.
Arguments index {P} g.
Arguments userData {P} g.

Definition build_geometry {P : Type} (points : P) (w : walk)
    (pointDataFields cellDataFields : list ScalarField) : geometry P :=
  MkGeometry points
             (if 0 <? len (indices w) then Some (indices w) else None)
             (MkVTKData pointDataFields cellDataFields (cellIdMap w)).

(** How a call ends: with a value, or with an exception that nothing
    catches. *)
Inductive outcome (A : Type) : Type :=
| Returned (a : A)
| Thrown.
Arguments Returned {A} a.
Arguments Thrown {A}.

Definition returned {A : Type} (r : outcome A) : bool :=
  match r with Returned _ => true | Thrown => false end.

(** [parseInt]: [None] is NaN. *)
Definition count : Type := option Z.

(** ** The legacy loader: the pass over the lines

    A line is taken after [trim] and [split(/\s+/)]: the keyword its first
    token spells, with the arguments the loader reads from the next
    tokens, or else the [parseFloat] of every token. *)
Inductive line : Type :=
| Blank                                   (* empty, or starting with # *)
| Dataset (type : option string)
| KwPoints (n : count)
| KwCells (n : count)
| KwPolygons
| KwLines
| KwTriangleStrips
| KwCellTypes
| KwPointData
| KwCellData
| KwScalars (name : option string) (components : count)
| KwLookupTable
| Other (tokens : list num).

Inductive section : Type :=
| NONE | POINTS | CELLS | CELL_TYPES | POINT_DATA | CELL_DATA
| POLYGONS | LINES | TRIANGLE_STRIPS.

Inductive subSection : Type := SUB_NONE | SCALARS | LOOKUP_TABLE.

#[global] Instance section_eq_dec : EqDecision section.
Proof. solve_decision. Defined.
#[global] Instance subSection_eq_dec : EqDecision subSection.
Proof. solve_decision. Defined.

Record scalar : Type := MkScalar {
  scalar_name : option string;
  components : count;
  scalar_data : list num
}.

Record lines_state : Type := MkLines {
  cur_section : section;
  cur_subSection : subSection;
  numPoints : count;
  numCells : count;
  pointCount : Z;
  points : list (option num);
  cellDataRaw : list num;
  cellTypes : list num;
  currentScalar : option scalar;
  pointDataFields : list ScalarField;
  cellDataFields : list ScalarField
}.

Definition initial_lines : lines_state :=
  MkLines NONE SUB_NONE (Some 0) (Some 0) 0 [] [] [] None [] [].

(** [line.trim().split(/\s+/).map(parseFloat).filter(n => !isNaN(n))] *)
Definition parseNumbers (tokens : list num) : list num :=
  filter (fun v => isNaN v = false) tokens.

(** [for (let v of vals) if (pointCount < points.length) points[pointCount++] = v;] *)
Definition store_points (vals : list num) (st : Z * list (option num))
  : Z * list (option num) :=
  foldl (fun '(pointCount, points) v =>
           if pointCount <? len points
           then (pointCount + 1, <[Z.to_nat pointCount := Some v]> points)
           else (pointCount, points))
        st vals.

(** [data.length >= targetCount * components], false when a side is NaN. *)
Definition reached (n : Z) (targetCount components : count) : bool :=
  match targetCount, components with
  | Some t, Some c => t * c <=? n
  | _, _ => false
  end.

(** The branch of a line that is no keyword ("Data Processing"). *)
Definition data_line (tokens : list num) (st : lines_state) : lines_state :=
  let vals := parseNumbers tokens in
  match cur_section st with
  | POINTS =>
      let '(pointCount', points') := store_points vals (pointCount st, points st) in
      MkLines (cur_section st) (cur_subSection st) (numPoints st) (numCells st)
              pointCount' points' (cellDataRaw st) (cellTypes st)
              (currentScalar st) (pointDataFields st) (cellDataFields st)
  | CELLS | POLYGONS | LINES | TRIANGLE_STRIPS =>
      MkLines (cur_section st) (cur_subSection st) (numPoints st) (numCells st)
              (pointCount st) (points st) (cellDataRaw st ++ vals) (cellTypes st)
              (currentScalar st) (pointDataFields st) (cellDataFields st)
  | CELL_TYPES =>
      MkLines (cur_section st) (cur_subSection st) (numPoints st) (numCells st)
              (pointCount st) (points st) (cellDataRaw st) (cellTypes st ++ vals)
              (currentScalar st) (pointDataFields st) (cellDataFields st)
  | POINT_DATA | CELL_DATA =>
      match cur_subSection st, currentScalar st with
      | SCALARS, Some sc =>
          let data := scalar_data sc ++ vals in
          let targetCount :=
            if decide (cur_section st = POINT_DATA) then numPoints st
            else if len (cellTypes st) =? 0 then numCells st
                 else Some (len (cellTypes st)) in
          if reached (len data) targetCount (components sc) then
            let '(min, max) := extrema data in
            let field := MkField (scalar_name sc) min max data in
            MkLines (cur_section st) SUB_NONE (numPoints st) (numCells st)
                    (pointCount st) (points st) (cellDataRaw st) (cellTypes st)
                    None
                    (if decide (cur_section st = POINT_DATA)
                     then pointDataFields st ++ [field] else pointDataFields st)
                    (if decide (cur_section st = POINT_DATA)
                     then cellDataFields st else cellDataFields st ++ [field])
          else
            MkLines (cur_section st) (cur_subSection st) (numPoints st) (numCells st)
                    (pointCount st) (points st) (cellDataRaw st) (cellTypes st)
                    (Some (MkScalar (scalar_name sc) (components sc) data))
                    (pointDataFields st) (cellDataFields st)
      | _, _ => st
      end
  | NONE => st
  end.

Definition set_section (s : section) (st : lines_state) : lines_state :=
  MkLines s (cur_subSection st) (numPoints st) (numCells st)
          (pointCount st) (points st) (cellDataRaw st) (cellTypes st)
          (currentScalar st) (pointDataFields st) (cellDataFields st).

Definition set_data_section (s : section) (st : lines_state) : lines_state :=
  MkLines s SUB_NONE (numPoints st) (numCells st)
          (pointCount st) (points st) (cellDataRaw st) (cellTypes st)
          (currentScalar st) (pointDataFields st) (cellDataFields st).

(** One turn of the loop over the lines.  [new Array(n)] throws a
    RangeError unless [n] is an integer of [0 .. 2^32 - 1]; [parts[1]
    .toLowerCase()] throws a TypeError when the token is missing. *)
Definition read_line (l : line) (st : lines_state) : outcome lines_state :=
  match l with
  | Blank => Returned st
  | Dataset None => Thrown
  | Dataset (Some _) => Returned st
  | KwPoints n =>
      match n with
      | Some k =>
          if (0 <=? k * 3) && (k * 3 <? 2 ^ 32) then
            Returned
              (MkLines POINTS (cur_subSection st) n (numCells st)
                       0 (replicate (Z.to_nat (k * 3)) None)
                       (cellDataRaw st) (cellTypes st)
                       (currentScalar st) (pointDataFields st) (cellDataFields st))
          else Thrown
      | None => Thrown
      end
  | KwCells n =>
      Returned
        (MkLines CELLS (cur_subSection st) (numPoints st) n
                 (pointCount st) (points st) (cellDataRaw st) (cellTypes st)
                 (currentScalar st) (pointDataFields st) (cellDataFields st))
  | KwPolygons => Returned (set_section POLYGONS st)
  | KwLines => Returned (set_section LINES st)
  | KwTriangleStrips => Returned (set_section TRIANGLE_STRIPS st)
  | KwCellTypes => Returned (set_section CELL_TYPES st)
  | KwPointData => Returned (set_data_section POINT_DATA st)
  | KwCellData => Returned (set_data_section CELL_DATA st)
  | KwScalars name components =>
      Returned
        (MkLines (cur_section st) SCALARS (numPoints st) (numCells st)
                 (pointCount st) (points st) (cellDataRaw st) (cellTypes st)
                 (Some (MkScalar name components []))
                 (pointDataFields st) (cellDataFields st))
  | KwLookupTable => Returned st
  | Other tokens => Returned (data_line tokens st)
  end.

Fixpoint read_lines (ls : list line) (st : lines_state) : outcome lines_state :=
  match ls with
  | [] => Returned st
  | l :: rest =>
      match read_line l st with
      | Returned st' => read_lines rest st'
      | Thrown => Thrown
      end
  end.

(** "Post-Processing for POLYDATA" and "GEOMETRY GENERATION", on integer
    cell data; [None] when the inference loop does not end within the
    fuel. *)
Definition legacy_finish {P : Type} (fuel : nat) (points : P)
    (cellDataRaw cellTypes : list Z) (numCells : Z)
    (pointDataFields cellDataFields : list ScalarField) : option (geometry P) :=
  '(cellTypes', numCells') ← infer_types fuel cellDataRaw cellTypes numCells;
  Some (build_geometry points
          (lwalk (legacy_walk cellDataRaw cellTypes' numCells'))
          pointDataFields cellDataFields).

(** ** The XML loader: data arrays *)

(** The result type of [parseDataArray], without [null]. *)
Inductive typedArray : Type :=
| Float32Array (values : list num)
| Int32Array (values : list Z)
| Uint8Array (values : list Z).

(** [Array.from(arr)] *)
Definition array_from (a : typedArray) : list num :=
  match a with
  | Float32Array vs => vs
  | Int32Array vs | Uint8Array vs => (fun z => Fin (inject_Z z)) <$> vs
  end.

(** The integer held by a number, if it is one. *)
Definition to_int (v : num) : option Z :=
  match v with
  | Fin q => if (Qnum q mod Zpos (Qden q) =? 0) then Some (Qnum q / Zpos (Qden q)) else None
  | _ => None
  end.

(** A typed array as a list of integers, when all its elements are. *)
Definition integers (a : typedArray) : option (list Z) :=
  match a with
  | Float32Array vs => mapM to_int vs
  | Int32Array vs | Uint8Array vs => Some vs
  end.

(** A [DataArray] element: the attributes and text that the loader reads.
    [offset] is [parseInt] of the attribute, [None] when the attribute is
    missing or empty or does not start with a number; [text] is the
    trimmed text content. *)
Record element : Type := MkElement {
  format : option string;
  type : option string;
  offset : option Z;
  text : string;
  Name : option string;
  NumberOfComponents : count
}.

Record appendedDataMap : Type := MkAppended {
  buffer : option (list byte);
  offsetStart : Z;
  encoding : string
}.

Definition byte_value (b : byte) : Z := Z.of_N (Byte.to_N b).

(** [view.getUint32(pos, true)] on a view of the whole buffer; [None] is
    the RangeError of a position outside [0 .. length - 4]. *)
Definition getUint32 (buffer : list byte) (pos : Z) : option Z :=
  if (0 <=? pos) && (pos + 4 <=? len buffer) then
    match drop (Z.to_nat pos) buffer with
    | b0 :: b1 :: b2 :: b3 :: _ =>
        Some (byte_value b0 + byte_value b1 * 2 ^ 8
              + byte_value b2 * 2 ^ 16 + byte_value b3 * 2 ^ 24)
    | _ => None
    end
  else None.

(** [buffer.slice(a, b)] for [0 <= a <= b]. *)
Definition slice (buffer : list byte) (a b : Z) : list byte :=
  take (Z.to_nat (b - a)) (drop (Z.to_nat a) buffer).

Section data_arrays.

(** [atob]: [None] when it throws.  [createTypedArray] is the loader's
    method of that name, which catches what the array constructors
    throw; [parseAscii] is the ASCII branch from [split] on. *)
Variable atob : string -> option (list byte).
Variable createTypedArray : option string -> list byte -> typedArray.
Variable parseAscii : option string -> string -> typedArray.

Definition read_header (buffer : list byte) (start headerSize : Z) : option Z :=
  if headerSize =? 8 then
    low ← getUint32 buffer start;
    high ← getUint32 buffer (start + 4);
    Some (low + high * 4294967296)
  else getUint32 buffer start.

Definition parseDataArray (element : element) (appendedMap : appendedDataMap)
    (headerSize : Z) : outcome (option typedArray) :=
  if decide (format element = Some "appended") then
    match offset element, buffer appendedMap with
    | Some offset, Some buffer =>
        let start :=
          if decide (encoding appendedMap = "raw")
          then offsetStart appendedMap + offset else offset in
        if len buffer <=? start then Returned None
        else if len buffer <? start + headerSize then Returned None
        else
          match read_header buffer start headerSize with
          | None => Thrown
          | Some byteSize =>
              let dataStart := start + headerSize in
              if len buffer <? dataStart + byteSize then Returned None
              else Returned
                     (Some (createTypedArray (type element)
                              (slice buffer dataStart (dataStart + byteSize))))
          end
    | _, _ => Returned None
    end
  else if decide (format element = Some "binary") then
    match atob (text element) with
    | Some bytes =>
        if len bytes <=? headerSize then Returned None
        else Returned
               (Some (createTypedArray (type element)
                        (drop (Z.to_nat headerSize) bytes)))
    | None => Returned None
    end
  else
    if decide (text element = "") then Returned None
    else Returned (Some (parseAscii (type element) (text element))).

(** The callback of [dataArrays.forEach] in "Parse Point Data" and
    "Parse Cell Data". *)
Definition add_field (appendedMap : appendedDataMap) (headerSize : Z)
    (da : element) (fields : list ScalarField) : outcome (list ScalarField) :=
  let name := match Name da with
              | Some n => if decide (n = "") then "Unknown" else n
              | None => "Unknown"
              end in
  if decide (NumberOfComponents da = Some 1) then
    match parseDataArray da appendedMap headerSize with
    | Thrown => Thrown
    | Returned None => Returned fields
    | Returned (Some arr) =>
        let data := array_from arr in
        let '(min, max) := extrema data in
        if 0 <? len data
        then Returned (fields ++ [MkField (Some name) min max data])
        else Returned fields
    end
  else Returned fields.

Fixpoint add_fields (appendedMap : appendedDataMap) (headerSize : Z)
    (das : list element) (fields : list ScalarField) : outcome (list ScalarField) :=
  match das with
  | [] => Returned fields
  | da :: rest =>
      match add_field appendedMap headerSize da fields with
      | Returned fields' => add_fields appendedMap headerSize rest fields'
      | Thrown => Thrown
      end
  end.

(** The [Piece] element: its cell count, the [DataArray] of [Points],
    the three named arrays of [Cells], and the arrays of [PointData] and
    [CellData]; [None] is an element that [querySelector] does not
    find. *)
Record cells_element : Type := MkCells {
  connectivityEl : option element;
  offsetsEl : option element;
  typesEl : option element
}.

Record piece : Type := MkPiece {
  NumberOfCells : count;
  pointsElement : option element;
  cellsElement : option cells_element;
  pointDataEl : option (list element);
  cellDataEl : option (list element)
}.

Definition with_point_data (p : piece) (das : list element) : piece :=
  MkPiece (NumberOfCells p) (pointsElement p) (cellsElement p)
          (Some das) (cellDataEl p).

(** The walk of [parse] on the three cell arrays; [None] when one of
    them holds a number that is no integer, which the walk of this
    development does not cover.  [Math.min] of NaN is NaN and the loop
    does not run. *)
Definition xml_cells_walk (numberOfCells : count)
    (connectivity offsets types : option typedArray) : option walk :=
  match connectivity, offsets, types with
  | Some connectivity, Some offsets, Some types =>
      match numberOfCells with
      | Some n =>
          c ← integers connectivity;
          o ← integers offsets;
          t ← integers types;
          Some (xml_walk n c o t)
      | None => Some empty_walk
      end
  | _, _, _ => Some empty_walk
  end.

(** [parse] from the [Piece] element on.  The result is [Thrown]
    exactly when the loader throws; a returned [None] is a geometry
    outside the integer model of the walk. *)
Definition xml_parse (headerSize : Z) (appendedMap : appendedDataMap) (p : piece)
  : outcome (option (geometry typedArray)) :=
  match pointsElement p with
  | None => Thrown
  | Some pointsElement =>
      match parseDataArray pointsElement appendedMap headerSize with
      | Thrown | Returned None => Thrown
      | Returned (Some pointsArray) =>
          match cellsElement p with
          | Some (MkCells (Some connectivityEl) (Some offsetsEl) (Some typesEl)) =>
              match parseDataArray connectivityEl appendedMap headerSize,
                    parseDataArray offsetsEl appendedMap headerSize,
                    parseDataArray typesEl appendedMap headerSize with
              | Returned connectivity, Returned offsets, Returned types =>
                  match add_fields appendedMap headerSize
                          (default [] (pointDataEl p)) [],
                        add_fields appendedMap headerSize
                          (default [] (cellDataEl p)) [] with
                  | Returned pointDataFields, Returned cellDataFields =>
                      Returned
                        (w ← xml_cells_walk (NumberOfCells p)
                               connectivity offsets types;
                         Some (build_geometry pointsArray w
                                 pointDataFields cellDataFields))
                  | _, _ => Thrown
                  end
              | _, _, _ => Thrown
              end
          | _ => Thrown
          end
      end
  end.

End data_arrays.

(** ** The legacy loader, whole

    [parse] on the lines of a file whose cell sections hold integers.
    [None]: the cell data is not made of integers, or the type inference
    does not end within the fuel. *)
Definition legacy_parse (fuel : nat) (ls : list line)
  : option (outcome (geometry (list (option num)))) :=
  match read_lines ls initial_lines with
  | Thrown => Some Thrown
  | Returned st =>
      raw ← mapM to_int (cellDataRaw st);
      tys ← mapM to_int (cellTypes st);
      g ← legacy_finish fuel (points st) raw tys (default 0 (numCells st))
            (pointDataFields st) (cellDataFields st);
      Some (Returned g)
  end.

(** *** The cells of a walk, as the specification describes them *)

(** The connectivity entries at the positions of [[a, b)], in order: a
    position at or past the end of the array has no entry, and the read
    [connectivity[k]] at a position below 0, which only a negative offset
    can produce, is [undefined]. *)
Definition range_entries (connectivity : list Z) (a b : Z) : list jsval :=
  int_get connectivity <$> filter (fun k => k < len connectivity) (seqZ a (b - a)).

(** [runningStart] of cell [i]: 0 for the first cell, then the previous
    cell's offset. *)
Definition running_start (offsets : list Z) (i : Z) : Z :=
  if i =? 0 then 0 else int_at offsets (i - 1).

(** The arity-prefixed groups of the legacy cell buffer from position [p]
    on, for at most [n] cells numbered from [i]: no group starts at or past
    the end of the buffer, and a group that runs past the end is cut
    there. *)
Fixpoint legacy_cells (n : nat) (i p : Z) (cellDataRaw cellTypes : list Z)
  : list (Z * list jsval) :=
  match n with
  | O => []
  | S n' =>
      if len cellDataRaw <=? p then []
      else
        let nPts := int_at cellDataRaw p in
        (int_at cellTypes i,
         JNum <$> take (Z.to_nat nPts) (drop (Z.to_nat (p + 1)) cellDataRaw))
          :: legacy_cells n' (i + 1)
               (Z.min (len cellDataRaw) (p + 1 + Z.max 0 nPts))
               cellDataRaw cellTypes
  end.

(** The read positions of the inference loop: it starts at 0 and, from a
    position inside the buffer holding the prefix [nPts], goes on to the
    position [nPts + 1] further. *)
Inductive visited (cellDataRaw : list Z) : Z -> Prop :=
| visited_start : visited cellDataRaw 0
| visited_next index nPts :
    visited cellDataRaw index ->
    index < len cellDataRaw ->
    int_get cellDataRaw index = JNum nPts ->
    visited cellDataRaw (index + (nPts + 1)).

(** The buffer of cells given one by one: each cell's arity, then its
    point ids. *)
Definition cell_buffer (cells : list (list Z)) : list Z :=
  flat_map (fun c => len c :: c) cells.

(** The buffer of a [LINES] section made of two-point lines. *)
Definition lines_buffer (lines : list (Z * Z)) : list Z :=
  cell_buffer ((fun '(a, b) => [a; b]) <$> lines).

(** Little-endian value of a byte string. *)
Fixpoint little_endian (bs : list byte) : Z :=
  match bs with
  | [] => 0
  | b :: rest => byte_value b + 256 * little_endian rest
  end.

(** ** The decomposition table of the specification (section 4.1)

    Vertex positions are offsets into the cell's own index list. *)

Definition split_quad (face : Z * Z * Z * Z) : list (Z * Z * Z) :=
  let '(a, b, c, d) := face in [(a, b, c); (a, c, d)].

Definition rule (type : Z) (n : Z) : list (Z * Z * Z) :=
  if type =? 5 then [(0, 1, 2)]
  else if type =? 7 then (fun k => (0, k, k + 1)) <$> seqZ 1 (n - 2)
  else if type =? 9 then [(0, 1, 2); (0, 2, 3)]
  else if type =? 10 then [(0, 1, 2); (0, 2, 3); (0, 3, 1); (1, 3, 2)]
  else if type =? 12 then
    flat_map split_quad
      [(0, 1, 5, 4); (1, 2, 6, 5); (2, 3, 7, 6); (3, 0, 4, 7); (0, 3, 2, 1); (4, 5, 6, 7)]
  else if type =? 13 then
    [(0, 1, 2); (3, 5, 4)]
      ++ flat_map split_quad [(0, 1, 4, 3); (1, 2, 5, 4); (2, 0, 3, 5)]
  else if type =? 14 then
    [(0, 1, 2); (0, 2, 3); (0, 1, 4); (1, 2, 4); (2, 3, 4); (3, 0, 4)]
  else [].

Definition min_arity (type : Z) : option Z :=
  if type =? 5 then Some 3
  else if type =? 7 then Some 3
  else if type =? 9 then Some 4
  else if type =? 10 then Some 4
  else if type =? 12 then Some 8
  else if type =? 13 then Some 6
  else if type =? 14 then Some 5
  else None.

(** Triangle counts as the specification lists them. *)
Definition triangle_count (type : Z) (n : Z) : Z :=
  if type =? 5 then 1
  else if type =? 7 then n - 2
  else if type =? 9 then 2
  else if type =? 10 then 4
  else if type =? 12 then 12
  else if type =? 13 then 8
  else if type =? 14 then 6
  else 0.

(** The point ids selected by a list of position triples. *)
Definition select (cellIndices : list jsval) (ts : list (Z * Z * Z)) : list jsval :=
  flat_map (fun '(a, b, c) =>
              [js_get cellIndices a; js_get cellIndices b; js_get cellIndices c]) ts.

(** What a cell contributes: the table's triples when the type is supported
    and the cell has the minimum arity, nothing otherwise. *)
Definition triangles_of (type : Z) (cellIndices : list jsval) : list jsval :=
  match min_arity type with
  | Some m => if m <=? len cellIndices
              then select cellIndices (rule type (len cellIndices)) else []
  | None => []
  end.


(** ** Notions used by the properties *)

(** [m] leaves the array [c], which holds [ci], alone and extends the
    array [o] by [ts]. *)
Definition appends (c o : Engine.loc) (ci : list jsval)
    (m : Engine.M unit) (ts : list jsval) : Prop :=
  ∀ (s : Engine.store) out, s !! c = Some ci → s !! o = Some out →
    m s = Some (tt, <[o := out ++ ts]> s).

(** A quadrilateral face as the array of its four positions. *)
Definition face_list (f : Z * Z * Z * Z) : list Z :=
  let '(p, q, r, t) := f in [p; q; r; t].

(** The triangles and the number of triangles of a cell [(type, cellIndices)]. *)
Definition cell_triangles (c : Z * list jsval) : list jsval := triangles_of c.1 c.2.

Definition cell_count (c : Z * list jsval) : nat := (length (cell_triangles c) / 3)%nat.

(** The cell that produced triangle [t], from the number of triangles of
    each cell in order: the first cell [i] with [t] below the running
    total. *)
Fixpoint producer (counts : list nat) (i : nat) (t : nat) : option nat :=
  match counts with
  | [] => None
  | n :: rest => if (t <? n)%nat then Some i else producer rest (S i) (t - n)
  end.

(** The shape of a walk whose cells were numbered 0, 1, 2, ... *)
Definition numbered (w : walk) : Prop :=
  indices w = flat_map cell_triangles (calls w)
  ∧ cellIdMap w
    = concat (imap (fun i c => replicate (cell_count c) (Z.of_nat i)) (calls w)).

(** The cells of the XML walk: type and connectivity range of cells [0 .. n-1]. *)
Definition xml_cells (connectivity offsets types : list Z) (n : Z)
  : list (Z * list jsval) :=
  (fun i => (int_at types i,
             range_entries connectivity (running_start offsets i) (int_at offsets i)))
    <$> seqZ 0 n.

(** A position inside the legacy cell buffer. *)
Definition in_buffer (cellDataRaw : list Z) (p : Z) : Prop := 0 ≤ p < len cellDataRaw.

(** [a <= b] for numbers that are not NaN. *)
Definition num_le (a b : num) : Prop := num_lt b a = false.

(** The type codes of the table. *)
Definition supported_types : list Z := [5; 7; 9; 10; 12; 13; 14].

(** The index buffer of a geometry, empty when none is attached. *)
Definition index_buffer {P : Type} (g : geometry P) : list jsval :=
  default [] (index g).

(** The index buffer of a walk is made of whole triangles, cell after
    cell; the map has one entry per triangle, and entry [t] is the number
    of the cell that produced triangle [t]. *)
Definition one_entry_per_triangle (w : walk) : Prop :=
  indices w = flat_map cell_triangles (calls w)
  ∧ len (indices w) mod 3 = 0
  ∧ len (cellIdMap w) = len (indices w) / 3
  ∧ ∀ t : nat, cellIdMap w !! t = Z.of_nat <$> producer (cell_count <$> calls w) 0 t.

(** A hexahedron, for the examples. *)
Definition sample_hexahedron : list jsval :=
  JNum <$> [10; 11; 12; 13; 14; 15; 16; 17].

(** The start of an appended array inside the buffer. *)
Definition resolved_start (appendedMap : appendedDataMap) (offset : Z) : Z :=
  if decide (encoding appendedMap = "raw")
  then offsetStart appendedMap + offset else offset.

(** Stand-ins for the three functions that the data arrays depend on, for
    the examples: no base64 text decodes, bytes are kept as they are, and
    ASCII text holds no number. *)
Definition no_atob (text : string) : option (list byte) := None.
Definition bytes_array (type : option string) (bs : list byte) : typedArray :=
  Uint8Array (byte_value <$> bs).
Definition no_ascii (type : option string) (text : string) : typedArray :=
  Float32Array [].

(** An appended block: a 4-byte header that announces 2 bytes, the 2
    bytes, and one byte of the next array. *)
Definition sample_appended : appendedDataMap :=
  MkAppended (Some [x02; x00; x00; x00; xaa; xbb; x07]) 0 "base64".

Definition sample_array (offset : Z) : element :=
  MkElement (Some "appended") (Some "UInt8") (Some offset) "" (Some "pressure") (Some 1).

(** A legacy file without points whose [SCALARS] block holds no value and
    is followed by another attribute:
    [POINTS 0 float / POINT_DATA 0 / SCALARS s float / LOOKUP_TABLE default /
     VECTORS v float]. *)
Definition scalars_without_values : list line :=
  [KwPoints (Some 0); KwPointData; KwScalars (Some "s") (Some 1); KwLookupTable;
   Other [NaN; NaN; NaN]].

(** A point-data array whose offset lies before the appended buffer:
    [<DataArray Name="pressure" type="UInt8" format="appended" offset="-1"/>]
    in a file whose appended block decodes to seven bytes. *)
Definition array_before_buffer : element := sample_array (-1).

(** The point buffer of a file without points. *)
Definition no_points : list (option num) := [].

(** ** Notions used by the further properties *)

(** Cells given one by one, each with its type and its point ids, and
    their encoding in the three arrays of a [Cells] element:
    [connectivity] holds the ids, [offsets] the end of each cell in it,
    [types] the type codes. *)
Definition cell_connectivity (cells : list (Z * list Z)) : list Z :=
  flat_map snd cells.

Fixpoint cell_offsets (start : Z) (cells : list (Z * list Z)) : list Z :=
  match cells with
  | [] => []
  | c :: rest => (start + len c.2) :: cell_offsets (start + len c.2) rest
  end.

Definition cell_types (cells : list (Z * list Z)) : list Z := fst <$> cells.

(** The engine calls that such cells should give. *)
Definition cell_calls (cells : list (Z * list Z)) : list (Z * list jsval) :=
  (fun c : Z * list Z => (c.1, JNum <$> c.2)) <$> cells.

(** The entries of a cell-ID map grow along the map and stay below [n]. *)
Definition ids_in_order (cellIdMap : list Z) (n : Z) : Prop :=
  StronglySorted Z.le cellIdMap ∧ Forall (fun id => 0 ≤ id < n) cellIdMap.

(** A value of the index buffer is a number found in [source]. *)
Definition id_from (source : list Z) (v : jsval) : Prop :=
  ∃ z, v = JNum z ∧ z ∈ source.

(** ** The viewer ([App.tsx])

    What the viewer computes from the cell-ID map of a loaded geometry. *)

(** [let maxId = 0; for (let id of cellIdMap) if (id > maxId) maxId = id;
     cellCount = maxId + 1;] when the map is not empty, and 0 otherwise. *)
Definition cell_count_estimate (cellIdMap : list Z) : Z :=
  if 0 <? len cellIdMap
  then foldl (fun maxId id => if maxId <? id then id else maxId) 0 cellIdMap + 1
  else 0.

(** [data[k]] on an array of numbers; [None] is [undefined]. *)
Definition num_get (data : list num) (k : Z) : option num :=
  if k <? 0 then None else data !! Z.to_nat k.

(** The value that colours triangle [t] of a cell field:
    [const cellIndex = cellIdMap[t]; let val = min;
     if (cellIndex !== undefined && cellIndex < data.length)
       val = data[cellIndex];] *)
Definition triangle_value (field : ScalarField) (cellIdMap : list Z) (t : Z)
  : option num :=
  match int_get cellIdMap t with
  | JNum cellIndex =>
      if cellIndex <? len (data field) then num_get (data field) cellIndex
      else Some (min field)
  | JUndefined => Some (min field)
  end.

(** [est] exceeds every entry of the map, is the successor of one of
    them unless the map is empty, and does not exceed [n]. *)
Definition counts_up_to_last (cellIdMap : list Z) (n est : Z) : Prop :=
  Forall (fun id => id < est) cellIdMap
  ∧ est ≤ Z.max 0 n
  ∧ ((cellIdMap = [] ∧ est = 0) ∨ est - 1 ∈ cellIdMap).

(** The value of triangle [t] in a walk: the field's value for the cell
    that produced the triangle when the field has one, the field's
    minimum otherwise. *)
Definition value_of_producer (field : ScalarField) (w : walk) (t : nat) : option num :=
  match producer (cell_count <$> calls w) 0 t with
  | Some c => if Z.of_nat c <? len (data field) then data field !! c
              else Some (min field)
  | None => Some (min field)
  end.


(** ** Notions of the legacy pass over the lines *)

Definition not_nan (v : num) : Prop := isNaN v = false.

(** The point buffer is a run of stored numbers followed by holes, the
    counter is the length of the run, and the buffer has three slots per
    announced point. *)
Definition points_filled (st : lines_state) : Prop :=
  ∃ (stored : list num) (holes : nat) (k : Z),
    points st = (Some <$> stored) ++ replicate holes None
    ∧ pointCount st = len stored
    ∧ Forall not_nan stored
    ∧ numPoints st = Some k
    ∧ len (points st) = k * 3.

(** A field without NaN whose minimum and maximum are its least and
    greatest value, or [Infinity] and [-Infinity] when it has none. *)
Definition field_bounds (f : ScalarField) : Prop :=
  Forall not_nan (data f)
  ∧ ((data f = [] ∧ min f = PosInf ∧ max f = NegInf)
     ∨ (min f ∈ data f ∧ max f ∈ data f
        ∧ ∀ x, x ∈ data f → num_le (min f) x ∧ num_le x (max f))).

(** The fields emitted so far have such bounds, and the field being read
    holds no NaN. *)
Definition fields_bounded (st : lines_state) : Prop :=
  Forall field_bounds (pointDataFields st)
  ∧ Forall field_bounds (cellDataFields st)
  ∧ ∀ sc, currentScalar st = Some sc → Forall not_nan (scalar_data sc).

(** What the pass has gathered in [st] is still there, in front, in [st']. *)
Definition gathered_kept (st st' : lines_state) : Prop :=
  cellDataRaw st `prefix_of` cellDataRaw st'
  ∧ cellTypes st `prefix_of` cellTypes st'
  ∧ pointDataFields st `prefix_of` pointDataFields st'
  ∧ cellDataFields st `prefix_of` cellDataFields st'.


(** ** A legacy file, line by line *)

(** An integer as a number. *)
Definition of_int (z : Z) : num := Fin (inject_Z z).

(** The coordinates of points, in file order. *)
Definition coords (pts : list (num * num * num)) : list num :=
  flat_map (fun '(x, y, z) => [x; y; z]) pts.

Definition point_lines (pts : list (num * num * num)) : list line :=
  (fun '(x, y, z) => Other [x; y; z]) <$> pts.

Definition cell_lines (cells : list (Z * list Z)) : list line :=
  (fun c : Z * list Z => Other (of_int <$> (len c.2 :: c.2))) <$> cells.

Definition type_lines (cells : list (Z * list Z)) : list line :=
  (fun c : Z * list Z => Other [of_int c.1]) <$> cells.

(** The lines of an [UNSTRUCTURED_GRID] file laid out as VTK writes it:
    one line per point, one line per cell with its arity and its ids, and
    one line per cell type. *)
Definition grid_file (pts : list (num * num * num)) (cells : list (Z * list Z))
  : list line :=
  [Blank; Dataset (Some "unstructured_grid"); KwPoints (Some (len pts))]
    ++ point_lines pts
    ++ [KwCells (Some (len cells))] ++ cell_lines cells
    ++ [KwCellTypes] ++ type_lines cells.

(** The cell-ID map that numbers the triangles of [cells] cell by cell. *)
Definition cell_ids (cells : list (Z * list jsval)) : list Z :=
  concat (imap (fun i c => replicate (cell_count c) (Z.of_nat i)) cells).

(** The geometry of a grid: all coordinates, the triangles of the cells
    in order, the number of its cell for each triangle, and no field. *)
Definition grid_geometry (pts : list (num * num * num)) (cells : list (Z * list Z))
    (g : geometry (list (option num))) : Prop :=
  position g = Some <$> coords pts
  ∧ index_buffer g = flat_map cell_triangles (cell_calls cells)
  ∧ userData g = MkVTKData [] [] (cell_ids (cell_calls cells)).


(** ** Notions of the XML loader's arrays and fields *)

(** [da.getAttribute('Name') || 'Unknown'] *)
Definition field_name (da : element) : option string :=
  Some match Name da with
       | Some n => if decide (n = "") then "Unknown" else n
       | None => "Unknown"
       end.

(** A field as the XML loader emits it: with a value, with the extrema
    of its values, and under a name that is not empty. *)
Definition xml_field (f : ScalarField) : Prop :=
  data f ≠ []
  ∧ (min f, max f) = extrema (data f)
  ∧ name f ≠ None ∧ name f ≠ Some "".

Section array_notions.
Variable atob : string -> option (list byte).
Variable createTypedArray : option string -> list byte -> typedArray.
Variable parseAscii : option string -> string -> typedArray.

(** The array [da] adds no field: it has several components, or it
    yields [null], or it yields an array without elements. *)
Definition adds_no_field (headerSize : Z) (appendedMap : appendedDataMap)
    (da : element) : Prop :=
  NumberOfComponents da ≠ Some 1
  ∨ parseDataArray atob createTypedArray parseAscii da appendedMap headerSize
    = Returned None
  ∨ ∃ arr, parseDataArray atob createTypedArray parseAscii da appendedMap headerSize
           = Returned (Some arr)
           ∧ array_from arr = [].

(** The three cell arrays give the walk nothing to do: the cell count is
    NaN, or one of the arrays yields [null], or the cell count is not
    positive (0 is what a missing [NumberOfCells] gives) and the arrays
    hold whole numbers, as the arrays of a [Cells] element do. *)
Definition no_cells (headerSize : Z) (appendedMap : appendedDataMap)
    (numberOfCells : count) (c o t : element) : Prop :=
  numberOfCells = None
  ∨ parseDataArray atob createTypedArray parseAscii c appendedMap headerSize
    = Returned None
  ∨ parseDataArray atob createTypedArray parseAscii o appendedMap headerSize
    = Returned None
  ∨ parseDataArray atob createTypedArray parseAscii t appendedMap headerSize
    = Returned None
  ∨ ∃ n, numberOfCells = Some n ∧ n ≤ 0
         ∧ Forall (fun el => ∀ a,
                     parseDataArray atob createTypedArray parseAscii el
                                    appendedMap headerSize
                     = Returned (Some a) →
                     is_Some (integers a))
                  [c; o; t].

(** The appended array [el] starts before the buffer while its header
    would end inside it. *)
Definition header_before_buffer (headerSize : Z) (appendedMap : appendedDataMap)
    (el : element) : Prop :=
  format el = Some "appended"
  ∧ ∃ off buf, offset el = Some off ∧ buffer appendedMap = Some buf
      ∧ resolved_start appendedMap off < 0
      ∧ resolved_start appendedMap off + headerSize ≤ len buf.
End array_notions.

(** Every [DataArray] that [parse] reads in a piece. *)
Definition arrays_of (p : piece) : list element :=
  option_list (pointsElement p)
    ++ match cellsElement p with
       | Some cells =>
           option_list (connectivityEl cells) ++ option_list (offsetsEl cells)
             ++ option_list (typesEl cells)
       | None => []
       end
    ++ default [] (pointDataEl p) ++ default [] (cellDataEl p).

(** A piece whose point array is given inline and whose three cell
    arrays lack their text. *)
Definition sample_points : element :=
  MkElement None (Some "Float32") None "0 0 0" None (Some 3).
Definition empty_array (n : string) : element :=
  MkElement None (Some "Int32") None "" (Some n) (Some 1).
Definition piece_without_cells : piece :=
  MkPiece (Some 2) (Some sample_points)
          (Some (MkCells (Some (empty_array "connectivity"))
                         (Some (empty_array "offsets"))
                         (Some (empty_array "types"))))
          None None.


(** ** The typed arrays of the XML loader ([createTypedArray])

    A typed array over an [ArrayBuffer] reads its elements in the byte
    order of the platform, which is little-endian wherever the loader
    runs; the constructors throw a RangeError when the byte length of the
    buffer is no multiple of the element size, which [createTypedArray]
    catches. *)

(** The groups of four and of eight bytes of a buffer. *)
Fixpoint words (bs : list byte) : list (list byte) :=
  match bs with
  | b0 :: b1 :: b2 :: b3 :: rest => [b0; b1; b2; b3] :: words rest
  | _ => []
  end.

Fixpoint doubles (bs : list byte) : list (list byte) :=
  match bs with
  | b0 :: b1 :: b2 :: b3 :: b4 :: b5 :: b6 :: b7 :: rest =>
      [b0; b1; b2; b3; b4; b5; b6; b7] :: doubles rest
  | _ => []
  end.

(** [ToInt32]: the integer modulo 2^32, in [-2^31 .. 2^31 - 1]. *)
Definition to_int32 (v : Z) : Z := (v + 2 ^ 31) mod 2 ^ 32 - 2 ^ 31.

(** The element of a [BigInt64Array]: two's complement on 64 bits. *)
Definition int64 (bs : list byte) : Z :=
  let u := little_endian bs in
  if u <? 2 ^ 63 then u else u - 2 ^ 64.

(** [Number(x)] for a BigInt: the nearest double, ties to the even
    significand.  Integers below 2^53 in absolute value are kept. *)
Definition number_of_bigint (x : Z) : Z :=
  let a := Z.abs x in
  if a <? 2 ^ 53 then x
  else
    let e := Z.log2 a - 52 in
    let q := a / 2 ^ e in
    let r := a mod 2 ^ e in
    let half := 2 ^ (e - 1) in
    let q' := if (half <? r) || ((r =? half) && Z.odd q) then q + 1 else q in
    Z.sgn x * (q' * 2 ^ e).

(** [new Float32Array(buffer.byteLength / 4)], the array of the [catch]
    branch: the length is the integer part of the quotient, and every
    element is 0. *)
Definition zeros (buffer : list byte) : typedArray :=
  Float32Array (replicate (Z.to_nat (len buffer / 4)) (Fin 0)).

Section typed_arrays.

(** The number held by the four bytes of a single, and the number held
    by the eight bytes of a double once rounded to single precision. *)
Variable float32 : list byte -> num.
Variable float64 : list byte -> num.

Definition createTypedArray (type : option string) (buffer : list byte) : typedArray :=
  if decide (type = Some "Float32") then
    if len buffer mod 4 =? 0 then Float32Array (float32 <$> words buffer)
    else zeros buffer
  else if decide (type = Some "Float64") then
    if len buffer mod 8 =? 0 then Float32Array (float64 <$> doubles buffer)
    else zeros buffer
  else if decide (type = Some "Int32") then
    if len buffer mod 4 =? 0
    then Int32Array ((fun w => to_int32 (little_endian w)) <$> words buffer)
    else zeros buffer
  else if decide (type = Some "Int64") then
    if len buffer mod 8 =? 0
    then Int32Array ((fun d => to_int32 (number_of_bigint (int64 d))) <$> doubles buffer)
    else zeros buffer
  else if decide (type = Some "UInt8") then Uint8Array (byte_value <$> buffer)
  else if decide (type = Some "UInt32") then
    if len buffer mod 4 =? 0
    then Int32Array ((fun w => to_int32 (little_endian w)) <$> words buffer)
    else zeros buffer
  else
    if len buffer mod 4 =? 0 then Float32Array (float32 <$> words buffer)
    else zeros buffer.

End typed_arrays.

(** The size in bytes of an element of the array that [type] asks for. *)
Definition element_size (type : option string) : Z :=
  if decide (type = Some "Float64") then 8
  else if decide (type = Some "Int64") then 8
  else if decide (type = Some "UInt8") then 1
  else 4.

(** *** Writing arrays *)

(** The byte of a number of [0 .. 255]. *)
Definition byte_of (z : Z) : byte := default x00 (Byte.of_N (Z.to_N z)).

(** The [n] little-endian bytes of [v] modulo [256^n]. *)
Fixpoint le_bytes (n : nat) (v : Z) : list byte :=
  match n with
  | O => []
  | S n' => byte_of (v mod 256) :: le_bytes n' (v / 256)
  end.

(** Integers written on [size] bytes each, in two's complement. *)
Definition int_bytes (size : nat) (zs : list Z) : list byte :=
  flat_map (le_bytes size) zs.

(** A block of the appended data: the byte size on [headerSize] bytes,
    then the payload. *)
Definition block (headerSize : Z) (payload : list byte) : list byte :=
  le_bytes (Z.to_nat headerSize) (len payload) ++ payload.

Definition int32_range (z : Z) : Prop := - 2 ^ 31 ≤ z < 2 ^ 31.


(** *** A piece with appended arrays *)

Definition appended_array (n type : string) (components off : Z) : element :=
  MkElement (Some "appended") (Some type) (Some off) "" (Some n) (Some components).

(** The appended data of a grid as VTK writes it: the coordinates, the
    connectivity and the offsets on 64 bits, and the types on one byte
    each, every array behind its header. *)
Definition vtu_appended (headerSize : Z) (coordinates : list byte)
    (cells : list (Z * list Z)) : list byte :=
  block headerSize coordinates
    ++ block headerSize (int_bytes 8 (cell_connectivity cells))
    ++ block headerSize (int_bytes 8 (cell_offsets 0 cells))
    ++ block headerSize (byte_of <$> cell_types cells).

(** The [Piece] element that goes with it. *)
Definition vtu_piece (headerSize : Z) (coordinates : list byte)
    (cells : list (Z * list Z)) : piece :=
  let o1 := len (block headerSize coordinates) in
  let o2 := o1 + len (block headerSize (int_bytes 8 (cell_connectivity cells))) in
  let o3 := o2 + len (block headerSize (int_bytes 8 (cell_offsets 0 cells))) in
  MkPiece (Some (len cells))
          (Some (appended_array "Points" "Float32" 3 0))
          (Some (MkCells (Some (appended_array "connectivity" "Int64" 1 o1))
                         (Some (appended_array "offsets" "Int64" 1 o2))
                         (Some (appended_array "types" "UInt8" 1 o3))))
          None None.

(** The geometry of such a piece: the decoded coordinates, the triangles
    of the cells in order, the number of its cell for each triangle, and
    no field. *)
Definition vtu_geometry (points : typedArray) (cells : list (Z * list Z))
    (g : geometry typedArray) : Prop :=
  position g = points
  ∧ index_buffer g = flat_map cell_triangles (cell_calls cells)
  ∧ userData g = MkVTKData [] [] (cell_ids (cell_calls cells)).

(** The cells can be written in this way. *)
Definition writable_cells (cells : list (Z * list Z)) : Prop :=
  Forall int32_range (cell_connectivity cells)
  ∧ Forall (fun t => 0 ≤ t < 256) (cell_types cells)
  ∧ 8 * len (cell_connectivity cells) < 2 ^ 32
  ∧ 8 * len cells < 2 ^ 32.

(** A triangle and a quadrilateral, and the twelve bytes of one point. *)
Definition sample_cells : list (Z * list Z) := [(5, [0; 1; 2]); (9, [0; 1; 2; 3])].
Definition sample_coordinates : list byte :=
  [x00; x00; x00; x00; x00; x00; x80; x3f; x00; x00; x00; x40].
Definition sample_block : appendedDataMap :=
  MkAppended (Some (vtu_appended 4 sample_coordinates sample_cells)) 0 "base64".


(** ** The XML loader for inline arrays only

    The other version of [VTULoader] in the repository has no appended
    data: [parseDataArray] takes the element alone, tests the text first,
    and always skips a header of four bytes; [createTypedArray] knows
    five cases. *)
Module Inline.
Section loader.
Variable atob : string -> option (list byte).
Variable float32 : list byte -> num.
Variable float64 : list byte -> num.
Variable parseAscii : option string -> string -> typedArray.

Definition createTypedArray (type : option string) (buffer : list byte) (offset : Z)
  : typedArray :=
  let slice := drop (Z.to_nat offset) buffer in
  if decide (type = Some "Float32") then
    if len slice mod 4 =? 0 then Float32Array (float32 <$> words slice)
    else zeros slice
  else if decide (type = Some "Float64") then
    if len slice mod 8 =? 0 then Float32Array (float64 <$> doubles slice)
    else zeros slice
  else if decide (type = Some "Int32") then
    if len slice mod 4 =? 0
    then Int32Array ((fun w => to_int32 (little_endian w)) <$> words slice)
    else zeros slice
  else if decide (type = Some "UInt8") then Uint8Array (byte_value <$> slice)
  else
    if len slice mod 4 =? 0 then Float32Array (float32 <$> words slice)
    else zeros slice.

(** [null] is [None]; this version never throws. *)
Definition parseDataArray (element : element) : option typedArray :=
  if decide (text element = "") then None
  else if decide (format element = Some "binary") then
    match atob (text element) with
    | Some bytes =>
        let headerSize := 4 in
        if len bytes <=? headerSize then None
        else Some (createTypedArray (type element) bytes headerSize)
    | None => None
    end
  else Some (parseAscii (type element) (text element)).

End loader.
End Inline.

(** [atob] on the empty text, for the examples. *)
Definition atob_of_empty (text : string) : option (list byte) :=
  if decide (text = "") then Some [] else None.


(** ** The legacy loader without guards

    The other version of [VTKUnstructuredLoader] in the repository walks
    the cells without the three guards: the loop runs to [numCells], the
    arity is read wherever the position is, and every id is pushed,
    [undefined] included.  A type or an arity that is [undefined] gives
    no triangle and no id. *)
Module Unguarded.

(** [for (let j = 0; j < nPts; j++)
       cellIndices.push(cellDataRaw[cellDataIndex++]);] *)
Definition legacy_slice (cellDataRaw : list Z) (nPts : jsval) (cellDataIndex : Z)
  : list jsval * Z :=
  match nPts with
  | JNum n =>
      for_lt 0 n
        (fun _ '(cellIndices, cellDataIndex) =>
           (cellIndices ++ [int_get cellDataRaw cellDataIndex], cellDataIndex + 1))
        ([], cellDataIndex)
  | JUndefined => ([], cellDataIndex)
  end.

(** [triangulateCell(type, cellIndices, indices)] for a type that may be
    [undefined], which no [case] of the [switch] matches. *)
Definition triangulate (type : jsval) (cellIndices indices : list jsval)
  : list jsval * Z :=
  match type with
  | JNum t => call_triangulateCell t cellIndices indices
  | JUndefined => (indices, 0)
  end.

(** One turn of the loop over cells; the state is [cellDataIndex],
    [indices] and [cellIdMap]. *)
Definition legacy_cell (cellDataRaw cellTypes : list Z) (i : Z)
    (st : Z * (list jsval * list Z)) : Z * (list jsval * list Z) :=
  let '(cellDataIndex, (indices, cellIdMap)) := st in
  let type := int_get cellTypes i in
  let nPts := int_get cellDataRaw cellDataIndex in
  let '(cellIndices, cellDataIndex') :=
    legacy_slice cellDataRaw nPts (cellDataIndex + 1) in
  let '(indices', trianglesAdded) := triangulate type cellIndices indices in
  (cellDataIndex',
   (indices', for_lt 0 trianglesAdded (fun _ m => m ++ [i]) cellIdMap)).

(** The index buffer and the cell-ID map of the geometry. *)
Definition legacy_walk (cellDataRaw cellTypes : list Z) (numCells : Z)
  : list jsval * list Z :=
  snd (for_lt 0 numCells (legacy_cell cellDataRaw cellTypes) (0, ([], []))).

End Unguarded.

(** The index buffer and the cell-ID map of the guarded walk. *)
Definition guarded_walk (cellDataRaw cellTypes : list Z) (numCells : Z)
  : list jsval * list Z :=
  (indices (lwalk (legacy_walk cellDataRaw cellTypes numCells)),
   cellIdMap (lwalk (legacy_walk cellDataRaw cellTypes numCells))).


(** ** Raw appended data: the search for the marker

    With [encoding="raw"] the loader decodes the file one byte to one
    character and searches the text for [<AppendedData], then for the
    first underscore from there on; the searches are modelled on the
    bytes. *)

(** [text.startsWith(pat)] *)
Fixpoint starts_with (pat text : list byte) : bool :=
  match pat, text with
  | [], _ => true
  | p :: pat', t :: text' => Byte.eqb p t && starts_with pat' text'
  | _ :: _, [] => false
  end.

(** The first position at which [pat] occurs in [text], counted from [i]
    for the start of [text]. *)
Fixpoint find_at (pat text : list byte) (i : Z) {struct text} : option Z :=
  if starts_with pat text then Some i
  else match text with
       | [] => None
       | _ :: rest => find_at pat rest (i + 1)
       end.

(** [text.indexOf(pat, from)] for [0 <= from]; [None] is -1. *)
Definition indexOf (pat text : list byte) (from : Z) : option Z :=
  find_at pat (drop (Z.to_nat from) text) from.

(** The bytes of [<AppendedData]. *)
Definition tag_bytes : list byte :=
  [x3c; x41; x70; x70; x65; x6e; x64; x65; x64; x44; x61; x74; x61].

(** The appended-data map of a file whose [AppendedData] element has
    [encoding="raw"], when [parse] is given the bytes of the file:
    [buffer] is the file.  (Given a string, [parse] has no bytes and
    leaves the map without buffer.) *)
Definition raw_appended (buffer : list byte) : appendedDataMap :=
  match indexOf tag_bytes buffer 0 with
  | Some tagIndex =>
      match indexOf [x5f] buffer tagIndex with
      | Some markerIndex => MkAppended (Some buffer) (markerIndex + 1) "raw"
      | None => MkAppended None 0 "raw"
      end
  | None => MkAppended None 0 "raw"
  end.

(** [pat] occurs at none of the positions of [head] in [head ++ rest]. *)
Definition absent (pat head rest : list byte) : Prop :=
  ∀ j : nat, (j < length head)%nat → starts_with pat (drop j (head ++ rest)) = false.

(** A file: what comes before the tag, the tag, the rest of the tag up
    to the marker, the marker, and the data. *)
Definition raw_prefix (head attrs : list byte) : list byte :=
  head ++ tag_bytes ++ attrs ++ [x5f].

Definition raw_file (head attrs data : list byte) : list byte :=
  raw_prefix head attrs ++ data.


(** *** A poly-data file *)

Definition polygon_lines (polygons : list (list Z)) : list line :=
  (fun c : list Z => Other (of_int <$> (len c :: c))) <$> polygons.

(** The lines of a [POLYDATA] file with a [POLYGONS] section: one line
    per point and one line per polygon with its arity and its ids. *)
Definition polydata_file (pts : list (num * num * num)) (polygons : list (list Z))
  : list line :=
  [Blank; Dataset (Some "polydata"); KwPoints (Some (len pts))]
    ++ point_lines pts
    ++ [KwPolygons] ++ polygon_lines polygons.

(** Every polygon as a cell of type 7. *)
Definition as_polygons (polygons : list (list Z)) : list (Z * list Z) :=
  (fun c : list Z => (7, c)) <$> polygons.


(** ** The legacy walk with its counter as a number

    The loops of this development count in integers.  In the source the
    counter of [for (let j = 0; j < nPts; j++)] is a number, a double:
    every integer up to 2^53 is one, and [2^53 + 1] rounds back to
    [2^53], so that [j++] leaves the counter at [2^53].  For an arity
    prefix above [2^53] the source's loop therefore has no last turn.
    Here the walk is written once more with that counter and with fuel
    for the loop; [None] is a loop that has not ended within the fuel.
    The loop over the cells is bounded by [cellTypes.length] and is left
    as it is. *)
Module Counted.

(** [j++] on a number that holds an integer. *)
Definition incr (j : Z) : Z := number_of_bigint (j + 1).

(** [for (let j = lo; j < hi; j++) body], for a body that does not look
    at [j]. *)
Fixpoint count_up {St : Type} (fuel : nat) (j hi : Z) (body : St -> St) (s : St)
  : option St :=
  match fuel with
  | O => None
  | S fuel' =>
      if j <? hi then count_up fuel' (incr j) hi body (body s) else Some s
  end.

Definition legacy_slice (fuel : nat) (cellDataRaw : list Z) (nPts : Z)
    (st : legacy_state) : option (list jsval * legacy_state) :=
  count_up fuel 0 nPts
    (fun '(cellIndices, st) =>
       if cellDataIndex st <? len cellDataRaw then
         let '(v, st') := next_raw cellDataRaw st in (cellIndices ++ [JNum v], st')
       else (cellIndices, st))
    ([], st).

Definition legacy_cell (fuel : nat) (cellDataRaw cellTypes : list Z) (i : Z)
    (st : legacy_state) : option (flow legacy_state) :=
  let type := int_at cellTypes i in
  if len cellDataRaw <=? cellDataIndex st then Some (Break st)
  else
    let '(nPts, st1) := next_raw cellDataRaw st in
    match legacy_slice fuel cellDataRaw nPts st1 with
    | Some (cellIndices, st2) =>
        Some (Continue (MkLegacy (cellDataIndex st2)
                                 (emit i type cellIndices (lwalk st2))
                                 (raw_reads st2)))
    | None => None
    end.

Fixpoint iterate_cells (n : nat) (i : Z)
    (body : Z -> legacy_state -> option (flow legacy_state)) (s : legacy_state)
  : option legacy_state :=
  match n with
  | O => Some s
  | S n' => match body i s with
            | Some (Continue s') => iterate_cells n' (i + 1) body s'
            | Some (Break s') => Some s'
            | None => None
            end
  end.

Definition legacy_walk (fuel : nat) (cellDataRaw cellTypes : list Z) (numCells : Z)
  : option legacy_state :=
  let safeNumCells := Z.min numCells (len cellTypes) in
  iterate_cells (Z.to_nat (safeNumCells - 0)) 0
                (legacy_cell fuel cellDataRaw cellTypes)
                (MkLegacy 0 empty_walk []).

End Counted.

(** The numbers of a cell buffer that the counter can reach within the
    fuel: none is above 2^53, and each is below the fuel. *)
Definition countable (fuel : nat) (v : Z) : Prop :=
  v ≤ 2 ^ 53 ∧ v < Z.of_nat fuel.

(** The cell section [CELLS 1 4 / 1e16 0 1 2] with [CELL_TYPES 1 / 5]: a
    triangle whose arity prefix is 10^16. *)
Definition huge_arity : list Z := [10000000000000000; 0; 1; 2].

(** * Properties *)

(** ** The engine *)

Section engine_facts.
Import Engine.
Local Open Scope engine_scope.

Variables (c o : loc) (ci : list jsval).
Hypothesis c_not_o : c ≠ o.

Local Abbreviation appends := (appends c o ci).

Lemma appends_ret : appends (ret tt) [].
Proof.
  intros s out _ Ho. unfold ret. rewrite app_nil_r, insert_id; done.
Qed.

Lemma appends_seq m1 m2 ts1 ts2 :
  appends m1 ts1 → appends m2 ts2 → appends (m1 ;; m2) (ts1 ++ ts2).
Proof using c_not_o.
  intros H1 H2 s out Hc Ho. unfold bind. rewrite (H1 s out Hc Ho).
  rewrite (H2 _ (out ++ ts1)).
  - by rewrite insert_insert_eq, app_assoc.
  - by rewrite lookup_insert_ne.
  - by rewrite lookup_insert_eq.
Qed.

Lemma appends_push3 p q r :
  appends (push3 c o p q r) [js_get ci p; js_get ci q; js_get ci r].
Proof.
  intros s out Hc Ho. unfold push3, bind, read, push, arr.
  by rewrite Hc, Ho.
Qed.

Lemma appends_if_length_ge m body ts :
  (m ≤ len ci → appends body ts) →
  appends (if_length_ge c m body) (if m <=? len ci then ts else []).
Proof.
  intros Hb s out Hc Ho. unfold if_length_ge, bind, length_of, arr.
  rewrite Hc. simpl. destruct (m <=? len ci) eqn:Hm.
  - apply Z.leb_le in Hm. by apply Hb.
  - by apply appends_ret.
Qed.

Lemma appends_polygon_loop fuel k :
  (Z.to_nat (len ci - 1 - k) < fuel)%nat →
  appends (polygon_loop fuel c o k)
          (select ci ((fun k => (0, k, k + 1)) <$> seqZ k (len ci - 1 - k))).
Proof using c_not_o.
  revert k. induction fuel as [|fuel IH]; intros k Hfuel; [lia|].
  intros s out Hc Ho. simpl. unfold bind at 1. unfold length_of at 1, arr.
  rewrite Hc. simpl. destruct (k <? len ci - 1) eqn:Hk.
  - apply Z.ltb_lt in Hk.
    replace (len ci - 1 - k) with (Z.succ (len ci - 1 - (k + 1))) by lia.
    rewrite seqZ_cons by lia.
    replace (Z.pred (Z.succ (len ci - 1 - (k + 1)))) with (len ci - 1 - (k + 1)) by lia.
    replace (Z.succ k) with (k + 1) by lia.
    rewrite fmap_cons. unfold select. simpl flat_map.
    refine (appends_seq _ _ [_; _; _] _ (appends_push3 _ _ _) _ s out Hc Ho).
    apply IH. lia.
  - apply Z.ltb_ge in Hk. rewrite seqZ_nil by lia. by apply appends_ret.
Qed.

Lemma appends_quad_faces fs :
  appends (quad_faces (face_list <$> fs) c o) (select ci (flat_map split_quad fs)).
Proof using c_not_o.
  induction fs as [|[[[p q] r] t] fs IH]; [apply appends_ret|].
  intros s out Hc Ho. rewrite fmap_cons. simpl quad_faces.
  unfold bind at 1. unfold map_read, arr. rewrite Hc. simpl default.
  change (select ci (flat_map split_quad ((p, q, r, t) :: fs)))
    with ([js_get ci p; js_get ci q; js_get ci r]
            ++ [js_get ci p; js_get ci r; js_get ci t]
            ++ select ci (flat_map split_quad fs)).
  refine (appends_seq _ _ _ _ _ (appends_seq _ _ _ _ _ IH) s out Hc Ho).
  - intros s' out' _ Ho'. unfold push, arr. by rewrite Ho'.
  - intros s' out' _ Ho'. unfold push, arr. by rewrite Ho'.
Qed.

Lemma appends_switch_type fuel type :
  (length ci ≤ fuel)%nat →
  appends (switch_type fuel type c o) (triangles_of type ci).
Proof using c_not_o.
  intros Hfuel. unfold switch_type, triangles_of, min_arity, rule.
  repeat (destruct (type =? _); [apply appends_if_length_ge; intros Hn|]).
  - apply appends_push3.
  - replace (len ci - 2) with (len ci - 1 - 1) by lia.
    apply appends_polygon_loop. unfold len in *. lia.
  - apply (appends_seq _ _ [_; _; _] [_; _; _]); apply appends_push3.
  - repeat apply (appends_seq _ _ [_; _; _]); apply appends_push3.
  - apply (appends_quad_faces [(0, 1, 5, 4); (1, 2, 6, 5); (2, 3, 7, 6);
                                  (3, 0, 4, 7); (0, 3, 2, 1); (4, 5, 6, 7)]).
  - apply (appends_seq _ _ [_; _; _]); [apply appends_push3|].
    apply (appends_seq _ _ [_; _; _]); [apply appends_push3|].
    apply (appends_quad_faces [(0, 1, 4, 3); (1, 2, 5, 4); (2, 0, 3, 5)]).
  - repeat apply (appends_seq _ _ [_; _; _]); apply appends_push3.
  - apply appends_ret.
Qed.

(** The whole call, for distinct arrays: the table's triangles are
    appended and their number is returned. *)
Lemma triangulateCell_run fuel type (s : store) out :
  (length ci ≤ fuel)%nat → s !! c = Some ci → s !! o = Some out →
  triangulateCell fuel type c o s
  = Some (len (triangles_of type ci) / 3, <[o := out ++ triangles_of type ci]> s).
Proof using c_not_o.
  intros Hfuel Hc Ho. unfold triangulateCell, bind.
  unfold length_of at 1, arr at 1. rewrite Ho. simpl default.
  rewrite (appends_switch_type fuel type Hfuel s out Hc Ho).
  unfold length_of, arr, ret. rewrite lookup_insert_eq. simpl default.
  do 3 f_equal. unfold len. rewrite length_app. lia.
Qed.
End engine_facts.

Lemma call_triangulateCell_eq type cellIndices indices :
  call_triangulateCell type cellIndices indices
  = (indices ++ triangles_of type cellIndices,
     len (triangles_of type cellIndices) / 3).
Proof.
  unfold call_triangulateCell.
  rewrite (triangulateCell_run 0%nat 1%nat cellIndices) with (out := indices);
    [|done|done| |]; unfold two_arrays.
  - unfold Engine.arr. by rewrite lookup_insert_eq.
  - by rewrite lookup_insert_ne.
  - by rewrite lookup_insert_eq.
Qed.


(** ** Loops *)

Lemma iterate_from_invariant {St : Type} (P : Z → St → Prop) body n i (s : St) :
  P i s →
  (∀ j s, i ≤ j < i + Z.of_nat n → P j s → P (j + 1) (body j s)) →
  P (i + Z.of_nat n) (iterate_from n i body s).
Proof.
  revert i s. induction n as [|n IH]; intros i s Hs Hstep; simpl iterate_from.
  - by replace (i + Z.of_nat 0) with i by lia.
  - replace (i + Z.of_nat (S n)) with ((i + 1) + Z.of_nat n) by lia.
    apply IH.
    + apply Hstep; [lia|done].
    + intros j s' Hj. apply Hstep. lia.
Qed.

Lemma for_lt_invariant {St : Type} (P : Z → St → Prop) body lo hi (s : St) :
  lo ≤ hi →
  P lo s →
  (∀ j s, lo ≤ j < hi → P j s → P (j + 1) (body j s)) →
  P hi (for_lt lo hi body s).
Proof.
  intros Hle Hs Hstep. unfold for_lt.
  replace hi with (lo + Z.of_nat (Z.to_nat (hi - lo))) at 1 by lia.
  apply iterate_from_invariant; [done|].
  intros j s' Hj. apply Hstep. lia.
Qed.

Lemma for_lt_empty {St : Type} body lo hi (s : St) :
  hi ≤ lo → for_lt lo hi body s = s.
Proof. intros H. unfold for_lt. by replace (Z.to_nat (hi - lo)) with 0%nat by lia. Qed.

Lemma iterate_break_invariant {St : Type} (P : Z → St → Prop) (Q : St → Prop) body n i (s : St) :
  P i s →
  (∀ j s, i ≤ j < i + Z.of_nat n → P j s →
          match body j s with
          | Continue s' => P (j + 1) s'
          | Break s' => Q s'
          end) →
  (∀ s, P (i + Z.of_nat n) s → Q s) →
  Q (iterate_break n i body s).
Proof.
  revert i s. induction n as [|n IH]; intros i s Hs Hstep Hend; simpl iterate_break.
  - apply Hend. by replace (i + Z.of_nat 0) with i by lia.
  - pose proof (Hstep i s ltac:(lia) Hs) as Hb.
    destruct (body i s) as [s'|s']; [|done].
    apply IH; [done| |].
    + intros j s'' Hj. apply Hstep. lia.
    + intros s'' Hs''. apply Hend. by replace (i + Z.of_nat (S n)) with (i + 1 + Z.of_nat n) by lia.
Qed.

Lemma for_lt_push {A : Type} (x : A) n (m : list A) :
  for_lt 0 n (fun _ m => m ++ [x]) m = m ++ replicate (Z.to_nat n) x.
Proof.
  unfold for_lt. rewrite Z.sub_0_r. generalize 0 as i. revert m.
  induction (Z.to_nat n) as [|k IH]; intros m i; simpl.
  - by rewrite app_nil_r.
  - rewrite IH. by rewrite <- app_assoc.
Qed.

(** ** Cell walks *)

Lemma length_select ci ts : length (select ci ts) = (3 * length ts)%nat.
Proof.
  unfold select. induction ts as [|[[a b] d] ts IH]; simpl; [done|]. rewrite IH. lia.
Qed.

Lemma length_triangles_of type ci :
  ∃ k, length (triangles_of type ci) = (3 * k)%nat.
Proof.
  unfold triangles_of. destruct (min_arity type) as [m|]; [|by exists 0%nat].
  destruct (m <=? len ci); [|by exists 0%nat].
  eexists. apply length_select.
Qed.

Lemma emit_eq i type ci w :
  emit i type ci w
  = MkWalk (indices w ++ triangles_of type ci)
           (cellIdMap w ++ replicate (cell_count (type, ci)) i)
           (calls w ++ [(type, ci)]).
Proof.
  unfold emit. rewrite call_triangulateCell_eq, for_lt_push. do 3 f_equal.
  unfold cell_count, cell_triangles, len. simpl.
  rewrite <- (Nat2Z.inj_div _ 3). apply Nat2Z.id.
Qed.

Lemma numbered_empty : numbered empty_walk.
Proof. by split. Qed.

Lemma numbered_emit i type ci w :
  numbered w → i = len (calls w) → numbered (emit i type ci w).
Proof.
  intros [Hi Hm] ->. rewrite emit_eq. split; simpl.
  - rewrite flat_map_app, Hi. simpl. by rewrite app_nil_r.
  - rewrite imap_app, concat_app, Hm. simpl. rewrite app_nil_r.
    by rewrite Nat.add_0_r.
Qed.

Lemma imap_shift {A B : Type} (f : nat → A → B) k (l : list A) :
  imap (fun i x => f (k + S i)%nat x) l = imap (fun i x => f (S k + i)%nat x) l.
Proof. apply imap_ext. intros i x _. simpl. by rewrite Nat.add_succ_r. Qed.

Lemma numbered_lengths cs k :
  length (concat (imap (fun i c => replicate (cell_count c) (Z.of_nat (k + i))) cs))
  = (length (flat_map cell_triangles cs) / 3)%nat
  ∧ (length (flat_map cell_triangles cs) mod 3 = 0)%nat.
Proof.
  revert k. induction cs as [|c cs IH]; intros k; [done|].
  cbn [imap concat flat_map]. unfold compose.
  rewrite (imap_shift (fun j c => replicate (cell_count c) (Z.of_nat j))).
  rewrite !length_app, length_replicate.
  destruct (length_triangles_of c.1 c.2) as [q Hq].
  destruct (IH (S k)) as [IH1 IH2]. rewrite IH1.
  unfold cell_count, cell_triangles at 1 3 5. rewrite Hq.
  apply Nat.Div0.mod_divides in IH2 as [r Hr]. rewrite Hr.
  replace (3 * q + 3 * r)%nat with ((q + r) * 3)%nat by lia.
  rewrite Nat.div_mul, Nat.Div0.mod_mul by done.
  rewrite (Nat.mul_comm 3 q), (Nat.mul_comm 3 r), !Nat.div_mul by done. done.
Qed.

Lemma numbered_producer cs k t :
  concat (imap (fun i c => replicate (cell_count c) (Z.of_nat (k + i))) cs) !! t
  = Z.of_nat <$> producer (cell_count <$> cs) k t.
Proof.
  revert k t. induction cs as [|c cs IH]; intros k t; [done|].
  cbn [imap concat fmap list_fmap producer]. unfold compose.
  rewrite (imap_shift (fun j c => replicate (cell_count c) (Z.of_nat j))).
  destruct (t <? cell_count c)%nat eqn:Ht.
  - apply Nat.ltb_lt in Ht. rewrite lookup_app_l by (by rewrite length_replicate).
    rewrite Nat.add_0_r. by rewrite lookup_replicate_2.
  - apply Nat.ltb_ge in Ht. rewrite lookup_app_r by (by rewrite length_replicate).
    rewrite length_replicate. apply IH.
Qed.

(** *** The XML walk *)

Lemma xml_slice_iterate connectivity n a acc :
  iterate_from n a
    (fun k cellIndices =>
       if k <? len connectivity then cellIndices ++ [int_get connectivity k]
       else cellIndices) acc
  = acc ++ (int_get connectivity
              <$> filter (fun k => k < len connectivity) (seqZ a (Z.of_nat n))).
Proof.
  revert a acc. induction n as [|n IH]; intros a acc.
  - simpl. by rewrite app_nil_r.
  - rewrite Nat2Z.inj_succ, seqZ_cons by lia. rewrite Z.pred_succ.
    simpl iterate_from. rewrite IH. replace (Z.succ a) with (a + 1) by lia.
    rewrite filter_cons. destruct (a <? len connectivity) eqn:Ha.
    + apply Z.ltb_lt in Ha. rewrite decide_True by done.
      rewrite fmap_cons. by rewrite <- app_assoc.
    + apply Z.ltb_ge in Ha. rewrite decide_False by lia. done.
Qed.

Lemma xml_slice_eq connectivity a b :
  xml_slice connectivity a b = range_entries connectivity a b.
Proof.
  unfold xml_slice, range_entries, for_lt. rewrite xml_slice_iterate. simpl.
  destruct (decide (0 ≤ b - a)).
  - by rewrite Z2Nat.id.
  - replace (Z.to_nat (b - a)) with 0%nat by lia. simpl. by rewrite seqZ_nil by lia.
Qed.

(** From a start inside or past the array, the entries of the range are a
    plain slice of the array. *)
Lemma range_entries_slice connectivity a b :
  0 ≤ a →
  range_entries connectivity a b
  = JNum <$> take (Z.to_nat (b - a)) (drop (Z.to_nat a) connectivity).
Proof.
  intros Ha. unfold range_entries.
  destruct (decide (0 ≤ b - a)) as [Hm|Hm];
    [|replace (Z.to_nat (b - a)) with 0%nat by lia; by rewrite seqZ_nil by lia].
  rewrite <- (Z2Nat.id (b - a)) at 1 by done.
  generalize (Z.to_nat (b - a)) as n. clear b Hm. intros n. revert a Ha.
  induction n as [|n IH]; intros a Ha; [done|].
  rewrite Nat2Z.inj_succ, seqZ_cons by lia. rewrite Z.pred_succ.
  replace (Z.succ a) with (a + 1) by lia.
  rewrite filter_cons. specialize (IH (a + 1) ltac:(lia)).
  replace (Z.to_nat (a + 1)) with (S (Z.to_nat a)) in IH by lia.
  destruct (decide (a < len connectivity)) as [Hlt|Hge].
  - destruct (lookup_lt_is_Some_2 connectivity (Z.to_nat a)) as [x Hx];
      [unfold len in Hlt; lia|].
    rewrite fmap_cons, IH. rewrite (drop_S _ _ _ Hx). simpl.
    unfold int_get. rewrite (proj2 (Z.ltb_ge a 0)) by done. by rewrite Hx.
  - rewrite IH. rewrite !drop_ge; [by rewrite !take_nil| unfold len in *; lia..].
Qed.

Lemma seqZ_snoc i : 0 ≤ i → seqZ 0 (i + 1) = seqZ 0 i ++ [i].
Proof.
  intros Hi. rewrite seqZ_app by lia. f_equal.
Qed.

Lemma xml_walk_run numberOfCells connectivity offsets types :
  let w := xml_walk numberOfCells connectivity offsets types in
  numbered w
  ∧ calls w = xml_cells connectivity offsets types
                (Z.min numberOfCells (Z.min (len offsets) (len types))).
Proof.
  unfold xml_walk. set (n := Z.min _ _). simpl.
  destruct (decide (0 ≤ n)) as [Hn|Hn].
  - pose (P := fun (i : Z) (st : Z * walk) =>
        st.1 = running_start offsets i ∧ numbered st.2
        ∧ calls st.2 = xml_cells connectivity offsets types i).
    cut (P n (for_lt 0 n (xml_cell connectivity offsets types) (0, empty_walk))).
    { intros (_ & ? & ?). done. }
    apply for_lt_invariant; [done|by repeat split|].
    intros j [cur w] Hj (Hcur & Hnum & Hcalls). simpl in *. subst cur.
    unfold xml_cell. split; [|split]; simpl.
    + unfold running_start. rewrite (proj2 (Z.eqb_neq (j + 1) 0)) by lia.
      by replace (j + 1 - 1) with j by lia.
    + apply numbered_emit; [done|]. rewrite Hcalls. unfold xml_cells, len.
      rewrite length_fmap, length_seqZ. lia.
    + rewrite emit_eq. simpl. rewrite Hcalls. unfold xml_cells.
      rewrite seqZ_snoc by lia. rewrite fmap_app. simpl.
      by rewrite xml_slice_eq.
  - rewrite for_lt_empty by lia. simpl. split; [apply numbered_empty|].
    unfold xml_cells. by rewrite seqZ_nil by lia.
Qed.

(** *** The legacy walk *)

Lemma legacy_slice_iterate cellDataRaw n j acc idx w rd :
  0 ≤ idx ≤ len cellDataRaw →
  iterate_from n j
    (fun _ '(cellIndices, st) =>
       if cellDataIndex st <? len cellDataRaw then
         let '(v, st') := next_raw cellDataRaw st in (cellIndices ++ [JNum v], st')
       else (cellIndices, st))
    (acc, MkLegacy idx w rd)
  = (acc ++ (JNum <$> take n (drop (Z.to_nat idx) cellDataRaw)),
     MkLegacy (Z.min (len cellDataRaw) (idx + Z.of_nat n)) w
              (rd ++ seqZ idx (Z.min (len cellDataRaw) (idx + Z.of_nat n) - idx))).
Proof.
  revert j acc idx rd. induction n as [|n IH]; intros j acc idx rd Hidx.
  - simpl. rewrite Z.add_0_r, Z.min_r by lia.
    rewrite Z.sub_diag. simpl. by rewrite !app_nil_r.
  - simpl iterate_from. simpl cellDataIndex.
    destruct (idx <? len cellDataRaw) eqn:Hlt.
    + apply Z.ltb_lt in Hlt. unfold next_raw. simpl.
      rewrite IH by lia.
      destruct (lookup_lt_is_Some_2 cellDataRaw (Z.to_nat idx)) as [x Hx];
        [unfold len in Hlt; lia|].
      rewrite (drop_S _ _ _ Hx). simpl take. rewrite fmap_cons.
      unfold int_at. rewrite Hx. simpl default.
      replace (Z.to_nat (idx + 1)) with (S (Z.to_nat idx)) by lia.
      replace (idx + 1 + Z.of_nat n) with (idx + Z.of_nat (S n)) by lia.
      rewrite <- !app_assoc. simpl.
      set (m := Z.min (len cellDataRaw) (idx + Z.of_nat (S n))).
      replace (m - idx) with (Z.succ (m - (idx + 1))) by lia.
      rewrite (seqZ_cons idx) by lia. rewrite Z.pred_succ.
      by replace (Z.succ idx) with (idx + 1) by lia.
    + apply Z.ltb_ge in Hlt. rewrite IH by lia.
      rewrite !drop_ge by (unfold len in *; lia). rewrite !take_nil.
      by rewrite !Z.min_l by lia.
Qed.

Lemma legacy_slice_eq cellDataRaw nPts idx w rd :
  0 ≤ idx ≤ len cellDataRaw →
  legacy_slice cellDataRaw nPts (MkLegacy idx w rd)
  = (JNum <$> take (Z.to_nat nPts) (drop (Z.to_nat idx) cellDataRaw),
     MkLegacy (Z.min (len cellDataRaw) (idx + Z.max 0 nPts)) w
              (rd ++ seqZ idx (Z.min (len cellDataRaw) (idx + Z.max 0 nPts) - idx))).
Proof.
  intros Hidx. unfold legacy_slice, for_lt. rewrite Z.sub_0_r.
  rewrite legacy_slice_iterate by done. simpl.
  by replace (Z.of_nat (Z.to_nat nPts)) with (Z.max 0 nPts) by lia.
Qed.

Lemma legacy_cell_break cellDataRaw cellTypes i idx w rd :
  len cellDataRaw ≤ idx →
  legacy_cell cellDataRaw cellTypes i (MkLegacy idx w rd) = Break (MkLegacy idx w rd).
Proof.
  intros H. unfold legacy_cell. simpl. by rewrite (proj2 (Z.leb_le _ _) H).
Qed.

Lemma legacy_cell_continue cellDataRaw cellTypes i idx w rd :
  0 ≤ idx < len cellDataRaw →
  let nPts := int_at cellDataRaw idx in
  let idx' := Z.min (len cellDataRaw) (idx + 1 + Z.max 0 nPts) in
  legacy_cell cellDataRaw cellTypes i (MkLegacy idx w rd)
  = Continue
      (MkLegacy idx'
         (emit i (int_at cellTypes i)
               (JNum <$> take (Z.to_nat nPts) (drop (Z.to_nat (idx + 1)) cellDataRaw)) w)
         ((rd ++ [idx]) ++ seqZ (idx + 1) (idx' - (idx + 1)))).
Proof.
  intros H. unfold legacy_cell. simpl.
  rewrite (proj2 (Z.leb_gt _ _)) by lia. unfold next_raw. simpl.
  by rewrite legacy_slice_eq by lia.
Qed.

Lemma legacy_walk_iterate cellDataRaw cellTypes n i idx w rd :
  0 ≤ idx ≤ len cellDataRaw →
  let st := iterate_break n i (legacy_cell cellDataRaw cellTypes) (MkLegacy idx w rd) in
  calls (lwalk st) = calls w ++ legacy_cells n i idx cellDataRaw cellTypes
  ∧ (numbered w → i = len (calls w) → numbered (lwalk st))
  ∧ (Forall (in_buffer cellDataRaw) rd → Forall (in_buffer cellDataRaw) (raw_reads st))
  ∧ 0 ≤ cellDataIndex st ≤ len cellDataRaw.
Proof.
  revert i idx w rd. induction n as [|n IH]; intros i idx w rd Hidx.
  - simpl. rewrite app_nil_r. intuition.
  - simpl iterate_break. simpl legacy_cells.
    destruct (len cellDataRaw <=? idx) eqn:Hend.
    { apply Z.leb_le in Hend. rewrite legacy_cell_break by done. simpl.
      rewrite app_nil_r. intuition. }
    apply Z.leb_gt in Hend. rewrite legacy_cell_continue by lia.
    set (nPts := int_at cellDataRaw idx).
    set (idx' := Z.min (len cellDataRaw) (idx + 1 + Z.max 0 nPts)).
    set (ci := JNum <$> take (Z.to_nat nPts) (drop (Z.to_nat (idx + 1)) cellDataRaw)).
    destruct (IH (i + 1) idx' (emit i (int_at cellTypes i) ci w)
                ((rd ++ [idx]) ++ seqZ (idx + 1) (idx' - (idx + 1))) ltac:(lia))
      as (Hcalls & Hnum & Hreads & Hfinal).
    cbv zeta. split; [|split; [|split]].
    + rewrite Hcalls, emit_eq. simpl. by rewrite <- app_assoc.
    + intros Hw Hi. apply Hnum; [by apply numbered_emit|].
      rewrite emit_eq. simpl. unfold len in *. rewrite length_app. simpl. lia.
    + intros Hrd. apply Hreads. rewrite !Forall_app. split; [split|].
      * done.
      * apply Forall_singleton. unfold in_buffer. lia.
      * apply Forall_forall. intros p Hp. apply elem_of_seqZ in Hp.
        unfold in_buffer. lia.
    + done.
Qed.

Lemma legacy_walk_run cellDataRaw cellTypes numCells :
  let st := legacy_walk cellDataRaw cellTypes numCells in
  calls (lwalk st)
  = legacy_cells (Z.to_nat (Z.min numCells (len cellTypes))) 0 0 cellDataRaw cellTypes
  ∧ numbered (lwalk st)
  ∧ Forall (in_buffer cellDataRaw) (raw_reads st)
  ∧ 0 ≤ cellDataIndex st ≤ len cellDataRaw.
Proof.
  unfold legacy_walk, for_lt_break. rewrite Z.sub_0_r.
  destruct (legacy_walk_iterate cellDataRaw cellTypes
              (Z.to_nat (Z.min numCells (len cellTypes))) 0 0 empty_walk [])
    as (Hcalls & Hnum & Hreads & Hidx); [unfold len; lia|].
  simpl. split; [done|]. split; [by apply Hnum; [apply numbered_empty|]|].
  split; [by apply Hreads|done].
Qed.

(** *** Type inference *)

Lemma int_get_in_range (a : list Z) (k : Z) :
  0 ≤ k < len a → ∃ x, a !! Z.to_nat k = Some x ∧ int_get a k = JNum x.
Proof.
  intros Hk. destruct (lookup_lt_is_Some_2 a (Z.to_nat k)) as [x Hx];
    [unfold len in Hk; lia|].
  exists x. split; [done|]. unfold int_get.
  rewrite (proj2 (Z.ltb_ge k 0)) by lia. by rewrite Hx.
Qed.


Lemma infer_loop_terminates cellDataRaw :
  (∀ index nPts, visited cellDataRaw index → index < len cellDataRaw →
                 int_get cellDataRaw index = JNum nPts → 0 ≤ nPts) →
  ∀ fuel index cellTypes,
    visited cellDataRaw index → 0 ≤ index →
    (Z.to_nat (len cellDataRaw - index) < fuel)%nat →
    is_Some (infer_loop fuel cellDataRaw index cellTypes).
Proof.
  intros Hnonneg fuel. induction fuel as [|fuel IH]; intros index tys Hv Hidx Hfuel;
    [lia|].
  simpl. destruct (index <? len cellDataRaw) eqn:Hlt; [|done].
  apply Z.ltb_lt in Hlt.
  destruct (int_get_in_range cellDataRaw index ltac:(lia)) as (nPts & _ & Hget).
  rewrite Hget. pose proof (Hnonneg index nPts Hv Hlt Hget) as Hn.
  apply IH; [by eapply visited_next|lia|lia].
Qed.

Lemma infer_loop_stuck fuel cellTypes :
  infer_loop fuel [-1] 0 cellTypes = None.
Proof.
  revert cellTypes. induction fuel as [|fuel IH]; intros tys; [done|].
  simpl. apply IH.
Qed.

Lemma infer_loop_cells fuel (pre : list Z) cells cellTypes :
  (length cells < fuel)%nat →
  infer_loop fuel (pre ++ cell_buffer cells) (len pre) cellTypes
  = Some (cellTypes ++ ((fun c => infer_type (len c)) <$> cells)).
Proof.
  revert pre cellTypes fuel. induction cells as [|c cells IH]; intros pre tys fuel Hfuel.
  - destruct fuel as [|fuel]; [simpl in Hfuel; lia|]. simpl.
    rewrite !app_nil_r. by rewrite Z.ltb_irrefl.
  - destruct fuel as [|fuel]; [simpl in Hfuel; lia|].
    simpl infer_loop. unfold cell_buffer. simpl flat_map.
    fold (cell_buffer cells).
    rewrite (proj2 (Z.ltb_lt _ _)); [|unfold len; rewrite length_app; simpl; lia].
    assert (int_get (pre ++ len c :: c ++ cell_buffer cells) (len pre) = JNum (len c))
      as ->.
    { unfold int_get. rewrite (proj2 (Z.ltb_ge _ 0)) by (unfold len; lia).
      unfold len at 1. rewrite Nat2Z.id.
      rewrite lookup_app_r by done. by rewrite Nat.sub_diag. }
    replace (pre ++ len c :: c ++ cell_buffer cells)
      with ((pre ++ len c :: c) ++ cell_buffer cells)
      by (by rewrite <- app_assoc).
    replace (len pre + (len c + 1)) with (len (pre ++ len c :: c))
      by (unfold len; rewrite length_app; simpl; lia).
    rewrite IH by (simpl in Hfuel; lia).
    rewrite fmap_cons. by rewrite <- app_assoc.
Qed.

Lemma infer_types_cells fuel cells numCells :
  cells ≠ [] → (length cells < fuel)%nat →
  infer_types fuel (cell_buffer cells) [] numCells
  = Some ((fun c => infer_type (len c)) <$> cells, len cells).
Proof.
  intros Hne Hfuel. unfold infer_types.
  assert (0 < len (cell_buffer cells)) as Hpos.
  { destruct cells as [|c cells]; [done|]. unfold cell_buffer, len. simpl. lia. }
  rewrite (proj2 (Z.ltb_lt _ _) Hpos). simpl.
  pose proof (infer_loop_cells fuel [] cells [] Hfuel) as Hloop.
  change (infer_loop fuel (cell_buffer cells) 0 []
          = Some ((fun c => infer_type (len c)) <$> cells)) in Hloop.
  rewrite Hloop. simpl.
  unfold len. by rewrite length_fmap.
Qed.

Lemma legacy_cells_types n i p cellDataRaw cellTypes c :
  c ∈ legacy_cells n i p cellDataRaw cellTypes →
  ∃ j, i ≤ j < i + Z.of_nat n ∧ c.1 = int_at cellTypes j.
Proof.
  revert i p. induction n as [|n IH]; intros i p Hc; simpl in Hc.
  - by apply elem_of_nil in Hc.
  - destruct (len cellDataRaw <=? p); [by apply elem_of_nil in Hc|].
    apply elem_of_cons in Hc as [->|Hc].
    + exists i. simpl. split; [lia|done].
    + destruct (IH _ _ Hc) as (j & Hj & Heq). exists j. split; [lia|done].
Qed.

Lemma no_triangles_no_ids (g : nat → Z) cs :
  Forall (fun c => cell_triangles c = []) cs →
  flat_map cell_triangles cs = []
  ∧ concat (imap (fun i c => replicate (cell_count c) (g i)) cs) = [].
Proof.
  intros Hall. revert g. induction Hall as [|c cs Hc _ IH]; intros g; [done|].
  cbn [flat_map imap concat]. unfold cell_count at 1. rewrite Hc. simpl.
  apply (IH (g ∘ S)).
Qed.

Lemma numbered_no_triangles w :
  numbered w → Forall (fun c => cell_triangles c = []) (calls w) →
  indices w = [] ∧ cellIdMap w = [].
Proof.
  intros [Hi Hm] Hall. rewrite Hi, Hm. by apply no_triangles_no_ids.
Qed.

Lemma lines_buffer_cells lines :
  (fun c : list Z => infer_type (len c)) <$> ((fun '(a, b) => [a; b]) <$> lines)
  = replicate (length lines) 3.
Proof.
  induction lines as [|[a b] lines IH]; [done|].
  rewrite !fmap_cons, IH. done.
Qed.

Lemma lines_walk_empty lines :
  let w := lwalk (legacy_walk (lines_buffer lines)
                    (replicate (length lines) 3) (len lines)) in
  Forall (fun c => c.1 = 3 ∧ cell_triangles c = []) (calls w)
  ∧ indices w = [] ∧ cellIdMap w = [].
Proof.
  destruct (legacy_walk_run (lines_buffer lines)
              (replicate (length lines) 3) (len lines))
    as (Hcalls & Hnum & _ & _).
  simpl. assert (Forall (fun c => c.1 = 3 ∧ cell_triangles c = [])
            (calls (lwalk (legacy_walk (lines_buffer lines)
                             (replicate (length lines) 3) (len lines))))) as Hall.
  { rewrite Hcalls. apply Forall_forall. intros c Hc.
    apply legacy_cells_types in Hc as (j & Hj & Heq).
    assert (c.1 = 3) as H3.
    { rewrite Heq. unfold int_at. rewrite lookup_replicate_2; [done|].
      unfold len in Hj. rewrite length_replicate in Hj. lia. }
    split; [done|]. unfold cell_triangles, triangles_of. by rewrite H3. }
  split; [done|]. apply numbered_no_triangles; [done|].
  eapply Forall_impl; [exact Hall|]. by intros c [_ ?].
Qed.

(** *** Scalar fields *)

Lemma num_lt_trans a b c : num_lt a b = true → num_lt b c = true → num_lt a c = true.
Proof.
  destruct a as [| |p|], b as [| |q|], c as [| |r|]; simpl; try done.
  rewrite !negb_true_iff. intros Hqp Hrq.
  destruct (Qle_bool r p) eqn:Hrp; [|done].
  apply Qle_bool_iff in Hrp.
  assert (¬ (q <= p)%Q) as Hqp' by (intros H; apply Qle_bool_iff in H; congruence).
  assert (¬ (r <= q)%Q) as Hrq' by (intros H; apply Qle_bool_iff in H; congruence).
  apply Qnot_le_lt in Hqp', Hrq'. exfalso.
  apply (Qlt_irrefl p). eapply Qlt_le_trans; [|exact Hrp].
  by eapply Qlt_trans.
Qed.

Lemma num_lt_irrefl v : num_lt v v = false.
Proof.
  destruct v as [| |q|]; simpl; try done.
  apply negb_false_iff, Qle_bool_iff, Qle_refl.
Qed.

Lemma num_lt_PosInf v : isNaN v = false → num_lt v PosInf = false → v = PosInf.
Proof. by destruct v. Qed.

Lemma num_lt_NegInf v : isNaN v = false → num_lt NegInf v = false → v = NegInf.
Proof. by destruct v. Qed.

Lemma num_le_lt_trans x v m :
  num_lt x m = false → num_lt v m = true → num_lt x v = false.
Proof.
  intros Hxm Hvm. destruct (num_lt x v) eqn:Hxv; [|done].
  by rewrite (num_lt_trans _ _ _ Hxv Hvm) in Hxm.
Qed.

Lemma extrema_invariant data mn mx seen :
  (mn = PosInf ∨ mn ∈ seen) → (mx = NegInf ∨ mx ∈ seen) →
  (∀ x, x ∈ seen → num_lt x mn = false ∧ num_lt mx x = false) →
  let '(mn', mx') :=
    foldl (fun '(min, max) v =>
             (if num_lt v min then v else min, if num_gt v max then v else max))
          (mn, mx) data in
  (mn' = PosInf ∨ mn' ∈ seen ++ data) ∧ (mx' = NegInf ∨ mx' ∈ seen ++ data)
  ∧ ∀ x, x ∈ seen ++ data → num_lt x mn' = false ∧ num_lt mx' x = false.
Proof.
  revert mn mx seen. induction data as [|v data IH]; intros mn mx seen Hmn Hmx Hall.
  - simpl. by rewrite app_nil_r.
  - simpl foldl. unfold num_gt.
    replace (seen ++ v :: data) with ((seen ++ [v]) ++ data)
      by (by rewrite <- app_assoc).
    apply IH.
    + destruct (num_lt v mn);
        [right; apply elem_of_app; right; by apply list_elem_of_singleton|].
      destruct Hmn as [->|?]; [by left|right; apply elem_of_app; by left].
    + destruct (num_lt mx v);
        [right; apply elem_of_app; right; by apply list_elem_of_singleton|].
      destruct Hmx as [->|?]; [by left|right; apply elem_of_app; by left].
    + intros x Hx. apply elem_of_app in Hx as [Hx|Hx].
      * destruct (Hall x Hx) as [H1 H2]. split.
        -- destruct (num_lt v mn) eqn:Hv; [|done]. by eapply num_le_lt_trans.
        -- destruct (num_lt mx v) eqn:Hv; [|done].
           destruct (num_lt v x) eqn:Hvx; [|done].
           by rewrite (num_lt_trans _ _ _ Hv Hvx) in H2.
      * apply list_elem_of_singleton in Hx as ->. split.
        -- destruct (num_lt v mn) eqn:Hv; [|done]. apply num_lt_irrefl.
        -- destruct (num_lt mx v) eqn:Hv; [|done]. apply num_lt_irrefl.
Qed.

(** Over data without NaN, [extrema] finds the least and the greatest
    element. *)
Lemma extrema_correct data :
  data ≠ [] → Forall (fun v => isNaN v = false) data →
  let '(mn, mx) := extrema data in
  mn ∈ data ∧ mx ∈ data ∧ ∀ x, x ∈ data → num_le mn x ∧ num_le x mx.
Proof.
  intros Hne Hnan. unfold extrema.
  pose proof (extrema_invariant data PosInf NegInf [] (or_introl eq_refl)
                (or_introl eq_refl)) as H.
  destruct (foldl _ _ data) as [mn mx]. simpl in H.
  destruct H as (Hmn & Hmx & Hall); [intros x Hx; by apply elem_of_nil in Hx|].
  destruct data as [|v data]; [done|].
  assert (isNaN v = false) as Hv by (by inversion Hnan).
  destruct (Hall v ltac:(apply elem_of_cons; by left)) as [Hv1 Hv2].
  split; [|split].
  - destruct Hmn as [->|?]; [|done].
    rewrite <- (num_lt_PosInf v Hv Hv1). apply elem_of_cons; by left.
  - destruct Hmx as [->|?]; [|done].
    rewrite <- (num_lt_NegInf v Hv Hv2). apply elem_of_cons; by left.
  - intros x Hx. unfold num_le. by apply Hall.
Qed.

(** *** Appended data *)

Lemma little_endian_app a b :
  little_endian (a ++ b) = little_endian a + 256 ^ len a * little_endian b.
Proof.
  induction a as [|x a IH]; simpl.
  - unfold len. simpl. lia.
  - rewrite IH. unfold len. simpl length. rewrite Nat2Z.inj_succ, Z.pow_succ_r by lia.
    fold (len a). lia.
Qed.

Lemma little_endian_nonneg bs : 0 ≤ little_endian bs.
Proof.
  induction bs as [|b bs IH]; cbn [little_endian]; [done|].
  unfold byte_value. pose proof (N2Z.is_nonneg (Byte.to_N b)). lia.
Qed.

Lemma getUint32_little_endian buffer pos :
  0 ≤ pos → pos + 4 ≤ len buffer →
  getUint32 buffer pos = Some (little_endian (take 4 (drop (Z.to_nat pos) buffer))).
Proof.
  intros Hpos Hend. unfold getUint32.
  rewrite (proj2 (Z.leb_le 0 pos)), (proj2 (Z.leb_le (pos + 4) _)) by done. simpl.
  assert (4 ≤ length (drop (Z.to_nat pos) buffer))%nat as Hlen
    by (rewrite length_drop; unfold len in Hend; lia).
  destruct (drop (Z.to_nat pos) buffer) as [|b0 [|b1 [|b2 [|b3 rest]]]];
    simpl in Hlen; try lia.
  simpl. f_equal. lia.
Qed.

Lemma read_header_little_endian buffer start headerSize :
  headerSize = 4 ∨ headerSize = 8 → 0 ≤ start → start + headerSize ≤ len buffer →
  read_header buffer start headerSize
  = Some (little_endian (take (Z.to_nat headerSize) (drop (Z.to_nat start) buffer))).
Proof.
  intros [->| ->] Hstart Hend; unfold read_header; simpl.
  - by rewrite getUint32_little_endian.
  - rewrite !getUint32_little_endian by lia. simpl. f_equal.
    replace (Z.to_nat (start + 4)) with (Z.to_nat start + 4)%nat by lia.
    rewrite <- drop_drop.
    change (Pos.to_nat 8) with (4 + 4)%nat.
    rewrite <- (take_take_drop _ 4 4). rewrite little_endian_app.
    assert (len (take 4 (drop (Z.to_nat start) buffer)) = 4) as ->.
    { unfold len in *. rewrite length_take, length_drop. lia. }
    lia.
Qed.

(** * The properties of the specification *)

Lemma numbered_one_entry w : numbered w → one_entry_per_triangle w.
Proof.
  intros [Hi Hm]. split; [done|].
  destruct (numbered_lengths (calls w) 0) as [Hlen Hmod]. simpl in Hlen.
  rewrite <- Hi in Hlen, Hmod. rewrite <- Hm in Hlen.
  split; [|split].
  - unfold len. rewrite <- (Nat2Z.inj_mod _ 3). by rewrite Hmod.
  - unfold len. rewrite Hlen. apply (Nat2Z.inj_div _ 3).
  - intros t. rewrite Hm. apply (numbered_producer (calls w) 0 t).
Qed.

Lemma build_geometry_index {P : Type} (points : P) w pd cd :
  index_buffer (build_geometry points w pd cd) = indices w.
Proof.
  unfold index_buffer, build_geometry. simpl.
  destruct (0 <? len (indices w)) eqn:H; [done|].
  apply Z.ltb_ge in H. destruct (indices w); [done|]. unfold len in H. simpl in H. lia.
Qed.

(** C1.  After a decode by either loader the cell-ID map has one entry per
    emitted triangle: the index buffer is the concatenation, cell after
    cell, of the triangles of the cells walked, its length is a multiple
    of 3, the map has a third as many entries, and entry [t] is the
    0-based number of the cell whose triangles include triangle [t].  The
    same lengths hold on the geometry that the loader returns. *)
Theorem C1_cell_id_map_matches_triangles :
  (∀ numberOfCells connectivity offsets types,
      one_entry_per_triangle (xml_walk numberOfCells connectivity offsets types))
  ∧ (∀ cellDataRaw cellTypes numCells,
      one_entry_per_triangle (lwalk (legacy_walk cellDataRaw cellTypes numCells)))
  ∧ (∀ (points : typedArray) numberOfCells connectivity offsets types pd cd,
      let g := build_geometry points
                 (xml_walk numberOfCells connectivity offsets types) pd cd in
      len (vtk_cellIdMap (userData g)) = len (index_buffer g) / 3)
  ∧ (∀ (points : list (option num)) cellDataRaw cellTypes numCells pd cd,
      let g := build_geometry points
                 (lwalk (legacy_walk cellDataRaw cellTypes numCells)) pd cd in
      len (vtk_cellIdMap (userData g)) = len (index_buffer g) / 3).
Proof.
  assert (∀ n c o t, one_entry_per_triangle (xml_walk n c o t)) as Hxml.
  { intros. apply numbered_one_entry. apply xml_walk_run. }
  assert (∀ r t n, one_entry_per_triangle (lwalk (legacy_walk r t n))) as Hlegacy.
  { intros. apply numbered_one_entry. apply legacy_walk_run. }
  split; [done|]. split; [done|]. split.
  - intros. subst g. rewrite build_geometry_index. simpl. apply Hxml.
  - intros. subst g. rewrite build_geometry_index. simpl. apply Hlegacy.
Qed.

Lemma length_rule type n m :
  min_arity type = Some m → m ≤ n → len (rule type n) = triangle_count type n.
Proof.
  unfold min_arity, rule, triangle_count, len.
  repeat (destruct (type =? _); [intros [= <-] Hn; try done|]); [|done].
  rewrite length_fmap, length_seqZ. lia.
Qed.

Lemma triangles_of_supported type ci m :
  min_arity type = Some m → m ≤ len ci →
  triangles_of type ci = select ci (rule type (len ci))
  ∧ len (triangles_of type ci) / 3 = triangle_count type (len ci).
Proof.
  intros Hm Hn. unfold triangles_of. rewrite Hm.
  rewrite (proj2 (Z.leb_le _ _) Hn). split; [done|].
  unfold len at 1. rewrite length_select.
  rewrite <- (length_rule type (len ci) m Hm Hn). unfold len at 3.
  rewrite Nat2Z.inj_mul, Z.mul_comm. by apply Z.div_mul.
Qed.

(** C2.  For a type of the table and a cell of at least the minimum
    arity, [triangulateCell], called on two distinct arrays, returns the
    number of triangles of the type's rule and leaves a store in which the
    output array is its old content followed by the point ids that the
    rule's triples select, and every other array, the cell's own array
    among them, is as before. *)
Theorem C2_triangulateCell_appends_rule
    fuel type (cellIndices indices : Engine.loc) (s : Engine.store) ci out m :
  cellIndices ≠ indices →
  s !! cellIndices = Some ci → s !! indices = Some out →
  min_arity type = Some m → m ≤ len ci → (length ci ≤ fuel)%nat →
  Engine.triangulateCell fuel type cellIndices indices s
  = Some (triangle_count type (len ci),
          <[indices := out ++ select ci (rule type (len ci))]> s)
  ∧ len (rule type (len ci)) = triangle_count type (len ci)
  ∧ <[indices := out ++ select ci (rule type (len ci))]> s !! cellIndices = Some ci.
Proof.
  intros Hne Hc Ho Hm Hn Hfuel.
  destruct (triangles_of_supported type ci m Hm Hn) as [Htri Hcount].
  split; [|split].
  - rewrite (triangulateCell_run cellIndices indices ci Hne fuel type s out) by done.
    by rewrite Hcount, Htri.
  - by eapply length_rule.
  - by rewrite lookup_insert_ne.
Qed.

Lemma C2_witness :
  Engine.triangulateCell 8 12 0%nat 1%nat (two_arrays sample_hexahedron [JNum 7])
  = Some (triangle_count 12 (len sample_hexahedron),
          <[1%nat := [JNum 7] ++ select sample_hexahedron
                                        (rule 12 (len sample_hexahedron))]>
            (two_arrays sample_hexahedron [JNum 7]))
  ∧ len (rule 12 (len sample_hexahedron)) = triangle_count 12 (len sample_hexahedron)
  ∧ <[1%nat := [JNum 7] ++ select sample_hexahedron
                                  (rule 12 (len sample_hexahedron))]>
      (two_arrays sample_hexahedron [JNum 7]) !! 0%nat
    = Some sample_hexahedron.
Proof.
  apply (C2_triangulateCell_appends_rule 8 12 0%nat 1%nat
           (two_arrays sample_hexahedron [JNum 7]) sample_hexahedron [JNum 7] 8).
  - lia.
  - reflexivity.
  - reflexivity.
  - reflexivity.
  - vm_compute. discriminate.
  - simpl. lia.
Defined.

(** C3.  For a type code outside the table, and for a cell shorter than
    its type's minimum arity, [triangulateCell] returns 0 and leaves the
    store, hence the output array, as it was; it returns normally
    whatever the fuel and whether or not the two arrays are the same. *)
Theorem C3_short_or_unsupported_cell
    fuel type (cellIndices indices : Engine.loc) (s : Engine.store) :
  type ∉ supported_types
  ∨ (∃ m, min_arity type = Some m ∧ len (Engine.arr s cellIndices) < m) →
  Engine.triangulateCell fuel type cellIndices indices s = Some (0, s).
Proof.
  intros H.
  assert (Engine.switch_type fuel type cellIndices indices s = Some (tt, s)) as Hsw.
  { unfold Engine.switch_type, Engine.if_length_ge, Engine.bind, Engine.length_of.
    destruct H as [H|(m & Hm & Hlt)].
    - unfold supported_types in H.
      repeat (destruct (type =? _) eqn:E;
              [exfalso; apply H; apply Z.eqb_eq in E; subst type;
               repeat (first [by apply list_elem_of_here | apply list_elem_of_further])
              |clear E]).
      done.
    - unfold min_arity in Hm.
      repeat (destruct (type =? _);
              [injection Hm as <-; by rewrite (proj2 (Z.leb_gt _ _) Hlt)|]).
      done. }
  unfold Engine.triangulateCell, Engine.bind. unfold Engine.length_of at 1.
  rewrite Hsw. unfold Engine.length_of, Engine.ret.
  by rewrite Z.sub_diag.
Qed.

Lemma C3_witness :
  Engine.triangulateCell 0 3 0%nat 1%nat (two_arrays [JNum 4; JNum 5] [JNum 7])
  = Some (0, two_arrays [JNum 4; JNum 5] [JNum 7])
  ∧ Engine.triangulateCell 0 9 0%nat 1%nat (two_arrays [JNum 4; JNum 5; JNum 6] [JNum 7])
    = Some (0, two_arrays [JNum 4; JNum 5; JNum 6] [JNum 7]).
Proof.
  split.
  - apply (C3_short_or_unsupported_cell 0 3 0%nat 1%nat).
    left. unfold supported_types. intros H.
    repeat (apply elem_of_cons in H as [H|H]; [lia|]).
    by apply elem_of_nil in H.
  - apply (C3_short_or_unsupported_cell 0 9 0%nat 1%nat).
    right. exists 4. split; [reflexivity|]. vm_compute. reflexivity.
Defined.



(** *** The legacy walk with its counter as a number *)

Lemma incr_exact j : 0 ≤ j < 2 ^ 53 → Counted.incr j = j + 1.
Proof.
  intros Hj. unfold Counted.incr.
  destruct (decide (j + 1 = 2 ^ 53)) as [->|Hne]; [by vm_compute|].
  unfold number_of_bigint. cbv zeta.
  by rewrite (proj2 (Z.ltb_lt (Z.abs (j + 1)) (2 ^ 53))) by lia.
Qed.

Lemma incr_stuck : Counted.incr (2 ^ 53) = 2 ^ 53.
Proof. by vm_compute. Qed.

(** Below a bound above 2^53 the counter never gets past 2^53, and the
    loop has no last turn. *)
Lemma count_up_stuck {St : Type} (body : St → St) hi :
  2 ^ 53 < hi →
  ∀ fuel j s, 0 ≤ j ≤ 2 ^ 53 → Counted.count_up fuel j hi body s = None.
Proof.
  intros Hhi fuel. induction fuel as [|fuel IH]; intros j s Hj; [done|].
  cbn [Counted.count_up]. rewrite (proj2 (Z.ltb_lt j hi)) by lia.
  apply IH. destruct (decide (j = 2 ^ 53)) as [->|Hne].
  - rewrite incr_stuck. lia.
  - rewrite incr_exact by lia. lia.
Qed.

(** Up to a bound of at most 2^53 the counter counts as the integers
    do. *)
Lemma count_up_counts {St : Type} (body : St → St) hi :
  hi ≤ 2 ^ 53 →
  ∀ fuel j s, 0 ≤ j → (Z.to_nat (hi - j) < fuel)%nat →
    Counted.count_up fuel j hi body s
    = Some (iterate_from (Z.to_nat (hi - j)) j (fun _ => body) s).
Proof.
  intros Hhi fuel. induction fuel as [|fuel IH]; intros j s Hj Hfuel; [lia|].
  cbn [Counted.count_up].
  destruct (j <? hi) eqn:Hlt; [apply Z.ltb_lt in Hlt|apply Z.ltb_ge in Hlt].
  - rewrite incr_exact by lia. rewrite IH by lia.
    replace (Z.to_nat (hi - j)) with (S (Z.to_nat (hi - (j + 1)))) by lia. done.
  - by replace (Z.to_nat (hi - j)) with 0%nat by lia.
Qed.

Lemma int_at_elem_or_zero (a : list Z) (k : Z) : int_at a k = 0 ∨ int_at a k ∈ a.
Proof.
  unfold int_at. destruct (a !! Z.to_nat k) as [x|] eqn:Hx; [|by left].
  right. simpl. by eapply list_elem_of_lookup_2.
Qed.

Lemma counted_slice_agrees fuel cellDataRaw nPts st :
  (0 < fuel)%nat → countable fuel nPts →
  Counted.legacy_slice fuel cellDataRaw nPts st
  = Some (legacy_slice cellDataRaw nPts st).
Proof.
  intros Hpos [Hle Hfuel]. unfold Counted.legacy_slice, legacy_slice, for_lt.
  by rewrite count_up_counts by lia.
Qed.

Lemma counted_cell_agrees fuel cellDataRaw cellTypes i st :
  (0 < fuel)%nat → Forall (countable fuel) cellDataRaw →
  Counted.legacy_cell fuel cellDataRaw cellTypes i st
  = Some (legacy_cell cellDataRaw cellTypes i st).
Proof.
  intros Hfuel Hall. unfold Counted.legacy_cell, legacy_cell.
  destruct (len cellDataRaw <=? cellDataIndex st); [done|].
  unfold next_raw.
  assert (countable fuel (int_at cellDataRaw (cellDataIndex st))) as Hn.
  { destruct (int_at_elem_or_zero cellDataRaw (cellDataIndex st)) as [->|Hin].
    - split; lia.
    - by apply (proj1 (Forall_forall _ _) Hall). }
  rewrite (counted_slice_agrees _ _ _ _ Hfuel Hn). by destruct (legacy_slice _ _ _).
Qed.

Lemma counted_iterate_agrees fuel cellDataRaw cellTypes :
  (0 < fuel)%nat → Forall (countable fuel) cellDataRaw →
  ∀ n i st,
    Counted.iterate_cells n i (Counted.legacy_cell fuel cellDataRaw cellTypes) st
    = Some (iterate_break n i (legacy_cell cellDataRaw cellTypes) st).
Proof.
  intros Hfuel Hall n. induction n as [|n IH]; intros i st; [done|].
  cbn [Counted.iterate_cells iterate_break].
  rewrite counted_cell_agrees by done.
  destruct (legacy_cell cellDataRaw cellTypes i st); [apply IH|done].
Qed.

(** When no number of the cell buffer is above 2^53 and the fuel exceeds
    them all, the walk with the counter as a number returns what the
    walk in integers returns. *)
Lemma counted_walk_agrees fuel cellDataRaw cellTypes numCells :
  (0 < fuel)%nat → Forall (countable fuel) cellDataRaw →
  Counted.legacy_walk fuel cellDataRaw cellTypes numCells
  = Some (legacy_walk cellDataRaw cellTypes numCells).
Proof.
  intros Hfuel Hall. unfold Counted.legacy_walk, legacy_walk, for_lt_break.
  by apply counted_iterate_agrees.
Qed.

(** C9.  The geometry generation of the legacy loader does not always
    return.  On a cell whose arity prefix is 10^16, the loop that
    gathers the ids counts on behind the end of the buffer; its counter
    reaches 2^53 and stays there, below the prefix, so that the loop has
    no last turn: whatever the fuel, the walk does not return, and
    [parse] returns no mesh.  On a cell that is cut by the end of the
    buffer and whose prefix is small, the same walk returns, with the
    ids that are there. *)
Theorem C9_walk_on_huge_arity_never_returns :
  (∀ fuel, Counted.legacy_walk fuel huge_arity [5] 1 = None)
  ∧ Counted.legacy_walk 4 [3; 0; 1] [5] 1 = Some (legacy_walk [3; 0; 1] [5] 1)
  ∧ calls (lwalk (legacy_walk [3; 0; 1] [5] 1)) = [(5, [JNum 0; JNum 1])].
Proof.
  split; [|split; reflexivity].
  intros fuel. unfold Counted.legacy_walk.
  change (Z.to_nat (1 `min` len [5] - 0)) with 1%nat. cbn [Counted.iterate_cells].
  assert (Counted.legacy_cell fuel huge_arity [5] 0 (MkLegacy 0 empty_walk []) = None)
    as ->; [|done].
  unfold Counted.legacy_cell, next_raw. cbn [cellDataIndex lwalk raw_reads].
  change (len huge_arity <=? 0) with false. cbv beta iota zeta.
  change (int_at huge_arity 0) with 10000000000000000.
  unfold Counted.legacy_slice. by rewrite count_up_stuck by lia.
Qed.

(** C5.  For an appended array whose resolved start is not before the
    buffer, with a header of 4 or 8 bytes: the byte size is the
    little-endian value of the [headerSize] bytes at the start (for 8
    bytes, the little-endian value of the first four plus 2^32 times that
    of the last four); when header and payload fit in the buffer the
    array is [createTypedArray] of exactly that many bytes taken right
    after the header, and otherwise the result is [null]. *)
Theorem C5_appended_array_header_and_payload
    (atob : string → option (list byte))
    (createTypedArray : option string → list byte → typedArray)
    (parseAscii : option string → string → typedArray)
    (el : element) (appendedMap : appendedDataMap) (headerSize : Z)
    (buf : list byte) (off : Z) :
  format el = Some "appended" → offset el = Some off →
  buffer appendedMap = Some buf →
  headerSize = 4 ∨ headerSize = 8 →
  0 ≤ resolved_start appendedMap off →
  let start := resolved_start appendedMap off in
  let header := take (Z.to_nat headerSize) (drop (Z.to_nat start) buf) in
  let byteSize := little_endian header in
  let payload := take (Z.to_nat byteSize) (drop (Z.to_nat (start + headerSize)) buf) in
  (headerSize = 8 →
   byteSize = little_endian (take 4 header) + little_endian (drop 4 header) * 2 ^ 32)
  ∧ (start + headerSize ≤ len buf → start + headerSize + byteSize ≤ len buf →
     len payload = byteSize
     ∧ parseDataArray atob createTypedArray parseAscii el appendedMap headerSize
       = Returned (Some (createTypedArray (type el) payload)))
  ∧ (len buf < start + headerSize ∨ len buf < start + headerSize + byteSize →
     parseDataArray atob createTypedArray parseAscii el appendedMap headerSize
     = Returned None).
Proof.
  intros Hfmt Hoff Hbuf Hhs Hstart start header byteSize payload.
  assert (0 ≤ byteSize) as Hsize by apply little_endian_nonneg.
  split; [|split].
  - intros ->. subst byteSize.
    rewrite <- (take_drop 4 header) at 1. rewrite little_endian_app.
    destruct (decide (length header < 4)%nat) as [Hshort|Hlong].
    + rewrite (drop_ge header 4) by lia. simpl. lia.
    + unfold len. rewrite length_take. replace (4 `min` length header)%nat with 4%nat by lia.
      lia.
  - intros Hh Hp. split.
    + subst payload. unfold len in *. rewrite length_take, length_drop. lia.
    + unfold parseDataArray. rewrite decide_True by done. rewrite Hoff, Hbuf.
      fold (resolved_start appendedMap off). fold start.
      rewrite (proj2 (Z.leb_gt (len buf) start)) by (destruct Hhs; lia).
      rewrite (proj2 (Z.ltb_ge (len buf) (start + headerSize))) by lia.
      rewrite read_header_little_endian by done. fold header. fold byteSize.
      rewrite (proj2 (Z.ltb_ge (len buf) (start + headerSize + byteSize))) by lia.
      unfold slice. do 3 f_equal. subst payload. f_equal. lia.
  - intros Hout. unfold parseDataArray. rewrite decide_True by done.
    rewrite Hoff, Hbuf. fold (resolved_start appendedMap off). fold start.
    destruct (len buf <=? start); [done|].
    destruct (len buf <? start + headerSize) eqn:Hh; [done|].
    apply Z.ltb_ge in Hh.
    rewrite read_header_little_endian by done. fold header. fold byteSize.
    rewrite (proj2 (Z.ltb_lt (len buf) (start + headerSize + byteSize))); [done|].
    destruct Hout; lia.
Qed.

Lemma C5_witness :
  (4 = 8 →
   little_endian [x02; x00; x00; x00]
   = little_endian (take 4 [x02; x00; x00; x00])
     + little_endian (drop 4 [x02; x00; x00; x00]) * 2 ^ 32)
  ∧ (0 + 4 ≤ 7 → 0 + 4 + little_endian [x02; x00; x00; x00] ≤ 7 →
     len [xaa; xbb] = little_endian [x02; x00; x00; x00]
     ∧ parseDataArray no_atob bytes_array no_ascii (sample_array 0) sample_appended 4
       = Returned (Some (bytes_array (Some "UInt8") [xaa; xbb])))
  ∧ (7 < 0 + 4 ∨ 7 < 0 + 4 + little_endian [x02; x00; x00; x00] →
     parseDataArray no_atob bytes_array no_ascii (sample_array 0) sample_appended 4
     = Returned None).
Proof.
  apply (C5_appended_array_header_and_payload no_atob bytes_array no_ascii
           (sample_array 0) sample_appended 4
           [x02; x00; x00; x00; xaa; xbb; x07] 0).
  - reflexivity.
  - reflexivity.
  - reflexivity.
  - left. reflexivity.
  - vm_compute. discriminate.
Defined.

(** *** One data array at a time *)

Section one_array.
Variable atob : string → option (list byte).
Variable createTypedArray : option string → list byte → typedArray.
Variable parseAscii : option string → string → typedArray.

Local Abbreviation parseDataArray' := (parseDataArray atob createTypedArray parseAscii).
Local Abbreviation add_field' := (add_field atob createTypedArray parseAscii).
Local Abbreviation add_fields' := (add_fields atob createTypedArray parseAscii).
Local Abbreviation xml_parse' := (xml_parse atob createTypedArray parseAscii).

(** Inline binary and ASCII arrays never throw: bad base64 and short
    blocks give [null]. *)
Lemma parseDataArray_inline_returns el appendedMap headerSize :
  format el ≠ Some "appended" →
  returned (parseDataArray' el appendedMap headerSize) = true.
Proof.
  intros Hfmt. unfold parseDataArray. rewrite decide_False by done.
  destruct (decide (format el = Some "binary")).
  - destruct (atob (text el)); [|done]. by destruct (len _ <=? headerSize).
  - by destruct (decide (text el = "")).
Qed.

Lemma parseDataArray_bad_base64 el appendedMap headerSize :
  format el = Some "binary" → atob (text el) = None →
  parseDataArray' el appendedMap headerSize = Returned None.
Proof.
  intros Hfmt Hatob. unfold parseDataArray.
  rewrite decide_False by (rewrite Hfmt; discriminate).
  rewrite decide_True by done. by rewrite Hatob.
Qed.

(** An appended array that starts inside the buffer never throws. *)
Lemma parseDataArray_appended_returns el appendedMap headerSize buf off :
  format el = Some "appended" → offset el = Some off →
  buffer appendedMap = Some buf →
  headerSize = 4 ∨ headerSize = 8 →
  0 ≤ resolved_start appendedMap off →
  returned (parseDataArray' el appendedMap headerSize) = true.
Proof.
  intros Hfmt Hoff Hbuf Hhs Hstart. unfold parseDataArray.
  rewrite decide_True by done. rewrite Hoff, Hbuf.
  fold (resolved_start appendedMap off).
  destruct (len buf <=? _); [done|].
  destruct (len buf <? _) eqn:Hh; [done|]. apply Z.ltb_ge in Hh.
  rewrite read_header_little_endian by done.
  by destruct (len buf <? _).
Qed.

(** A field is emitted only with data. *)
Lemma add_field_not_empty appendedMap headerSize da fields fields' :
  add_field' appendedMap headerSize da fields = Returned fields' →
  Forall (fun f => data f ≠ []) fields → Forall (fun f => data f ≠ []) fields'.
Proof.
  unfold add_field. intros Hadd Hall.
  destruct (decide (NumberOfComponents da = Some 1)); [|by injection Hadd as <-].
  destruct (parseDataArray' da appendedMap headerSize) as [[arr|]|];
    [|by injection Hadd as <-|done].
  destruct (extrema (array_from arr)) as [mn mx].
  destruct (0 <? len (array_from arr)) eqn:Hlen; [|by injection Hadd as <-].
  injection Hadd as <-. apply Forall_app. split; [done|].
  apply Forall_singleton. simpl. apply Z.ltb_lt in Hlen.
  intros Hnil. rewrite Hnil in Hlen. unfold len in Hlen. simpl in Hlen. lia.
Qed.

(** An array that yields [null] leaves the other fields as they are. *)
Lemma add_fields_skips_null appendedMap headerSize das1 da das2 fields :
  parseDataArray' da appendedMap headerSize = Returned None →
  add_fields' appendedMap headerSize (das1 ++ da :: das2) fields
  = add_fields' appendedMap headerSize (das1 ++ das2) fields.
Proof.
  intros Hnull. revert fields. induction das1 as [|d das1 IH]; intros fields.
  - simpl. unfold add_field. rewrite Hnull.
    by destruct (decide (NumberOfComponents da = Some 1)).
  - simpl. destruct (add_field' appendedMap headerSize d fields); [apply IH|done].
Qed.

(** A point-data array with malformed base64 changes nothing else in the
    result of [parse]: the geometry is the one of the same document
    without that array. *)
Lemma xml_parse_bad_base64 headerSize appendedMap p das1 da das2 :
  format da = Some "binary" → atob (text da) = None →
  xml_parse' headerSize appendedMap (with_point_data p (das1 ++ da :: das2))
  = xml_parse' headerSize appendedMap (with_point_data p (das1 ++ das2)).
Proof.
  intros Hfmt Hatob. unfold xml_parse, with_point_data. simpl.
  by rewrite (add_fields_skips_null appendedMap headerSize das1 da das2 [])
    by (by apply parseDataArray_bad_base64).
Qed.

Lemma parseDataArray_before_buffer :
  parseDataArray' array_before_buffer sample_appended 4 = Thrown.
Proof. reflexivity. Qed.

Lemma xml_parse_before_buffer (p : piece) :
  xml_parse' 4 sample_appended (with_point_data p [array_before_buffer]) = Thrown.
Proof.
  unfold xml_parse, with_point_data. simpl.
  destruct (pointsElement p) as [pe|]; [|done].
  destruct (parseDataArray' pe sample_appended 4) as [[pts|]|]; [|done|done].
  destruct (cellsElement p) as [[[c|] [o|] [t|]]|]; try done.
  destruct (parseDataArray' c sample_appended 4); [|done].
  destruct (parseDataArray' o sample_appended 4); [|done].
  by destruct (parseDataArray' t sample_appended 4).
Qed.
End one_array.

(** C6.  An appended array whose offset lies before the buffer is not
    answered by [null]: the header read throws, [parseDataArray] throws,
    and so does [parse] for every document that has this array among its
    point data. *)
Theorem C6_offset_before_buffer_throws
    (atob : string → option (list byte))
    (createTypedArray : option string → list byte → typedArray)
    (parseAscii : option string → string → typedArray) (p : piece) :
  parseDataArray atob createTypedArray parseAscii array_before_buffer sample_appended 4
  = Thrown
  ∧ xml_parse atob createTypedArray parseAscii 4 sample_appended
      (with_point_data p [array_before_buffer])
    = Thrown.
Proof.
  split; [apply parseDataArray_before_buffer|apply xml_parse_before_buffer].
Qed.

(** *** Fields of the legacy loader *)

(** C7.  The legacy loader emits a field without data: in a file without
    points, a [SCALARS] block followed by a line that holds no number is
    sealed at once, with no value, minimum [Infinity] and maximum
    [-Infinity]. *)
Theorem C7_legacy_emits_empty_field :
  read_lines scalars_without_values initial_lines
  = Returned
      (MkLines POINT_DATA SUB_NONE (Some 0) (Some 0) 0 [] [] [] None
               [MkField (Some "s") PosInf NegInf []] []).
Proof. reflexivity. Qed.

(** *** Poly-data *)

(** On a buffer made of whole cells the walk recovers the cells. *)
Lemma legacy_cells_well_formed (pre : list Z) cells cellTypes i :
  legacy_cells (length cells) i (len pre) (pre ++ cell_buffer cells) cellTypes
  = imap (fun k c => (int_at cellTypes (i + Z.of_nat k), JNum <$> c)) cells.
Proof.
  revert pre i. induction cells as [|c cells IH]; intros pre i; [done|].
  cbn [length legacy_cells imap]. unfold cell_buffer. cbn [flat_map].
  fold (cell_buffer cells).
  set (raw := pre ++ (len c :: c) ++ cell_buffer cells).
  assert (len raw = len pre + 1 + len c + len (cell_buffer cells)) as Hlen.
  { subst raw. unfold len. rewrite !length_app. simpl. rewrite ?length_app. lia. }
  assert (0 ≤ len (cell_buffer cells)) as Hrest by (unfold len; lia).
  assert (0 ≤ len c) as Hc by (unfold len; lia).
  rewrite (proj2 (Z.leb_gt _ _)) by lia.
  assert (int_at raw (len pre) = len c) as ->.
  { unfold int_at, raw. unfold len at 1. rewrite Nat2Z.id.
    rewrite lookup_app_r by done. by rewrite Nat.sub_diag. }
  f_equal.
  - f_equal; [f_equal; lia|]. f_equal.
    replace (Z.to_nat (len pre + 1)) with (length (pre ++ [len c]))
      by (rewrite length_app; unfold len; simpl; lia).
    subst raw. replace (pre ++ (len c :: c) ++ cell_buffer cells)
      with ((pre ++ [len c]) ++ c ++ cell_buffer cells)
      by (by rewrite <- app_assoc).
    rewrite drop_app_length. unfold len. rewrite Nat2Z.id. by rewrite take_app_length.
  - replace (Z.min (len raw) (len pre + 1 + Z.max 0 (len c)))
      with (len (pre ++ len c :: c))
      by (unfold len in *; rewrite length_app; simpl; lia).
    subst raw. replace (pre ++ (len c :: c) ++ cell_buffer cells)
      with ((pre ++ len c :: c) ++ cell_buffer cells)
      by (by rewrite <- app_assoc).
    rewrite IH. apply imap_ext. intros k x _. simpl. do 2 f_equal. lia.
Qed.

(** C8.  Without [CELL_TYPES] and with raw cell data, the type of a cell
    comes from its arity prefix alone: 1 gives 1 (Vertex), 2 gives 3
    (Line), 3 gives 5 (Triangle), 4 gives 9 (Quad), 5 or more gives 7
    (Polygon), and a buffer of whole cells gets one such type per cell.
    For a buffer of two-point lines only: every cell gets type 3, all of
    them are walked and none yields a triangle, and the loader returns a
    geometry without index buffer and with an empty cell-ID map. *)
Theorem C8_polydata_types_from_arity
    (points : list (option num)) (lines : list (Z * Z)) (fuel : nat) (numCells : Z)
    (pd cd : list ScalarField) (n : Z) :
  lines ≠ [] → (length lines < fuel)%nat → 5 ≤ n →
  (infer_type 1 = 1 ∧ infer_type 2 = 3 ∧ infer_type 3 = 5 ∧ infer_type 4 = 9
   ∧ infer_type n = 7)
  ∧ (∀ cells : list (list Z),
       cells ≠ [] → (length cells < fuel)%nat →
       infer_types fuel (cell_buffer cells) [] numCells
       = Some ((fun c => infer_type (len c)) <$> cells, len cells))
  ∧ infer_types fuel (lines_buffer lines) [] numCells
    = Some (replicate (length lines) 3, len lines)
  ∧ length (calls (lwalk (legacy_walk (lines_buffer lines)
                            (replicate (length lines) 3) (len lines))))
    = length lines
  ∧ Forall (fun c => c.1 = 3 ∧ cell_triangles c = [])
           (calls (lwalk (legacy_walk (lines_buffer lines)
                            (replicate (length lines) 3) (len lines))))
  ∧ legacy_finish fuel points (lines_buffer lines) [] numCells pd cd
    = Some (MkGeometry points None (MkVTKData pd cd [])).
Proof.
  intros Hne Hfuel Hn.
  assert (infer_types fuel (lines_buffer lines) [] numCells
          = Some (replicate (length lines) 3, len lines)) as Hinfer.
  { unfold lines_buffer. rewrite infer_types_cells.
    - rewrite lines_buffer_cells. unfold len. by rewrite length_fmap.
    - by destruct lines.
    - by rewrite length_fmap. }
  destruct (lines_walk_empty lines) as (Hall & Hind & Hmap).
  split; [|split; [|split; [|split; [|split]]]].
  - repeat split; try done. unfold infer_type.
    by rewrite !(proj2 (Z.eqb_neq n _)) by lia.
  - intros cells Hc Hf. by apply infer_types_cells.
  - done.
  - destruct (legacy_walk_run (lines_buffer lines) (replicate (length lines) 3)
                (len lines)) as (-> & _).
    unfold len at 1 2. rewrite length_replicate, Z.min_id, Nat2Z.id.
    pose proof (legacy_cells_well_formed [] ((fun '(a, b) => [a; b]) <$> lines)
                  (replicate (length lines) 3) 0) as Hwf.
    rewrite length_fmap in Hwf. cbn [app] in Hwf.
    change (len (@nil Z)) with 0 in Hwf. unfold lines_buffer.
    rewrite Hwf. by rewrite length_imap, length_fmap.
  - done.
  - unfold legacy_finish. rewrite Hinfer. simpl. unfold build_geometry.
    by rewrite Hind, Hmap.
Qed.

Lemma C8_witness :
  (infer_type 1 = 1 ∧ infer_type 2 = 3 ∧ infer_type 3 = 5 ∧ infer_type 4 = 9
   ∧ infer_type 6 = 7)
  ∧ (∀ cells : list (list Z),
       cells ≠ [] → (length cells < 3)%nat →
       infer_types 3 (cell_buffer cells) [] 0
       = Some ((fun c => infer_type (len c)) <$> cells, len cells))
  ∧ infer_types 3 (lines_buffer [(0, 1); (1, 2)]) [] 0
    = Some (replicate (length [(0, 1); (1, 2)]) 3, len [(0, 1); (1, 2)])
  ∧ length (calls (lwalk (legacy_walk (lines_buffer [(0, 1); (1, 2)])
                            (replicate (length [(0, 1); (1, 2)]) 3)
                            (len [(0, 1); (1, 2)]))))
    = length [(0, 1); (1, 2)]
  ∧ Forall (fun c => c.1 = 3 ∧ cell_triangles c = [])
           (calls (lwalk (legacy_walk (lines_buffer [(0, 1); (1, 2)])
                            (replicate (length [(0, 1); (1, 2)]) 3)
                            (len [(0, 1); (1, 2)]))))
  ∧ legacy_finish 3 no_points (lines_buffer [(0, 1); (1, 2)]) [] 0 [] []
    = Some (MkGeometry no_points None (MkVTKData [] [] [])).
Proof.
  apply (C8_polydata_types_from_arity no_points [(0, 1); (1, 2)] 3 0 [] [] 6).
  - discriminate.
  - simpl. lia.
  - lia.
Defined.

(** *** Termination of the type inference *)

Lemma nonneg_buffer_prefixes cellDataRaw :
  Forall (fun v => 0 ≤ v) cellDataRaw →
  ∀ index nPts, visited cellDataRaw index → index < len cellDataRaw →
                int_get cellDataRaw index = JNum nPts → 0 ≤ nPts.
Proof.
  intros Hall index nPts _ _ Hget. unfold int_get in Hget.
  destruct (index <? 0); [done|].
  destruct (cellDataRaw !! Z.to_nat index) as [v|] eqn:Hv; [|done].
  injection Hget as <-. by eapply (Forall_lookup_1 _ _ _ _ Hall).
Qed.

(** C10.  The inference loop moves its read position by the arity prefix
    plus one at every turn.  When every prefix it meets is nonnegative it
    ends within [cellDataRaw.length + 1] tests of its condition.  The
    condition on the prefixes cannot be dropped: a negative prefix makes
    the step nonpositive, and on the buffer [[-1]] the loop never ends. *)
Theorem C10_infer_loop_terminates (cellDataRaw : list Z) :
  (∀ index nPts, visited cellDataRaw index → index < len cellDataRaw →
                 int_get cellDataRaw index = JNum nPts → 0 ≤ nPts) →
  (∀ fuel cellTypes, (length cellDataRaw < fuel)%nat →
                     is_Some (infer_loop fuel cellDataRaw 0 cellTypes))
  ∧ (∀ fuel index nPts cellTypes,
       index < len cellDataRaw → int_get cellDataRaw index = JNum nPts →
       infer_loop (S fuel) cellDataRaw index cellTypes
       = infer_loop fuel cellDataRaw (index + (nPts + 1))
                    (cellTypes ++ [infer_type nPts]))
  ∧ (∀ index nPts, nPts < 0 → index + (nPts + 1) ≤ index)
  ∧ (∀ fuel cellTypes, infer_loop fuel [-1] 0 cellTypes = None).
Proof.
  intros Hnonneg. split; [|split; [|split]].
  - intros fuel tys Hfuel.
    apply (infer_loop_terminates cellDataRaw Hnonneg);
      [apply visited_start|done|unfold len; lia].
  - intros fuel index nPts tys Hlt Hget. simpl.
    by rewrite (proj2 (Z.ltb_lt _ _) Hlt), Hget.
  - intros. lia.
  - intros. apply infer_loop_stuck.
Qed.

Lemma C10_witness :
  (∀ fuel cellTypes, (length [2; 7; 8; 0] < fuel)%nat →
                     is_Some (infer_loop fuel [2; 7; 8; 0] 0 cellTypes))
  ∧ (∀ fuel index nPts cellTypes,
       index < len [2; 7; 8; 0] → int_get [2; 7; 8; 0] index = JNum nPts →
       infer_loop (S fuel) [2; 7; 8; 0] index cellTypes
       = infer_loop fuel [2; 7; 8; 0] (index + (nPts + 1))
                    (cellTypes ++ [infer_type nPts]))
  ∧ (∀ index nPts, nPts < 0 → index + (nPts + 1) ≤ index)
  ∧ (∀ fuel cellTypes, infer_loop fuel [-1] 0 cellTypes = None).
Proof.
  apply (C10_infer_loop_terminates [2; 7; 8; 0]).
  apply nonneg_buffer_prefixes. repeat constructor; lia.
Defined.

(** * The scenarios of the specification *)

Example hexahedron_run :
  call_triangulateCell 12 (JNum <$> [10; 11; 12; 13; 14; 15; 16; 17]) [JNum 7]
  = (JNum <$> [7; 10; 11; 15; 10; 15; 14; 11; 12; 16; 11; 16; 15;
               12; 13; 17; 12; 17; 16; 13; 10; 14; 13; 14; 17;
               10; 13; 12; 10; 12; 11; 14; 15; 16; 14; 16; 17], 12).
Proof. vm_compute. reflexivity. Qed.

Example polygon_run :
  call_triangulateCell 7 (JNum <$> [4; 5; 6; 7; 8]) []
  = (JNum <$> [4; 5; 6; 4; 6; 7; 4; 7; 8], 3).
Proof. vm_compute. reflexivity. Qed.

(** [POINTS 3 / 0 0 0 / 1 0 0 / 0 1 0 / CELLS 1 4 / 3 0 1 2 / CELL_TYPES 1 / 5] *)
Example legacy_one_triangle :
  legacy_parse 1
    [KwPoints (Some 3);
     Other [Fin 0; Fin 0; Fin 0]; Other [Fin 1; Fin 0; Fin 0]; Other [Fin 0; Fin 1; Fin 0];
     KwCells (Some 1); Other [Fin 3; Fin 0; Fin 1; Fin 2];
     KwCellTypes; Other [Fin 5]]
  = Some (Returned
            (MkGeometry
               (Some <$> [Fin 0; Fin 0; Fin 0; Fin 1; Fin 0; Fin 0; Fin 0; Fin 1; Fin 0])
               (Some (JNum <$> [0; 1; 2]))
               (MkVTKData [] [] [0]))).
Proof. vm_compute. reflexivity. Qed.

(** The same with a quad cell: [CELLS 1 5 / 4 0 1 2 3 / CELL_TYPES 1 / 9]. *)
Example legacy_one_quad :
  legacy_parse 1
    [KwPoints (Some 4);
     Other [Fin 0; Fin 0; Fin 0; Fin 1; Fin 0; Fin 0];
     Other [Fin 1; Fin 1; Fin 0; Fin 0; Fin 1; Fin 0];
     KwCells (Some 1); Other [Fin 4; Fin 0; Fin 1; Fin 2; Fin 3];
     KwCellTypes; Other [Fin 9]]
  = Some (Returned
            (MkGeometry
               (Some <$> [Fin 0; Fin 0; Fin 0; Fin 1; Fin 0; Fin 0;
                          Fin 1; Fin 1; Fin 0; Fin 0; Fin 1; Fin 0])
               (Some (JNum <$> [0; 1; 2; 0; 2; 3]))
               (MkVTKData [] [] [0; 0]))).
Proof. vm_compute. reflexivity. Qed.

(** Two cells in an XML walk: a triangle, then a quad. *)
Example xml_walk_two_cells :
  xml_walk 2 [0; 1; 2; 0; 2; 3; 4] [3; 7] [5; 9]
  = MkWalk (JNum <$> [0; 1; 2; 0; 2; 3; 0; 3; 4]) [0; 1; 1]
           [(5, JNum <$> [0; 1; 2]); (9, JNum <$> [0; 2; 3; 4])].
Proof. vm_compute. reflexivity. Qed.

(** Fewer raw values than the declared cells need: the second cell is cut
    at the end of the buffer and the third is not read. *)
Example legacy_walk_short_buffer :
  legacy_walk [3; 0; 1; 2; 4; 1; 2] [5; 9; 5] 3
  = MkLegacy 7
      (MkWalk (JNum <$> [0; 1; 2]) [0]
              [(5, JNum <$> [0; 1; 2]); (9, JNum <$> [1; 2])])
      [0; 1; 2; 3; 4; 5; 6].
Proof. vm_compute. reflexivity. Qed.

(** A poly-data file with [LINES] only:
    [POINTS 3 / ... / LINES 2 6 / 2 0 1 / 2 1 2]. *)
Example legacy_lines_only :
  legacy_parse 3
    [KwPoints (Some 3);
     Other [Fin 0; Fin 0; Fin 0; Fin 1; Fin 0; Fin 0; Fin 0; Fin 1; Fin 0];
     KwLines; Other [Fin 2; Fin 0; Fin 1]; Other [Fin 2; Fin 1; Fin 2]]
  = Some (Returned
            (MkGeometry
               (Some <$> [Fin 0; Fin 0; Fin 0; Fin 1; Fin 0; Fin 0; Fin 0; Fin 1; Fin 0])
               None
               (MkVTKData [] [] []))).
Proof. vm_compute. reflexivity. Qed.

(** The inference knows arities, not sections: a polyline of three points
    in a [LINES] section is typed as a triangle. *)
Example polyline_of_three_points :
  legacy_finish 2 no_points [3; 0; 1; 2] [] 0 [] []
  = Some (MkGeometry no_points (Some (JNum <$> [0; 1; 2])) (MkVTKData [] [] [0])).
Proof. vm_compute. reflexivity. Qed.

(** After a negative offset the range of the next cell starts below 0,
    where [connectivity[k]] is [undefined]. *)
Example xml_walk_negative_offset :
  calls (xml_walk 2 [7; 8; 9] [-1; 2] [5; 5])
  = [(5, []); (5, [JUndefined; JNum 7; JNum 8])].
Proof. vm_compute. reflexivity. Qed.

(** NaN passes both comparisons of the extrema loop. *)
Example extrema_of_nan :
  extrema [NaN] = (PosInf, NegInf)
  ∧ extrema [Fin 1; NaN; Fin 3] = (Fin 1, Fin 3).
Proof. split; vm_compute; reflexivity. Qed.

(** * Further properties of the code *)

(** ** The engine *)

Lemma js_get_elem_of (a : list jsval) (k : Z) :
  0 ≤ k < len a → js_get a k ∈ a.
Proof.
  intros Hk. unfold js_get. rewrite (proj2 (Z.ltb_ge k 0)) by lia.
  destruct (lookup_lt_is_Some_2 a (Z.to_nat k)) as [x Hx]; [unfold len in Hk; lia|].
  rewrite Hx. simpl. by eapply list_elem_of_lookup_2.
Qed.

Lemma select_elem_of ci ts :
  Forall (fun '(a, b, c) => 0 ≤ a < len ci ∧ 0 ≤ b < len ci ∧ 0 ≤ c < len ci) ts →
  select ci ts ⊆ ci.
Proof.
  induction 1 as [|[[a b] c] ts (Ha & Hb & Hc) _ IH]; intros x Hx; simpl in Hx.
  - by apply elem_of_nil in Hx.
  - repeat (apply elem_of_cons in Hx as [->|Hx]; [by apply js_get_elem_of|]).
    by apply IH.
Qed.

Lemma rule_in_range type n m :
  min_arity type = Some m → m ≤ n →
  Forall (fun '(a, b, c) => 0 ≤ a < n ∧ 0 ≤ b < n ∧ 0 ≤ c < n) (rule type n).
Proof.
  unfold min_arity, rule.
  repeat (destruct (type =? _);
          [intros [= <-] Hn; try (repeat constructor; lia)|]); [|done].
  apply Forall_fmap, Forall_forall. intros k Hk. apply elem_of_seqZ in Hk. simpl. lia.
Qed.

Lemma triangles_of_subseteq type ci : triangles_of type ci ⊆ ci.
Proof.
  unfold triangles_of. destruct (min_arity type) as [m|] eqn:Hm;
    [|intros x Hx; by apply elem_of_nil in Hx].
  destruct (m <=? len ci) eqn:Hn; [|intros x Hx; by apply elem_of_nil in Hx].
  apply Z.leb_le in Hn. apply select_elem_of. by eapply rule_in_range.
Qed.

(** X1.  Whatever the type and the cell, what [triangulateCell] appends
    to the output is made of elements of the cell's own list, three per
    triangle counted: it reads no position outside the list and so never
    pushes [undefined] of its own. *)
Theorem X1_pushed_ids_come_from_cell type cellIndices indices :
  ∃ pushed,
    (call_triangulateCell type cellIndices indices).1 = indices ++ pushed
    ∧ pushed ⊆ cellIndices
    ∧ len pushed = 3 * (call_triangulateCell type cellIndices indices).2.
Proof.
  exists (triangles_of type cellIndices). rewrite call_triangulateCell_eq. simpl.
  split; [done|]. split; [apply triangles_of_subseteq|].
  destruct (length_triangles_of type cellIndices) as [k Hk].
  unfold len. rewrite Hk, Nat2Z.inj_mul. simpl.
  rewrite (Z.mul_comm 3), Z.div_mul by done. lia.
Qed.

Lemma js_get_app_l (a b : list jsval) (k : Z) :
  0 ≤ k < len a → js_get (a ++ b) k = js_get a k.
Proof.
  intros Hk. unfold js_get. rewrite (proj2 (Z.ltb_ge k 0)) by lia.
  rewrite lookup_app_l by (unfold len in Hk; lia). done.
Qed.

Lemma select_app_l ci extra ts :
  Forall (fun '(a, b, c) => 0 ≤ a < len ci ∧ 0 ≤ b < len ci ∧ 0 ≤ c < len ci) ts →
  select (ci ++ extra) ts = select ci ts.
Proof.
  induction 1 as [|[[a b] c] ts (Ha & Hb & Hc) _ IH]; [done|].
  unfold select in *. simpl. rewrite IH. by rewrite !js_get_app_l.
Qed.

Lemma rule_fixed_arity type n n' : type ≠ 7 → rule type n = rule type n'.
Proof.
  intros H7. unfold rule. destruct (type =? 5); [done|].
  by rewrite (proj2 (Z.eqb_neq type 7)).
Qed.

(** X2.  For the types of fixed arity (all of the table but the polygon)
    the vertices of a cell beyond the type's arity are ignored: a cell
    with ids added at its end gives the same output and the same count. *)
Theorem X2_vertices_beyond_arity_ignored type cellIndices extra indices m :
  min_arity type = Some m → type ≠ 7 → m ≤ len cellIndices →
  call_triangulateCell type (cellIndices ++ extra) indices
  = call_triangulateCell type cellIndices indices.
Proof.
  intros Hm H7 Hn. rewrite !call_triangulateCell_eq.
  assert (triangles_of type (cellIndices ++ extra) = triangles_of type cellIndices) as ->;
    [|done].
  unfold triangles_of. rewrite Hm.
  rewrite (proj2 (Z.leb_le m (len cellIndices))) by done.
  rewrite (proj2 (Z.leb_le m (len (cellIndices ++ extra))))
    by (unfold len in *; rewrite length_app; lia).
  rewrite (rule_fixed_arity type (len (cellIndices ++ extra)) (len cellIndices)) by done.
  apply select_app_l. by eapply rule_in_range.
Qed.

Lemma X2_witness :
  call_triangulateCell 9 ((JNum <$> [4; 5; 6; 7]) ++ [JNum 8; JNum 9]) [JNum 1]
  = call_triangulateCell 9 (JNum <$> [4; 5; 6; 7]) [JNum 1].
Proof.
  apply (X2_vertices_beyond_arity_ignored 9 (JNum <$> [4; 5; 6; 7]) [JNum 8; JNum 9]
           [JNum 1] 4).
  - reflexivity.
  - lia.
  - vm_compute. discriminate.
Defined.

Lemma polygon_loop_same_array fuel (a : Engine.loc) (s : Engine.store) k :
  0 ≤ k < len (Engine.arr s a) - 1 →
  Engine.polygon_loop fuel a a k s = None.
Proof.
  revert s k. induction fuel as [|fuel IH]; intros s k Hk; [done|].
  simpl. unfold Engine.bind at 1. unfold Engine.length_of at 1.
  rewrite (proj2 (Z.ltb_lt _ _)) by lia.
  unfold Engine.bind at 1.
  unfold Engine.push3, Engine.bind, Engine.read, Engine.push.
  apply IH. unfold Engine.arr at 1. rewrite lookup_insert_eq. simpl.
  unfold len in *. rewrite length_app. simpl. lia.
Qed.

(** X3.  When one and the same array is passed as the cell and as the
    output, a polygon of three or more ids is never finished: every
    triangle pushed lengthens the list that bounds the loop, and the call
    does not return. *)
Theorem X3_polygon_on_shared_array_diverges fuel (a : Engine.loc) (s : Engine.store) :
  3 ≤ len (Engine.arr s a) →
  Engine.triangulateCell fuel 7 a a s = None.
Proof.
  intros Hn. unfold Engine.triangulateCell, Engine.bind.
  unfold Engine.length_of at 1.
  unfold Engine.switch_type. simpl.
  unfold Engine.if_length_ge, Engine.bind. unfold Engine.length_of at 1.
  rewrite (proj2 (Z.leb_le _ _) Hn).
  rewrite polygon_loop_same_array by lia. done.
Qed.

Lemma X3_witness :
  Engine.triangulateCell 100 7 0%nat 0%nat (two_arrays [JNum 4; JNum 5; JNum 6] [])
  = None.
Proof.
  apply (X3_polygon_on_shared_array_diverges 100 0%nat).
  vm_compute. discriminate.
Defined.

(** ** Cell walks *)

Lemma sorted_replicate_app n (x : Z) rest :
  StronglySorted Z.le rest → Forall (fun y => x ≤ y) rest →
  StronglySorted Z.le (replicate n x ++ rest).
Proof.
  intros Hs Hall. induction n as [|n IH]; [done|]. simpl.
  constructor; [done|]. apply Forall_app. split; [|done].
  apply Forall_replicate. lia.
Qed.

Lemma numbered_ids_in_order cs (k : nat) :
  let ids := concat (imap (fun i c => replicate (cell_count c) (Z.of_nat (k + i))) cs) in
  StronglySorted Z.le ids
  ∧ Forall (fun id => Z.of_nat k ≤ id < Z.of_nat k + len cs) ids.
Proof.
  revert k. induction cs as [|c cs IH]; intros k; simpl; [split; constructor|].
  unfold compose.
  rewrite (imap_shift (fun j c => replicate (cell_count c) (Z.of_nat j))).
  destruct (IH (S k)) as [Hs Hall]. rewrite Nat.add_0_r. split.
  - apply sorted_replicate_app; [done|].
    eapply Forall_impl; [exact Hall|]. simpl. intros; lia.
  - apply Forall_app. split.
    + apply Forall_replicate. unfold len. simpl. lia.
    + eapply Forall_impl; [exact Hall|]. simpl. unfold len. simpl. intros; lia.
Qed.

Lemma numbered_in_order w n :
  numbered w → len (calls w) ≤ n → ids_in_order (cellIdMap w) n.
Proof.
  intros [_ Hm] Hn. destruct (numbered_ids_in_order (calls w) 0) as [Hs Hall].
  simpl in Hs, Hall. rewrite <- Hm in Hs, Hall. split; [done|].
  eapply Forall_impl; [exact Hall|]. simpl. intros; lia.
Qed.

Lemma length_legacy_cells n i p cellDataRaw cellTypes :
  (length (legacy_cells n i p cellDataRaw cellTypes) ≤ n)%nat.
Proof.
  revert i p. induction n as [|n IH]; intros i p; simpl; [done|].
  destruct (len cellDataRaw <=? p); simpl; [lia|].
  specialize (IH (i + 1)
                (Z.min (len cellDataRaw) (p + 1 + Z.max 0 (int_at cellDataRaw p)))).
  lia.
Qed.

(** X4.  In the cell-ID map of either loader the entries never decrease
    along the map, none is negative, and each is below the number of cells
    that the walk may visit: [min(numberOfCells, offsets.length,
    types.length)] for the XML loader, [min(numCells, cellTypes.length)]
    for the legacy loader. *)
Theorem X4_cell_id_map_sorted_and_bounded :
  (∀ numberOfCells connectivity offsets types,
     ids_in_order (cellIdMap (xml_walk numberOfCells connectivity offsets types))
                  (Z.min numberOfCells (Z.min (len offsets) (len types))))
  ∧ (∀ cellDataRaw cellTypes numCells,
     ids_in_order (cellIdMap (lwalk (legacy_walk cellDataRaw cellTypes numCells)))
                  (Z.min numCells (len cellTypes))).
Proof.
  split.
  - intros n c o t. destruct (xml_walk_run n c o t) as [Hnum Hcalls].
    destruct (numbered_in_order _ (len (calls (xml_walk n c o t))) Hnum ltac:(lia))
      as [Hs Hall].
    split; [done|]. eapply Forall_impl; [exact Hall|]. simpl. intros id Hid.
    rewrite Hcalls in Hid. unfold xml_cells, len in Hid.
    rewrite length_fmap, length_seqZ in Hid. unfold len. lia.
  - intros r t n. destruct (legacy_walk_run r t n) as (Hcalls & Hnum & _ & _).
    destruct (numbered_in_order _ (len (calls (lwalk (legacy_walk r t n)))) Hnum
                ltac:(lia)) as [Hs Hall].
    split; [done|]. eapply Forall_impl; [exact Hall|]. simpl. intros id Hid.
    rewrite Hcalls in Hid.
    pose proof (length_legacy_cells (Z.to_nat (Z.min n (len t))) 0 0 r t).
    unfold len in *. lia.
Qed.

Lemma int_at_app_r (a : list Z) (x : Z) rest :
  int_at (a ++ x :: rest) (len a) = x.
Proof.
  unfold int_at, len. rewrite Nat2Z.id, lookup_app_r by done.
  by rewrite Nat.sub_diag.
Qed.

(** The cells of the XML walk from cell [len offs_pre] on, when the
    arrays continue with the encoding of [cells]. *)
Lemma xml_cells_encoded (pre offs_pre tys_pre : list Z) cells :
  len tys_pre = len offs_pre →
  running_start (offs_pre ++ cell_offsets (len pre) cells) (len offs_pre) = len pre →
  (fun i => (int_at (tys_pre ++ cell_types cells) i,
             range_entries (pre ++ cell_connectivity cells)
               (running_start (offs_pre ++ cell_offsets (len pre) cells) i)
               (int_at (offs_pre ++ cell_offsets (len pre) cells) i)))
    <$> seqZ (len offs_pre) (len cells)
  = cell_calls cells.
Proof.
  revert pre offs_pre tys_pre.
  induction cells as [|[t ids] cells IH]; intros pre offs_pre tys_pre Hlen Hstart;
    [done|].
  replace (len ((t, ids) :: cells)) with (Z.succ (len cells))
    by (unfold len; simpl; lia).
  rewrite seqZ_cons by (unfold len; lia). rewrite Z.pred_succ.
  rewrite fmap_cons. unfold cell_calls. rewrite fmap_cons. f_equal.
  - rewrite Hstart. cbn [cell_offsets cell_types cell_connectivity flat_map fmap list_fmap].
    simpl fst. simpl snd. rewrite <- Hlen at 1. rewrite int_at_app_r.
    rewrite (int_at_app_r offs_pre). f_equal.
    rewrite range_entries_slice by (unfold len; lia).
    replace (len pre + len ids - len pre) with (len ids) by lia.
    unfold len. rewrite !Nat2Z.id. rewrite drop_app_length.
    by rewrite take_app_length.
  - cbn [cell_offsets cell_types cell_connectivity flat_map fmap list_fmap].
    simpl fst. simpl snd. fold (cell_connectivity cells). fold (cell_types cells).
    specialize (IH (pre ++ ids) (offs_pre ++ [len pre + len ids]) (tys_pre ++ [t])).
    assert (len (pre ++ ids) = len pre + len ids) as Hpre
      by (unfold len; rewrite length_app; lia).
    assert (len (offs_pre ++ [len pre + len ids]) = Z.succ (len offs_pre)) as Hoffs
      by (unfold len; rewrite length_app; simpl; lia).
    rewrite Hpre, Hoffs in IH. rewrite <- !app_assoc in IH. simpl in IH.
    unfold cell_calls in IH. rewrite <- IH; [done| |].
    + unfold len in *. rewrite !length_app. simpl. lia.
    + unfold running_start. rewrite (proj2 (Z.eqb_neq _ 0)) by (unfold len; lia).
      replace (Z.succ (len offs_pre) - 1) with (len offs_pre) by lia.
      apply int_at_app_r.
Qed.

Lemma length_cell_offsets start cells : length (cell_offsets start cells) = length cells.
Proof.
  revert start. induction cells as [|c cells IH]; intros start; simpl; [done|].
  by rewrite IH.
Qed.

(** X5.  Round trip of the XML cell arrays: cells written as
    [connectivity] (their ids in a row), [offsets] (the running ends) and
    [types] are handed to the engine one by one, each with its type and
    exactly its ids, whenever the declared cell count is not below their
    number; the index buffer is then the triangles of these cells in
    order. *)
Theorem X5_xml_walk_recovers_cells (cells : list (Z * list Z)) (more : nat) :
  calls (xml_walk (len cells + Z.of_nat more) (cell_connectivity cells)
                  (cell_offsets 0 cells) (cell_types cells))
  = cell_calls cells
  ∧ indices (xml_walk (len cells + Z.of_nat more) (cell_connectivity cells)
                      (cell_offsets 0 cells) (cell_types cells))
    = flat_map cell_triangles (cell_calls cells).
Proof.
  destruct (xml_walk_run (len cells + Z.of_nat more) (cell_connectivity cells)
              (cell_offsets 0 cells) (cell_types cells)) as [[Hind _] Hcalls].
  assert (calls (xml_walk (len cells + Z.of_nat more) (cell_connectivity cells)
                   (cell_offsets 0 cells) (cell_types cells)) = cell_calls cells) as Heq.
  { rewrite Hcalls. unfold xml_cells.
    replace (Z.min (len cells + Z.of_nat more)
               (Z.min (len (cell_offsets 0 cells)) (len (cell_types cells))))
      with (len cells)
      by (unfold len, cell_types; rewrite length_cell_offsets, length_fmap; lia).
    apply (xml_cells_encoded [] [] [] cells); done. }
  split; [done|]. by rewrite Hind, Heq.
Qed.

(** The groups of the legacy walk on a buffer of whole cells, for a cell
    count that is not below their number. *)
Lemma legacy_cells_recovered (pre : list Z) (cells : list (Z * list Z)) tys_pre more :
  legacy_cells (length cells + more) (len tys_pre) (len pre)
               (pre ++ cell_buffer (snd <$> cells)) (tys_pre ++ cell_types cells)
  = cell_calls cells.
Proof.
  revert pre tys_pre. induction cells as [|[t ids] cells IH]; intros pre tys_pre.
  - simpl. rewrite app_nil_r. destruct more; simpl; [done|].
    by rewrite (proj2 (Z.leb_le _ _)) by lia.
  - cbn [length Nat.add legacy_cells]. rewrite fmap_cons.
    unfold cell_buffer. cbn [flat_map]. fold (cell_buffer (snd <$> cells)).
    simpl snd. unfold cell_types. rewrite fmap_cons. fold (cell_types cells). simpl fst.
    set (raw := pre ++ (len ids :: ids) ++ cell_buffer (snd <$> cells)).
    assert (len raw = len pre + 1 + len ids + len (cell_buffer (snd <$> cells))) as Hlen.
    { subst raw. unfold len. rewrite !length_app. simpl. rewrite ?length_app. lia. }
    assert (0 ≤ len (cell_buffer (snd <$> cells))) by (unfold len; lia).
    assert (0 ≤ len ids) by (unfold len; lia).
    rewrite (proj2 (Z.leb_gt _ _)) by lia.
    assert (int_at raw (len pre) = len ids) as -> by apply int_at_app_r.
    rewrite int_at_app_r. unfold cell_calls. rewrite fmap_cons. simpl. f_equal.
    + f_equal. f_equal.
      replace (Z.to_nat (len pre + 1)) with (length (pre ++ [len ids]))
        by (rewrite length_app; unfold len; simpl; lia).
      subst raw. replace (pre ++ (len ids :: ids) ++ cell_buffer (snd <$> cells))
        with ((pre ++ [len ids]) ++ ids ++ cell_buffer (snd <$> cells))
        by (by rewrite <- app_assoc).
      rewrite drop_app_length. unfold len. rewrite Nat2Z.id. by rewrite take_app_length.
    + replace (Z.min (len raw) (len pre + 1 + Z.max 0 (len ids)))
        with (len (pre ++ len ids :: ids))
        by (unfold len in *; rewrite length_app; simpl; lia).
      replace (len tys_pre + 1) with (len (tys_pre ++ [t]))
        by (unfold len; rewrite length_app; simpl; lia).
      subst raw. replace (pre ++ (len ids :: ids) ++ cell_buffer (snd <$> cells))
        with ((pre ++ len ids :: ids) ++ cell_buffer (snd <$> cells))
        by (by rewrite <- app_assoc).
      replace (tys_pre ++ t :: cell_types cells)
        with ((tys_pre ++ [t]) ++ cell_types cells)
        by (by rewrite <- app_assoc).
      apply IH.
Qed.

(** X6.  Round trip of the legacy cell sections: cells written as
    arity-prefixed groups, with one type code each, are handed to the
    engine one by one, each with its type and exactly its ids, whenever
    the declared cell count is not below their number; no read leaves the
    buffer and the walk ends at its end. *)
Theorem X6_legacy_walk_recovers_cells (cells : list (Z * list Z)) (more : nat) :
  calls (lwalk (legacy_walk (cell_buffer (snd <$> cells)) (cell_types cells)
                             (len cells + Z.of_nat more)))
  = cell_calls cells
  ∧ indices (lwalk (legacy_walk (cell_buffer (snd <$> cells)) (cell_types cells)
                                 (len cells + Z.of_nat more)))
    = flat_map cell_triangles (cell_calls cells).
Proof.
  destruct (legacy_walk_run (cell_buffer (snd <$> cells)) (cell_types cells)
              (len cells + Z.of_nat more)) as (Hcalls & [Hind _] & _ & _).
  assert (calls (lwalk (legacy_walk (cell_buffer (snd <$> cells)) (cell_types cells)
                          (len cells + Z.of_nat more))) = cell_calls cells) as Heq.
  { rewrite Hcalls.
    replace (Z.to_nat (Z.min (len cells + Z.of_nat more) (len (cell_types cells))))
      with (length cells + 0)%nat
      by (unfold len, cell_types; rewrite length_fmap; lia).
    apply (legacy_cells_recovered [] cells [] 0). }
  split; [done|]. by rewrite Hind, Heq.
Qed.

Lemma legacy_cells_ids n i p cellDataRaw cellTypes c :
  c ∈ legacy_cells n i p cellDataRaw cellTypes → Forall (id_from cellDataRaw) c.2.
Proof.
  revert i p. induction n as [|n IH]; intros i p Hc; simpl in Hc.
  - by apply elem_of_nil in Hc.
  - destruct (len cellDataRaw <=? p); [by apply elem_of_nil in Hc|].
    apply elem_of_cons in Hc as [->|Hc]; [|by eapply IH].
    simpl. apply Forall_fmap, Forall_forall. intros z Hz. exists z. split; [done|].
    apply (sublist_subseteq _ _ (sublist_drop cellDataRaw (Z.to_nat (p + 1)))).
    by apply (sublist_subseteq _ _ (sublist_take _ (Z.to_nat (int_at cellDataRaw p)))).
Qed.

Lemma triangles_from (P : jsval → Prop) cs :
  Forall (fun c : Z * list jsval => Forall P c.2) cs →
  Forall P (flat_map cell_triangles cs).
Proof.
  induction 1 as [|c cs Hc _ IH]; simpl; [constructor|].
  apply Forall_app. split; [|done].
  apply Forall_forall. intros x Hx.
  apply (proj1 (Forall_forall P c.2) Hc), (triangles_of_subseteq c.1 c.2 x Hx).
Qed.

(** X7.  The index buffer of the legacy loader holds only numbers read
    from the raw cell buffer: no [undefined] and no id that the file does
    not contain, however short the buffer and whatever the counts. *)
Theorem X7_legacy_indices_from_buffer cellDataRaw cellTypes numCells :
  Forall (id_from cellDataRaw)
         (indices (lwalk (legacy_walk cellDataRaw cellTypes numCells))).
Proof.
  destruct (legacy_walk_run cellDataRaw cellTypes numCells)
    as (Hcalls & [Hind _] & _ & _).
  rewrite Hind. apply triangles_from. rewrite Hcalls.
  apply Forall_forall. intros c Hc. by eapply legacy_cells_ids.
Qed.

Lemma range_entries_ids connectivity a b :
  Forall (fun v => v = JUndefined ∨ id_from connectivity v) (range_entries connectivity a b)
  ∧ (0 ≤ a → Forall (id_from connectivity) (range_entries connectivity a b)).
Proof.
  split.
  - unfold range_entries. apply Forall_fmap, Forall_forall. intros k Hk.
    apply list_elem_of_filter in Hk as [Hlt _]. simpl. unfold int_get.
    destruct (k <? 0) eqn:Hneg; [by left|]. apply Z.ltb_ge in Hneg.
    destruct (lookup_lt_is_Some_2 connectivity (Z.to_nat k)) as [x Hx];
      [unfold len in Hlt; lia|].
    rewrite Hx. right. exists x. split; [done|]. by eapply list_elem_of_lookup_2.
  - intros Ha. rewrite range_entries_slice by done.
    apply Forall_fmap, Forall_forall. intros z Hz. exists z. split; [done|].
    apply (sublist_subseteq _ _ (sublist_drop connectivity (Z.to_nat a))).
    by apply (sublist_subseteq _ _ (sublist_take _ (Z.to_nat (b - a)))).
Qed.

Lemma running_start_nonneg offsets i :
  Forall (fun o => 0 ≤ o) offsets → 0 ≤ running_start offsets i.
Proof.
  intros Hall. unfold running_start. destruct (i =? 0); [done|].
  unfold int_at. destruct (offsets !! Z.to_nat (i - 1)) as [o|] eqn:Ho; [|done].
  simpl. by apply (Forall_lookup_1 _ _ _ _ Hall Ho).
Qed.

(** X8.  The index buffer of the XML loader holds numbers read from
    [connectivity] and, at most, [undefined]; when no offset is negative
    it holds numbers of [connectivity] only. *)
Theorem X8_xml_indices_from_connectivity numberOfCells connectivity offsets types :
  Forall (fun v => v = JUndefined ∨ id_from connectivity v)
         (indices (xml_walk numberOfCells connectivity offsets types))
  ∧ (Forall (fun o => 0 ≤ o) offsets →
     Forall (id_from connectivity)
            (indices (xml_walk numberOfCells connectivity offsets types))).
Proof.
  destruct (xml_walk_run numberOfCells connectivity offsets types) as [[Hind _] Hcalls].
  rewrite Hind, Hcalls. unfold xml_cells. split; [|intros Hoffs];
    apply triangles_from, Forall_fmap, Forall_forall; intros i _; simpl.
  - apply range_entries_ids.
  - apply range_entries_ids. by apply running_start_nonneg.
Qed.

Lemma X8_witness :
  Forall (id_from [0; 1; 2; 0; 2; 3; 4])
         (indices (xml_walk 2 [0; 1; 2; 0; 2; 3; 4] [3; 7] [5; 9])).
Proof.
  apply (X8_xml_indices_from_connectivity 2 [0; 1; 2; 0; 2; 3; 4] [3; 7] [5; 9]).
  repeat constructor; lia.
Defined.




(** ** The viewer *)

Lemma foldl_max_spec (m : list Z) (acc : Z) :
  let r := foldl (fun maxId id => if maxId <? id then id else maxId) acc m in
  acc ≤ r ∧ Forall (fun id => id ≤ r) m ∧ (r = acc ∨ r ∈ m).
Proof.
  revert acc. induction m as [|x m IH]; intros acc; simpl.
  - split; [lia|]. split; [constructor|by left].
  - destruct (IH (if acc <? x then x else acc)) as (Hle & Hall & Hin).
    destruct (acc <? x) eqn:Hlt;
      [apply Z.ltb_lt in Hlt|apply Z.ltb_ge in Hlt].
    + split; [lia|]. split; [constructor; [lia|done]|].
      right. destruct Hin as [->|Hin]; [apply elem_of_cons; by left|].
      apply elem_of_cons; by right.
    + split; [lia|]. split; [constructor; [lia|done]|].
      destruct Hin as [->|Hin]; [by left|right; apply elem_of_cons; by right].
Qed.

Lemma estimate_in_order (m : list Z) (n : Z) :
  ids_in_order m n → counts_up_to_last m n (cell_count_estimate m).
Proof.
  intros [_ Hall]. unfold cell_count_estimate, counts_up_to_last.
  destruct m as [|x m]; [simpl; repeat split; [constructor|lia|by left]|].
  replace (0 <? len (x :: m)) with true
    by (symmetry; apply Z.ltb_lt; unfold len; simpl; lia).
  destruct (foldl_max_spec (x :: m) 0) as (Hle & Hmax & Hin).
  set (r := foldl _ 0 (x :: m)) in *.
  assert (0 ≤ x < n) as Hx by (by inversion Hall).
  split; [eapply Forall_impl; [exact Hmax|]; simpl; intros; lia|].
  assert (r ∈ x :: m) as Hr.
  { destruct Hin as [Hr0|Hr]; [|done].
    assert (x ≤ r) by (by inversion Hmax). assert (x = 0) as -> by lia.
    rewrite Hr0. apply elem_of_cons; by left. }
  split.
  - pose proof (proj1 (Forall_forall _ _) Hall r Hr). simpl in *. lia.
  - right. by replace (r + 1 - 1) with r by lia.
Qed.

(** X10.  The cell count that the viewer shows is one more than the
    greatest entry of the cell-ID map, hence the number of the last cell
    that produced a triangle plus one, and 0 for a mesh without
    triangles; it never exceeds the number of cells that the loader may
    have walked, and falls short of it when later cells gave no
    triangle. *)
Theorem X10_cell_count_estimate :
  (∀ numberOfCells connectivity offsets types,
     counts_up_to_last
       (cellIdMap (xml_walk numberOfCells connectivity offsets types))
       (Z.min numberOfCells (Z.min (len offsets) (len types)))
       (cell_count_estimate
          (cellIdMap (xml_walk numberOfCells connectivity offsets types))))
  ∧ (∀ cellDataRaw cellTypes numCells,
     counts_up_to_last
       (cellIdMap (lwalk (legacy_walk cellDataRaw cellTypes numCells)))
       (Z.min numCells (len cellTypes))
       (cell_count_estimate
          (cellIdMap (lwalk (legacy_walk cellDataRaw cellTypes numCells)))))
  ∧ cell_count_estimate
      (cellIdMap (lwalk (legacy_walk [3; 0; 1; 2; 2; 0; 1; 2; 1; 2] [5; 3; 3] 3)))
    = 1.
Proof.
  split; [|split].
  - intros n c o t. apply estimate_in_order.
    destruct (xml_walk_run n c o t) as [Hnum Hcalls].
    destruct (numbered_in_order _ (len (calls (xml_walk n c o t))) Hnum ltac:(lia))
      as [Hs Hall].
    split; [done|]. eapply Forall_impl; [exact Hall|]. simpl. intros id Hid.
    rewrite Hcalls in Hid. unfold xml_cells, len in Hid.
    rewrite length_fmap, length_seqZ in Hid. unfold len. lia.
  - intros r t n. apply estimate_in_order.
    destruct (legacy_walk_run r t n) as (Hcalls & Hnum & _ & _).
    destruct (numbered_in_order _ (len (calls (lwalk (legacy_walk r t n)))) Hnum
                ltac:(lia)) as [Hs Hall].
    split; [done|]. eapply Forall_impl; [exact Hall|]. simpl. intros id Hid.
    rewrite Hcalls in Hid.
    pose proof (length_legacy_cells (Z.to_nat (Z.min n (len t))) 0 0 r t).
    unfold len in *. lia.
  - vm_compute. reflexivity.
Qed.

Lemma triangle_value_numbered field w (t : nat) :
  numbered w →
  triangle_value field (cellIdMap w) (Z.of_nat t) = value_of_producer field w t.
Proof.
  intros [_ Hm]. unfold triangle_value, value_of_producer, int_get.
  rewrite (proj2 (Z.ltb_ge _ 0)) by lia. rewrite Nat2Z.id.
  rewrite Hm. pose proof (numbered_producer (calls w) 0 t) as Hp. simpl in Hp.
  rewrite Hp.
  destruct (producer (cell_count <$> calls w) 0 t) as [c|]; simpl; [|done].
  destruct (Z.of_nat c <? len (data field)); [|done].
  unfold num_get. rewrite (proj2 (Z.ltb_ge _ 0)) by lia. by rewrite Nat2Z.id.
Qed.

(** X11.  The value with which the viewer colours triangle [t] of a cell
    field is the field's value for the cell that produced the triangle,
    whenever the field has a value for that cell; without one, and past
    the last triangle, it is the field's minimum.  This holds for the
    cell-ID maps of both loaders. *)
Theorem X11_triangle_takes_value_of_its_cell (field : ScalarField) (t : nat) :
  (∀ numberOfCells connectivity offsets types,
     triangle_value field
       (cellIdMap (xml_walk numberOfCells connectivity offsets types)) (Z.of_nat t)
     = value_of_producer field
         (xml_walk numberOfCells connectivity offsets types) t)
  ∧ (∀ cellDataRaw cellTypes numCells,
     triangle_value field
       (cellIdMap (lwalk (legacy_walk cellDataRaw cellTypes numCells))) (Z.of_nat t)
     = value_of_producer field
         (lwalk (legacy_walk cellDataRaw cellTypes numCells)) t).
Proof.
  split; intros; apply triangle_value_numbered.
  - apply xml_walk_run.
  - apply legacy_walk_run.
Qed.

(** ** The legacy pass over the lines *)

Lemma read_lines_invariant (I : lines_state → Prop) :
  (∀ l st st', I st → read_line l st = Returned st' → I st') →
  ∀ ls st st', I st → read_lines ls st = Returned st' → I st'.
Proof.
  intros Hstep ls. induction ls as [|l ls IH]; intros st st' Hst Hrun; simpl in Hrun.
  - by inversion Hrun; subst.
  - destruct (read_line l st) as [st1|] eqn:Hl; [|done].
    eapply IH; [|exact Hrun]. eapply Hstep; [exact Hst|exact Hl].
Qed.

Lemma parseNumbers_not_nan tokens : Forall not_nan (parseNumbers tokens).
Proof.
  unfold parseNumbers. apply Forall_forall. intros x Hx.
  apply list_elem_of_filter in Hx. apply Hx.
Qed.

(** X12.  Whether the pass over the lines of a legacy file throws does not
    depend on what was read before: from any state, the pass returns
    exactly when each of the lines, read alone from the initial state,
    returns.  (The lines that throw are a [DATASET] line without a type
    and a [POINTS] line whose count is missing or gives no array length.) *)
Theorem X12_pass_throws_line_by_line (ls : list line) (st : lines_state) :
  returned (read_lines ls st)
  = forallb (fun l => returned (read_line l initial_lines)) ls.
Proof.
  revert st. induction ls as [|l ls IH]; intros st; [done|].
  cbn [read_lines forallb].
  assert (returned (read_line l st) = returned (read_line l initial_lines)) as Hl.
  { destruct l as [|[?|]|[k|]| | | | | | | | | |]; simpl; try done.
    by destruct ((0 <=? k * 3) && (k * 3 <? 2 ^ 32)). }
  rewrite <- Hl. destruct (read_line l st) as [st1|]; simpl; [apply IH|done].
Qed.

Lemma store_points_fill (vals stored : list num) (holes : nat) :
  store_points vals (len stored, (Some <$> stored) ++ replicate holes None)
  = (len (stored ++ take holes vals),
     (Some <$> (stored ++ take holes vals))
       ++ replicate (holes - length vals) None).
Proof.
  unfold store_points.
  revert stored holes. induction vals as [|v vals IH]; intros stored holes.
  - simpl. rewrite take_nil, app_nil_r. by rewrite Nat.sub_0_r.
  - cbn [foldl].
    assert (len ((Some <$> stored) ++ replicate holes (@None num))
            = len stored + Z.of_nat holes) as Hlen.
    { unfold len. rewrite length_app, length_fmap, length_replicate. lia. }
    rewrite Hlen. destruct holes as [|h].
    + rewrite (proj2 (Z.ltb_ge _ _)) by lia.
      rewrite (IH stored 0%nat). by rewrite !take_0.
    + rewrite (proj2 (Z.ltb_lt _ _)) by lia.
      assert (<[Z.to_nat (len stored) := Some v]>
                ((Some <$> stored) ++ replicate (S h) None)
              = (Some <$> (stored ++ [v])) ++ replicate h None) as ->.
      { unfold len. rewrite Nat2Z.id.
        rewrite insert_app_r_alt by (by rewrite length_fmap).
        rewrite length_fmap, Nat.sub_diag. simpl.
        by rewrite fmap_app, <- app_assoc. }
      assert (len stored + 1 = len (stored ++ [v])) as ->.
      { unfold len. rewrite length_app. simpl. lia. }
      rewrite (IH (stored ++ [v]) h). simpl. by rewrite <- !app_assoc.
Qed.

Lemma data_line_points tokens st :
  points_filled st → points_filled (data_line tokens st).
Proof.
  intros Hst. unfold data_line.
  destruct (cur_section st); try exact Hst.
  - destruct Hst as (stored & holes & k & Hp & Hc & Hn & Hk & Hlen).
    rewrite Hp, Hc, store_points_fill.
    exists (stored ++ take holes (parseNumbers tokens)),
           (holes - length (parseNumbers tokens))%nat, k.
    cbn [points pointCount numPoints]. repeat split; try done.
    + apply Forall_app. split; [done|].
      apply Forall_take, parseNumbers_not_nan.
    + rewrite <- Hlen, Hp. unfold len.
      rewrite !length_app, !length_fmap, !length_replicate, length_app, length_take.
      lia.
  - destruct (cur_subSection st), (currentScalar st) as [sc|]; try exact Hst.
    destruct (reached _ _ _); [destruct (extrema _)|]; exact Hst.
  - destruct (cur_subSection st), (currentScalar st) as [sc|]; try exact Hst.
    destruct (reached _ _ _); [destruct (extrema _)|]; exact Hst.
Qed.

Lemma read_line_points l st st' :
  points_filled st → read_line l st = Returned st' → points_filled st'.
Proof.
  intros Hst Hl.
  destruct l as [|[?|]|[k|]| | | | | | | | | |]; simpl in Hl;
    try (inversion Hl; subst; exact Hst); try done.
  - destruct ((0 <=? k * 3) && (k * 3 <? 2 ^ 32)) eqn:Hk; [|done].
    inversion Hl; subst. apply andb_prop in Hk as [Hk1 Hk2].
    apply Z.leb_le in Hk1.
    exists [], (Z.to_nat (k * 3)), k. cbn. repeat split; try done.
    unfold len. rewrite length_replicate. lia.
  - inversion Hl; subst. by apply data_line_points.
Qed.

(** X13.  After the pass over the lines of a legacy file, the point buffer
    has three slots for each point that the last [POINTS] line announced;
    the numbers read fill it from the front, none of them NaN, and
    [pointCount] counts them; the slots behind them are holes.  Numbers
    past the announced count are dropped, and missing numbers leave
    holes. *)
Theorem X13_point_buffer_filled_from_front (ls : list line) (st : lines_state) :
  read_lines ls initial_lines = Returned st → points_filled st.
Proof.
  apply (read_lines_invariant points_filled); [apply read_line_points|].
  exists [], 0%nat, 0. by repeat split.
Qed.

Lemma X13_witness :
  read_lines [KwPoints (Some 2); Other [Fin 1; NaN; Fin 2; Fin 3; Fin 4]]
             initial_lines
  = Returned (MkLines POINTS SUB_NONE (Some 2) (Some 0) 4
                [Some (Fin 1); Some (Fin 2); Some (Fin 3); Some (Fin 4); None; None]
                [] [] None [] [])
  ∧ points_filled
      (MkLines POINTS SUB_NONE (Some 2) (Some 0) 4
         [Some (Fin 1); Some (Fin 2); Some (Fin 3); Some (Fin 4); None; None]
         [] [] None [] []).
Proof.
  split; [reflexivity|].
  apply (X13_point_buffer_filled_from_front
           [KwPoints (Some 2); Other [Fin 1; NaN; Fin 2; Fin 3; Fin 4]]).
  reflexivity.
Defined.

Lemma sealed_field_bounds n data :
  Forall not_nan data →
  field_bounds (let '(mn, mx) := extrema data in MkField n mn mx data).
Proof.
  intros Hnan. destruct data as [|v data].
  - split; [done|]. by left.
  - pose proof (extrema_correct (v :: data) ltac:(done) Hnan) as H.
    destruct (extrema (v :: data)) as [mn mx]. split; [done|]. by right.
Qed.

Lemma data_line_fields tokens st :
  fields_bounded st → fields_bounded (data_line tokens st).
Proof.
  intros Hst. unfold data_line.
  destruct (cur_section st) eqn:Hsec; try exact Hst.
  - destruct (store_points _ _). exact Hst.
  - destruct (cur_subSection st), (currentScalar st) as [sc|] eqn:Hsc; try exact Hst.
    destruct Hst as (Hp & Hc & Hs).
    assert (Forall not_nan (scalar_data sc ++ parseNumbers tokens)) as Hdata.
    { apply Forall_app. split; [by apply Hs|apply parseNumbers_not_nan]. }
    pose proof (sealed_field_bounds (scalar_name sc) _ Hdata) as Hf.
    destruct (reached _ _ _).
    + destruct (extrema _) as [mn mx]. rewrite !decide_True by done.
      split; [|split]; cbn; [|done|done].
      apply Forall_app. split; [done|]. by constructor.
    + split; [|split]; cbn; [done|done|]. intros sc' Hsc'. by inversion Hsc'; subst.
  - destruct (cur_subSection st), (currentScalar st) as [sc|] eqn:Hsc; try exact Hst.
    destruct Hst as (Hp & Hc & Hs).
    assert (Forall not_nan (scalar_data sc ++ parseNumbers tokens)) as Hdata.
    { apply Forall_app. split; [by apply Hs|apply parseNumbers_not_nan]. }
    pose proof (sealed_field_bounds (scalar_name sc) _ Hdata) as Hf.
    destruct (reached _ _ _).
    + destruct (extrema _) as [mn mx]. rewrite !decide_False by done.
      split; [|split]; cbn; [done| |done].
      apply Forall_app. split; [done|]. by constructor.
    + split; [|split]; cbn; [done|done|]. intros sc' Hsc'. by inversion Hsc'; subst.
Qed.

Lemma read_line_fields l st st' :
  fields_bounded st → read_line l st = Returned st' → fields_bounded st'.
Proof.
  intros Hst Hl.
  destruct l as [|[?|]|[k|]| | | | | | | | | |]; simpl in Hl;
    try (inversion Hl; subst; exact Hst); try done.
  - destruct ((0 <=? k * 3) && (k * 3 <? 2 ^ 32)); [|done].
    inversion Hl; subst. exact Hst.
  - inversion Hl; subst. destruct Hst as (Hp & Hc & _).
    split; [|split]; cbn; [done|done|]. intros sc Hsc. by inversion Hsc; subst.
  - inversion Hl; subst. by apply data_line_fields.
Qed.

(** X14.  Every field that the legacy pass emits is free of NaN, and its
    [min] and [max] are the least and the greatest of its values; the
    one exception is a field without values, whose [min] is [Infinity]
    and whose [max] is [-Infinity]. *)
Theorem X14_legacy_fields_have_true_bounds (ls : list line) (st : lines_state) :
  read_lines ls initial_lines = Returned st →
  Forall field_bounds (pointDataFields st)
  ∧ Forall field_bounds (cellDataFields st).
Proof.
  intros Hrun.
  destruct (read_lines_invariant fields_bounded read_line_fields ls
              initial_lines st) as (Hp & Hc & _); [|done|done].
  split; [|split]; cbn; [done|done|]. intros sc Hsc. by inversion Hsc.
Qed.

Lemma X14_witness :
  Forall field_bounds
    (pointDataFields
       (MkLines POINT_DATA SUB_NONE (Some 1) (Some 0) 0 [None; None; None] [] []
          None [MkField (Some "p") (Fin 2) (Fin 5) [Fin 5; Fin 2]] []))
  ∧ Forall field_bounds
      (cellDataFields
         (MkLines POINT_DATA SUB_NONE (Some 1) (Some 0) 0 [None; None; None] [] []
            None [MkField (Some "p") (Fin 2) (Fin 5) [Fin 5; Fin 2]] [])).
Proof.
  apply (X14_legacy_fields_have_true_bounds
           [KwPoints (Some 1); KwPointData; KwScalars (Some "p") (Some 2);
            KwLookupTable; Other [Fin 5; NaN; Fin 2]]).
  reflexivity.
Defined.

Lemma data_line_kept tokens st : gathered_kept st (data_line tokens st).
Proof.
  unfold data_line, gathered_kept.
  destruct (cur_section st); cbn; try done;
    try (by repeat split; try done; apply prefix_app_r).
  - by destruct (store_points _ _).
  - destruct (cur_subSection st), (currentScalar st) as [sc|]; try done.
    destruct (reached _ _ _); [destruct (extrema _)|]; cbn; [|done].
    rewrite !decide_True by done. repeat split; try done. by apply prefix_app_r.
  - destruct (cur_subSection st), (currentScalar st) as [sc|]; try done.
    destruct (reached _ _ _); [destruct (extrema _)|]; cbn; [|done].
    rewrite !decide_False by done. repeat split; try done. by apply prefix_app_r.
Qed.

Lemma read_line_kept l st st' : read_line l st = Returned st' → gathered_kept st st'.
Proof.
  intros Hl.
  destruct l as [|[?|]|[k|]| | | | | | | | | |]; simpl in Hl;
    try (by inversion Hl; subst); try done.
  - destruct ((0 <=? k * 3) && (k * 3 <? 2 ^ 32)); [|done]. by inversion Hl; subst.
  - inversion Hl; subst. apply data_line_kept.
Qed.

(** X15.  The legacy pass only ever appends to the cell buffer, to the
    cell types and to the two lists of fields: what they held before a
    run of lines they still hold after it, in front.  No keyword clears
    them, so that a second [CELLS], [POLYGONS] or [LINES] section adds
    its numbers behind those of the first. *)
Theorem X15_pass_only_appends (ls : list line) (st st' : lines_state) :
  read_lines ls st = Returned st' → gathered_kept st st'.
Proof.
  revert st. induction ls as [|l ls IH]; intros st Hrun; simpl in Hrun.
  - by inversion Hrun; subst.
  - destruct (read_line l st) as [st1|] eqn:Hl; [|done].
    destruct (read_line_kept _ _ _ Hl) as (H1 & H2 & H3 & H4).
    destruct (IH _ Hrun) as (G1 & G2 & G3 & G4).
    repeat split; etrans; eauto.
Qed.

Lemma X15_witness :
  gathered_kept
    (MkLines POLYGONS SUB_NONE (Some 0) (Some 0) 0 [] [Fin 3; Fin 0; Fin 1; Fin 2] []
       None [] [])
    (MkLines LINES SUB_NONE (Some 0) (Some 0) 0 []
       [Fin 3; Fin 0; Fin 1; Fin 2; Fin 2; Fin 0; Fin 1] [] None [] []).
Proof.
  apply (X15_pass_only_appends [KwLines; Other [Fin 2; Fin 0; Fin 1]]).
  reflexivity.
Defined.

(** ** A whole legacy file *)

Lemma read_lines_app l1 l2 st :
  read_lines (l1 ++ l2) st
  = match read_lines l1 st with
    | Returned st' => read_lines l2 st'
    | Thrown => Thrown
    end.
Proof.
  revert st. induction l1 as [|l l1 IH]; intros st; [done|].
  simpl. destruct (read_line l st); [apply IH|done].
Qed.

Lemma parseNumbers_all tokens : Forall not_nan tokens → parseNumbers tokens = tokens.
Proof.
  unfold parseNumbers. induction 1 as [|v vs Hv _ IH]; [done|].
  rewrite filter_cons_True by done. by rewrite IH.
Qed.

Lemma parseNumbers_of_int zs : parseNumbers (of_int <$> zs) = of_int <$> zs.
Proof. apply parseNumbers_all, Forall_fmap, Forall_forall. by intros. Qed.

Lemma to_int_of_int z : to_int (of_int z) = Some z.
Proof. unfold to_int, of_int. simpl. by rewrite Z.mod_1_r, Z.div_1_r. Qed.

Lemma read_point_lines pts :
  ∀ stored holes sub nP nC raw tys cs pf cf,
    Forall not_nan (coords pts) → (3 * length pts ≤ holes)%nat →
    read_lines (point_lines pts)
      (MkLines POINTS sub nP nC (len stored)
         ((Some <$> stored) ++ replicate holes None) raw tys cs pf cf)
    = Returned
        (MkLines POINTS sub nP nC (len (stored ++ coords pts))
           ((Some <$> (stored ++ coords pts))
              ++ replicate (holes - 3 * length pts) None) raw tys cs pf cf).
Proof.
  induction pts as [|[[x y] z] pts IH]; intros stored holes sub nP nC raw tys cs pf cf
    Hnan Hholes.
  - simpl. by rewrite app_nil_r, Nat.sub_0_r.
  - cbn [point_lines fmap list_fmap read_lines read_line].
    cbn [coords flat_map] in Hnan. apply Forall_app in Hnan as [Hxyz Hnan].
    unfold data_line. cbn [cur_section pointCount points].
    rewrite (parseNumbers_all _ Hxyz), store_points_fill.
    cbn [cur_subSection numPoints numCells cellDataRaw cellTypes currentScalar
         pointDataFields cellDataFields].
    simpl length in Hholes.
    rewrite take_ge by (simpl; lia).
    fold (point_lines pts). rewrite (IH (stored ++ [x; y; z]) (holes - 3)%nat)
      by first [done | simpl; lia].
    cbn [coords flat_map]. fold (coords pts). rewrite <- !app_assoc.
    replace (holes - 3 * length ((x, y, z) :: pts))%nat
      with (holes - 3 - 3 * length pts)%nat by (simpl length; lia).
    done.
Qed.

Lemma read_cell_lines cells :
  ∀ sub nP nC pc pts raw tys cs pf cf,
    read_lines (cell_lines cells) (MkLines CELLS sub nP nC pc pts raw tys cs pf cf)
    = Returned
        (MkLines CELLS sub nP nC pc pts
           (raw ++ (of_int <$> cell_buffer (snd <$> cells))) tys cs pf cf).
Proof.
  induction cells as [|c cells IH]; intros sub nP nC pc pts raw tys cs pf cf.
  - simpl. by rewrite app_nil_r.
  - change (cell_lines (c :: cells))
      with (Other (of_int <$> (len c.2 :: c.2)) :: cell_lines cells).
    cbn [read_lines read_line].
    unfold data_line. cbn [cur_section cur_subSection numPoints numCells pointCount points
         cellDataRaw cellTypes currentScalar pointDataFields cellDataFields].
    rewrite parseNumbers_of_int. rewrite IH.
    change (cell_buffer (snd <$> c :: cells))
      with ((len c.2 :: c.2) ++ cell_buffer (snd <$> cells)).
    by rewrite (fmap_app of_int), app_assoc.
Qed.

Lemma read_type_lines cells :
  ∀ sub nP nC pc pts raw tys cs pf cf,
    read_lines (type_lines cells)
               (MkLines CELL_TYPES sub nP nC pc pts raw tys cs pf cf)
    = Returned
        (MkLines CELL_TYPES sub nP nC pc pts raw
           (tys ++ (of_int <$> cell_types cells)) cs pf cf).
Proof.
  induction cells as [|c cells IH]; intros sub nP nC pc pts raw tys cs pf cf.
  - simpl. by rewrite app_nil_r.
  - change (type_lines (c :: cells)) with (Other (of_int <$> [c.1]) :: type_lines cells).
    cbn [read_lines read_line].
    unfold data_line. cbn [cur_section cur_subSection numPoints numCells pointCount points
         cellDataRaw cellTypes currentScalar pointDataFields cellDataFields].
    rewrite (parseNumbers_of_int [c.1]). rewrite IH.
    change (cell_types (c :: cells)) with ([c.1] ++ cell_types cells).
    by rewrite (fmap_app of_int), app_assoc.
Qed.

(** The legacy walk on whole cells with one type each. *)
Lemma legacy_walk_whole_cells (cells : list (Z * list Z)) :
  let w := lwalk (legacy_walk (cell_buffer (snd <$> cells)) (cell_types cells)
                              (len cells)) in
  calls w = cell_calls cells ∧ numbered w.
Proof.
  destruct (legacy_walk_run (cell_buffer (snd <$> cells)) (cell_types cells)
              (len cells)) as (Hcalls & Hnum & _ & _).
  split; [|done]. rewrite Hcalls.
  replace (Z.to_nat (Z.min (len cells) (len (cell_types cells))))
    with (length cells + 0)%nat
    by (unfold len, cell_types; rewrite length_fmap; lia).
  apply (legacy_cells_recovered [] cells [] 0).
Qed.

(** X16.  A legacy [UNSTRUCTURED_GRID] file laid out as VTK writes it
    (one line per point, one line per cell with its arity and ids, one
    line per cell type) is loaded without an exception and without type
    inference, whatever the fuel: the geometry holds every coordinate in
    file order and no hole, its index buffer is made of the triangles of
    the cells in file order, and its cell-ID map gives each triangle the
    number of its cell.  The only conditions are that no coordinate is
    NaN and that three times the number of points is an array length. *)
Theorem X16_grid_file_loaded (fuel : nat) (pts : list (num * num * num))
    (cells : list (Z * list Z)) :
  len pts * 3 < 2 ^ 32 →
  Forall not_nan (coords pts) →
  ∃ g, legacy_parse fuel (grid_file pts cells) = Some (Returned g)
       ∧ grid_geometry pts cells g.
Proof.
  intros Hlen Hnan. unfold legacy_parse, grid_file.
  cbn [app read_lines read_line].
  rewrite (proj2 (Z.leb_le 0 (len pts * 3))) by (unfold len; lia).
  rewrite (proj2 (Z.ltb_lt _ _)) by done. cbn [andb initial_lines].
  rewrite read_lines_app.
  rewrite (read_point_lines pts [] (Z.to_nat (len pts * 3))) by first [done | unfold len; lia].
  cbn [app read_lines read_line]. rewrite read_lines_app, read_cell_lines.
  cbn [app read_lines read_line]. unfold set_section, initial_lines.
  cbn [cur_section cur_subSection numPoints numCells pointCount points
       cellDataRaw cellTypes currentScalar pointDataFields cellDataFields].
  rewrite read_type_lines.
  cbn [cellDataRaw cellTypes app]. rewrite !mapM_fmap_Some by apply to_int_of_int.
  cbn [mbind option_bind]. unfold legacy_finish, infer_types.
  assert ((len (cell_types cells) =? 0) && (0 <? len (cell_buffer (snd <$> cells)))
          = false) as ->.
  { destruct cells as [|c cells]; [done|].
    apply andb_false_iff. left. apply Z.eqb_neq. unfold len. simpl. lia. }
  cbn [mbind option_bind numCells default points pointDataFields cellDataFields].
  unfold id. eexists. split; [reflexivity|].
  destruct (legacy_walk_whole_cells cells) as [Hcalls [Hind Hmap]].
  unfold grid_geometry, build_geometry, index_buffer. cbn [position index userData].
  replace (Z.to_nat (len pts * 3) - 3 * length pts)%nat with 0%nat
    by (unfold len; lia).
  split; [by rewrite app_nil_r|]. split.
  - rewrite <- Hcalls, <- Hind.
    destruct (0 <? len _) eqn:Hpos; [done|]. apply Z.ltb_ge in Hpos.
    simpl. symmetry. apply length_zero_iff_nil. unfold len, id in *. lia.
  - unfold cell_ids. by rewrite Hmap, Hcalls.
Qed.

Lemma X16_witness :
  ∃ g, legacy_parse 0
         (grid_file [(Fin 0, Fin 0, Fin 0); (Fin 1, Fin 0, Fin 0); (Fin 0, Fin 1, Fin 0)]
                    [(5, [0; 1; 2])])
       = Some (Returned g)
       ∧ grid_geometry
           [(Fin 0, Fin 0, Fin 0); (Fin 1, Fin 0, Fin 0); (Fin 0, Fin 1, Fin 0)]
           [(5, [0; 1; 2])] g.
Proof.
  apply (X16_grid_file_loaded 0
           [(Fin 0, Fin 0, Fin 0); (Fin 1, Fin 0, Fin 0); (Fin 0, Fin 1, Fin 0)]
           [(5, [0; 1; 2])]).
  - reflexivity.
  - unfold not_nan. repeat constructor.
Defined.

(** ** The XML loader: arrays and fields *)

Section xml_arrays.
Variable atob : string → option (list byte).
Variable createTypedArray : option string → list byte → typedArray.
Variable parseAscii : option string → string → typedArray.

Local Abbreviation parseDataArray'' := (parseDataArray atob createTypedArray parseAscii).
Local Abbreviation add_field'' := (add_field atob createTypedArray parseAscii).
Local Abbreviation add_fields'' := (add_fields atob createTypedArray parseAscii).
Local Abbreviation xml_parse'' := (xml_parse atob createTypedArray parseAscii).

Lemma getUint32_before_buffer buf pos : pos < 0 → getUint32 buf pos = None.
Proof. intros Hpos. unfold getUint32. by rewrite (proj2 (Z.leb_gt 0 pos)). Qed.

(** X17.  [parseDataArray] throws in exactly one situation: the array is
    appended, its offset is a number, the appended buffer exists, the
    resolved start lies before the buffer and the header would still end
    inside it.  In every other case it returns an array or [null]. *)
Theorem X17_parseDataArray_throws_iff (el : element) (appendedMap : appendedDataMap)
    (headerSize : Z) :
  headerSize = 4 ∨ headerSize = 8 →
  parseDataArray'' el appendedMap headerSize = Thrown
  ↔ header_before_buffer headerSize appendedMap el.
Proof.
  intros Hhs. unfold header_before_buffer, parseDataArray.
  destruct (decide (format el = Some "appended")) as [Hfmt|Hfmt].
  - destruct (offset el) as [off|];
      [|split; [done|by intros (_ & ? & ? & ? & _)]].
    destruct (buffer appendedMap) as [buf|];
      [|split; [done|by intros (_ & ? & ? & _ & ? & _)]].
    fold (resolved_start appendedMap off).
    destruct (len buf <=? resolved_start appendedMap off) eqn:H1;
      [apply Z.leb_le in H1|apply Z.leb_gt in H1].
    { split; [done|]. intros (_ & ? & ? & [= <-] & [= <-] & ? & ?).
      unfold len in *. lia. }
    destruct (len buf <? resolved_start appendedMap off + headerSize) eqn:H2;
      [apply Z.ltb_lt in H2|apply Z.ltb_ge in H2].
    { split; [done|]. intros (_ & ? & ? & [= <-] & [= <-] & ? & ?). lia. }
    destruct (Z_lt_le_dec (resolved_start appendedMap off) 0) as [Hneg|Hpos].
    + assert (read_header buf (resolved_start appendedMap off) headerSize = None) as ->.
      { unfold read_header.
        rewrite (getUint32_before_buffer buf (resolved_start appendedMap off)) by done.
        by destruct (headerSize =? 8). }
      split; [|done]. intros _. split; [done|]. by exists off, buf.
    + rewrite read_header_little_endian by done.
      split; [by destruct (len buf <? _)|].
      intros (_ & ? & ? & [= <-] & [= <-] & ? & ?). lia.
  - split; [|by intros [? _]].
    destruct (decide (format el = Some "binary")).
    + destruct (atob (text el)); [|done]. by destruct (len _ <=? headerSize).
    + by destruct (decide (text el = "")).
Qed.

Lemma add_field_appends appendedMap headerSize da fields fields' :
  add_field'' appendedMap headerSize da fields = Returned fields' →
  fields' = fields
  ∨ ∃ f, fields' = fields ++ [f] ∧ xml_field f ∧ name f = field_name da.
Proof.
  unfold add_field. intros Hadd.
  destruct (decide (NumberOfComponents da = Some 1)); [|left; by injection Hadd as <-].
  destruct (parseDataArray'' da appendedMap headerSize) as [[arr|]|];
    [|left; by injection Hadd as <-|done].
  destruct (extrema (array_from arr)) as [mn mx] eqn:Hext.
  destruct (0 <? len (array_from arr)) eqn:Hlen; [|left; by injection Hadd as <-].
  injection Hadd as <-. right. eexists. split; [done|]. split; [|done].
  apply Z.ltb_lt in Hlen. unfold xml_field. cbn. repeat split; try done.
  - intros Hnil. rewrite Hnil in Hlen. unfold len in Hlen. simpl in Hlen. lia.
  - destruct (Name da) as [n|]; [|done]. destruct (decide (n = "")); congruence.
Qed.

Lemma add_fields_appends appendedMap headerSize das fields fields' :
  add_fields'' appendedMap headerSize das fields = Returned fields' →
  ∃ new, fields' = fields ++ new ∧ Forall xml_field new
         ∧ (name <$> new) `sublist_of` (field_name <$> das).
Proof.
  revert fields. induction das as [|da das IH]; intros fields Hrun; simpl in Hrun.
  - injection Hrun as <-. exists []. by rewrite app_nil_r.
  - destruct (add_field'' appendedMap headerSize da fields) as [fields1|] eqn:Hda;
      [|done].
    destruct (IH _ Hrun) as (new & -> & Hall & Hsub).
    destruct (add_field_appends _ _ _ _ _ Hda) as [->|(f & -> & Hf & Hname)].
    + exists new. split; [done|]. split; [done|].
      rewrite fmap_cons. by apply sublist_cons.
    + exists (f :: new). split; [by rewrite <- app_assoc|]. split; [by constructor|].
      rewrite !fmap_cons, Hname. by apply sublist_skip.
Qed.

(** X18.  The fields that the XML loader builds from the arrays of a
    [PointData] or [CellData] element: each has at least one value, its
    [min] and [max] are those of the extrema loop over its values, its
    name is never missing or empty, and the fields come in the order of
    the arrays they were read from, each under the name of its array
    ([Unknown] for an array without a name). *)
Theorem X18_xml_fields (appendedMap : appendedDataMap) (headerSize : Z)
    (das : list element) (fields : list ScalarField) :
  add_fields'' appendedMap headerSize das [] = Returned fields →
  Forall xml_field fields
  ∧ (name <$> fields) `sublist_of` (field_name <$> das).
Proof.
  intros Hrun. by destruct (add_fields_appends _ _ _ _ _ Hrun) as (new & -> & ? & ?).
Qed.

Lemma add_fields_skips appendedMap headerSize das1 da das2 fields :
  adds_no_field atob createTypedArray parseAscii headerSize appendedMap da →
  add_fields'' appendedMap headerSize (das1 ++ da :: das2) fields
  = add_fields'' appendedMap headerSize (das1 ++ das2) fields.
Proof.
  intros Hda. revert fields. induction das1 as [|d das1 IH]; intros fields.
  - simpl. unfold add_field.
    destruct Hda as [Hc|[Hnull|(arr & Harr & Hempty)]].
    + by rewrite decide_False.
    + rewrite Hnull. by destruct (decide (NumberOfComponents da = Some 1)).
    + rewrite Harr, Hempty. by destruct (decide (NumberOfComponents da = Some 1)).
  - simpl. destruct (add_field'' appendedMap headerSize d fields); [apply IH|done].
Qed.

(** X19.  An array of [PointData] or [CellData] that has several
    components, or yields [null] (no text, bad base64, a block not longer
    than its header, an appended segment out of bounds), or yields an
    array without elements, has no effect at all: [parse] gives what it
    gives for the same document without that array. *)
Theorem X19_array_without_field_is_skipped (headerSize : Z)
    (appendedMap : appendedDataMap) (p : piece) (das1 das2 : list element)
    (da : element) (cds : list element) :
  adds_no_field atob createTypedArray parseAscii headerSize appendedMap da →
  xml_parse'' headerSize appendedMap (with_point_data p (das1 ++ da :: das2))
  = xml_parse'' headerSize appendedMap (with_point_data p (das1 ++ das2))
  ∧ xml_parse'' headerSize appendedMap
      (MkPiece (NumberOfCells p) (pointsElement p) (cellsElement p) (pointDataEl p)
               (Some (das1 ++ da :: das2)))
    = xml_parse'' headerSize appendedMap
        (MkPiece (NumberOfCells p) (pointsElement p) (cellsElement p) (pointDataEl p)
                 (Some (das1 ++ das2))).
Proof.
  intros Hda. unfold xml_parse, with_point_data. simpl.
  by rewrite !(add_fields_skips appendedMap headerSize das1 da das2 []).
Qed.

Lemma parseDataArray_returns el appendedMap headerSize :
  headerSize = 4 ∨ headerSize = 8 →
  ¬ header_before_buffer headerSize appendedMap el →
  ∃ r, parseDataArray'' el appendedMap headerSize = Returned r.
Proof.
  intros Hhs Hsafe.
  destruct (parseDataArray'' el appendedMap headerSize) as [r|] eqn:Hrun;
    [by exists r|].
  exfalso. apply Hsafe. unfold header_before_buffer. unfold parseDataArray in Hrun.
  destruct (decide (format el = Some "appended")) as [Hfmt|Hfmt].
  - split; [done|].
    destruct (offset el) as [off|]; [|done].
    destruct (buffer appendedMap) as [buf|]; [|done].
    fold (resolved_start appendedMap off) in Hrun.
    destruct (len buf <=? resolved_start appendedMap off); [done|].
    destruct (len buf <? resolved_start appendedMap off + headerSize) eqn:H2;
      [done|apply Z.ltb_ge in H2].
    exists off, buf. repeat split; try done.
    destruct (Z_lt_le_dec (resolved_start appendedMap off) 0) as [Hneg|Hpos]; [done|].
    rewrite read_header_little_endian in Hrun by done.
    by destruct (len buf <? _).
  - destruct (decide (format el = Some "binary")).
    + destruct (atob (text el)); [|done]. by destruct (len _ <=? headerSize).
    + by destruct (decide (text el = "")).
Qed.

Lemma add_fields_returns appendedMap headerSize das :
  headerSize = 4 ∨ headerSize = 8 →
  Forall (fun da => ¬ header_before_buffer headerSize appendedMap da) das →
  ∀ fields, ∃ fields',
    add_fields'' appendedMap headerSize das fields = Returned fields'.
Proof.
  intros Hhs Hall. induction Hall as [|da das Hda _ IH]; intros fields.
  - by exists fields.
  - simpl.
    assert (∃ fields1, add_field'' appendedMap headerSize da fields = Returned fields1)
      as [fields1 ->]; [|apply IH].
    unfold add_field.
    destruct (decide (NumberOfComponents da = Some 1)); [|by eexists].
    destruct (parseDataArray_returns da appendedMap headerSize Hhs Hda) as [[arr|] ->];
      [|by eexists].
    destruct (extrema (array_from arr)). by destruct (0 <? len (array_from arr)); eexists.
Qed.

(** X20.  A piece without cells is loaded as a point cloud.  Let the
    piece have its point array and the three arrays of [Cells], let the
    point array not yield [null], and let no array of the piece start
    before the appended buffer (the one way in which [parseDataArray]
    throws).  When the cell count is NaN, or one of the three cell
    arrays yields [null], or the cell count is not positive, [parse]
    returns: the geometry has the points, no index buffer, an empty
    cell-ID map, and the fields of the point data and the cell data. *)
Theorem X20_piece_without_cells (headerSize : Z) (appendedMap : appendedDataMap)
    (p : piece) (pe c o t : element) :
  headerSize = 4 ∨ headerSize = 8 →
  pointsElement p = Some pe →
  cellsElement p = Some (MkCells (Some c) (Some o) (Some t)) →
  Forall (fun el => ¬ header_before_buffer headerSize appendedMap el) (arrays_of p) →
  parseDataArray'' pe appendedMap headerSize ≠ Returned None →
  no_cells atob createTypedArray parseAscii headerSize appendedMap
           (NumberOfCells p) c o t →
  ∃ points pointDataFields cellDataFields,
    parseDataArray'' pe appendedMap headerSize = Returned (Some points)
    ∧ add_fields'' appendedMap headerSize (default [] (pointDataEl p)) []
      = Returned pointDataFields
    ∧ add_fields'' appendedMap headerSize (default [] (cellDataEl p)) []
      = Returned cellDataFields
    ∧ xml_parse'' headerSize appendedMap p
      = Returned (Some (MkGeometry points None
                          (MkVTKData pointDataFields cellDataFields []))).
Proof.
  intros Hhs Hpe Hcells Hall Hpts Hno.
  unfold arrays_of in Hall. rewrite Hpe, Hcells in Hall. cbn in Hall.
  apply Forall_cons in Hall as [Hsafe_pe Hall].
  apply Forall_cons in Hall as [Hsafe_c Hall].
  apply Forall_cons in Hall as [Hsafe_o Hall].
  apply Forall_cons in Hall as [Hsafe_t Hall].
  apply Forall_app in Hall as [Hsafe_pd Hsafe_cd].
  destruct (parseDataArray_returns pe _ _ Hhs Hsafe_pe) as [[pts|] Hrpe]; [|done].
  destruct (parseDataArray_returns c _ _ Hhs Hsafe_c) as [ca Hc].
  destruct (parseDataArray_returns o _ _ Hhs Hsafe_o) as [oa Ho].
  destruct (parseDataArray_returns t _ _ Hhs Hsafe_t) as [ta Ht].
  destruct (add_fields_returns appendedMap headerSize _ Hhs Hsafe_pd []) as [pf Hpf].
  destruct (add_fields_returns appendedMap headerSize _ Hhs Hsafe_cd []) as [cf Hcf].
  exists pts, pf, cf. split; [done|]. split; [done|]. split; [done|].
  unfold xml_parse. rewrite Hpe, Hrpe, Hcells, Hc, Ho, Ht, Hpf, Hcf.
  assert (∃ w, xml_cells_walk (NumberOfCells p) ca oa ta = Some w
               ∧ indices w = [] ∧ cellIdMap w = []) as (w & -> & Hi & Hm).
  { unfold xml_cells_walk.
    destruct Hno as [Hn|[Hnull|[Hnull|[Hnull|(n & Hn & Hle & Hint)]]]].
    - rewrite Hn. exists empty_walk. by destruct ca, oa, ta.
    - rewrite Hnull in Hc. injection Hc as <-. by exists empty_walk.
    - rewrite Hnull in Ho. injection Ho as <-. exists empty_walk. by destruct ca.
    - rewrite Hnull in Ht. injection Ht as <-. exists empty_walk. by destruct ca, oa.
    - rewrite Hn.
      destruct ca as [ca|], oa as [oa|], ta as [ta|]; try by exists empty_walk.
      apply Forall_cons in Hint as [Hic Hint].
      apply Forall_cons in Hint as [Hio Hint].
      apply Forall_cons in Hint as [Hit _].
      destruct (Hic ca Hc) as [cs ->]. destruct (Hio oa Ho) as [os ->].
      destruct (Hit ta Ht) as [ts ->]. cbn [mbind option_bind].
      eexists. split; [reflexivity|]. unfold xml_walk.
      by rewrite for_lt_empty by (unfold len; lia). }
  cbn [mbind option_bind]. unfold build_geometry. by rewrite Hi, Hm.
Qed.
End xml_arrays.

Lemma X17_witness :
  parseDataArray no_atob bytes_array no_ascii array_before_buffer sample_appended 4
  = Thrown
  ↔ header_before_buffer 4 sample_appended array_before_buffer.
Proof.
  apply (X17_parseDataArray_throws_iff no_atob bytes_array no_ascii
           array_before_buffer sample_appended 4).
  by left.
Defined.

Lemma X18_witness :
  Forall xml_field [MkField (Some "pressure") (Fin (inject_Z 170)) (Fin (inject_Z 187))
                      [Fin (inject_Z 170); Fin (inject_Z 187)]]
  ∧ (name <$> [MkField (Some "pressure") (Fin (inject_Z 170)) (Fin (inject_Z 187))
                 [Fin (inject_Z 170); Fin (inject_Z 187)]])
    `sublist_of` (field_name <$> [sample_array 7; sample_array 0]).
Proof.
  apply (X18_xml_fields no_atob bytes_array no_ascii sample_appended 4
           [sample_array 7; sample_array 0]).
  reflexivity.
Defined.

Lemma X19_witness :
  xml_parse no_atob bytes_array no_ascii 4 sample_appended
    (with_point_data piece_without_cells ([sample_array 0] ++ sample_array 7 :: []))
  = xml_parse no_atob bytes_array no_ascii 4 sample_appended
      (with_point_data piece_without_cells ([sample_array 0] ++ []))
  ∧ xml_parse no_atob bytes_array no_ascii 4 sample_appended
      (MkPiece (NumberOfCells piece_without_cells) (pointsElement piece_without_cells)
         (cellsElement piece_without_cells) (pointDataEl piece_without_cells)
         (Some ([sample_array 0] ++ sample_array 7 :: [])))
    = xml_parse no_atob bytes_array no_ascii 4 sample_appended
        (MkPiece (NumberOfCells piece_without_cells)
           (pointsElement piece_without_cells)
           (cellsElement piece_without_cells) (pointDataEl piece_without_cells)
           (Some ([sample_array 0] ++ []))).
Proof.
  apply (X19_array_without_field_is_skipped no_atob bytes_array no_ascii 4
           sample_appended piece_without_cells [sample_array 0] [] (sample_array 7) []).
  right. left. reflexivity.
Defined.

Lemma X20_witness :
  ∃ points pointDataFields cellDataFields,
    parseDataArray no_atob bytes_array no_ascii sample_points sample_appended 4
    = Returned (Some points)
    ∧ add_fields no_atob bytes_array no_ascii sample_appended 4
        (default [] (pointDataEl piece_without_cells)) []
      = Returned pointDataFields
    ∧ add_fields no_atob bytes_array no_ascii sample_appended 4
        (default [] (cellDataEl piece_without_cells)) []
      = Returned cellDataFields
    ∧ xml_parse no_atob bytes_array no_ascii 4 sample_appended piece_without_cells
      = Returned (Some (MkGeometry points None
                          (MkVTKData pointDataFields cellDataFields []))).
Proof.
  apply (X20_piece_without_cells no_atob bytes_array no_ascii 4 sample_appended
           piece_without_cells sample_points (empty_array "connectivity")
           (empty_array "offsets") (empty_array "types")).
  - by left.
  - reflexivity.
  - reflexivity.
  - repeat (apply Forall_cons; split; [by intros [? _]|]). by apply Forall_nil.
  - discriminate.
  - right. left. reflexivity.
Defined.

(** ** Typed arrays *)

Lemma byte_value_of z : 0 ≤ z < 256 → byte_value (byte_of z) = z.
Proof.
  intros Hz. unfold byte_value, byte_of.
  destruct (Byte.of_N (Z.to_N z)) as [b|] eqn:Hb.
  - apply Byte.to_of_N in Hb. simpl. rewrite Hb. lia.
  - apply Byte.of_N_None_iff in Hb. lia.
Qed.

Lemma length_le_bytes n v : length (le_bytes n v) = n.
Proof. revert v. induction n as [|n IH]; intros v; simpl; [done|by rewrite IH]. Qed.

Lemma little_endian_le_bytes n v :
  little_endian (le_bytes n v) = v mod 256 ^ Z.of_nat n.
Proof.
  revert v. induction n as [|n IH]; intros v.
  - simpl. by rewrite Z.mod_1_r.
  - cbn [le_bytes little_endian]. rewrite IH.
    rewrite byte_value_of by (apply Z.mod_pos_bound; lia).
    rewrite Nat2Z.inj_succ, Z.pow_succ_r by lia.
    rewrite (Z.rem_mul_r v 256 (256 ^ Z.of_nat n)) by lia. done.
Qed.

Lemma words_app (w rest : list byte) :
  length w = 4%nat → words (w ++ rest) = w :: words rest.
Proof. destruct w as [|b0 [|b1 [|b2 [|b3 [|b4 w]]]]]; by intros [=]. Qed.

Lemma doubles_app (d rest : list byte) :
  length d = 8%nat → doubles (d ++ rest) = d :: doubles rest.
Proof.
  destruct d as [|b0 [|b1 [|b2 [|b3 [|b4 [|b5 [|b6 [|b7 [|b8 d]]]]]]]]];
    by intros [=].
Qed.

Lemma words_int_bytes zs : words (int_bytes 4 zs) = le_bytes 4 <$> zs.
Proof.
  induction zs as [|z zs IH]; [done|].
  unfold int_bytes. cbn [flat_map]. fold (int_bytes 4 zs).
  rewrite words_app by apply length_le_bytes. by rewrite IH.
Qed.

Lemma doubles_int_bytes zs : doubles (int_bytes 8 zs) = le_bytes 8 <$> zs.
Proof.
  induction zs as [|z zs IH]; [done|].
  unfold int_bytes. cbn [flat_map]. fold (int_bytes 8 zs).
  rewrite doubles_app by apply length_le_bytes. by rewrite IH.
Qed.

Lemma len_int_bytes size zs : len (int_bytes size zs) = Z.of_nat size * len zs.
Proof.
  induction zs as [|z zs IH]; [unfold len; simpl; lia|].
  unfold int_bytes, len in *. cbn [flat_map].
  rewrite length_app, length_le_bytes. simpl length. lia.
Qed.

Lemma to_int32_wrap z : int32_range z → to_int32 (z mod 2 ^ 32) = z.
Proof.
  unfold int32_range, to_int32. intros Hz.
  rewrite Zplus_mod_idemp_l. rewrite Z.mod_small by lia. lia.
Qed.

Lemma to_int32_unsigned u :
  0 ≤ u < 2 ^ 32 → to_int32 u = if u <? 2 ^ 31 then u else u - 2 ^ 32.
Proof.
  intros Hu. unfold to_int32.
  destruct (u <? 2 ^ 31) eqn:H; [apply Z.ltb_lt in H|apply Z.ltb_ge in H].
  - rewrite Z.mod_small by lia. lia.
  - replace (u + 2 ^ 31) with (u - 2 ^ 31 + 1 * 2 ^ 32) by lia.
    rewrite Z.mod_add by lia. rewrite Z.mod_small by lia. lia.
Qed.

Lemma int64_le_bytes z : - 2 ^ 63 ≤ z < 2 ^ 63 → int64 (le_bytes 8 z) = z.
Proof.
  intros Hz. unfold int64. rewrite little_endian_le_bytes.
  change (256 ^ Z.of_nat 8) with (2 ^ 64). cbv zeta.
  destruct (Z_lt_le_dec z 0) as [Hneg|Hpos].
  - assert (z mod 2 ^ 64 = z + 2 ^ 64) as ->.
    { replace z with (z + 2 ^ 64 + (-1) * 2 ^ 64) at 1 by lia.
      rewrite Z.mod_add by lia. apply Z.mod_small. lia. }
    rewrite (proj2 (Z.ltb_ge _ _)) by lia. lia.
  - rewrite Z.mod_small by lia. by rewrite (proj2 (Z.ltb_lt _ _)) by lia.
Qed.

Lemma number_of_bigint_small x : Z.abs x < 2 ^ 53 → number_of_bigint x = x.
Proof.
  intros Hx. unfold number_of_bigint. cbv zeta.
  by rewrite (proj2 (Z.ltb_lt (Z.abs x) (2 ^ 53))) by done.
Qed.

Lemma length_words_aux n : ∀ bs, (length bs < n)%nat →
  length (words bs) = (length bs / 4)%nat.
Proof.
  induction n as [|n IH]; intros bs Hn; [lia|].
  destruct bs as [|b0 [|b1 [|b2 [|b3 rest]]]]; try done.
  cbn [words length]. rewrite IH by (simpl in Hn; lia).
  replace (S (S (S (S (length rest))))) with (1 * 4 + length rest)%nat by lia.
  rewrite Nat.div_add_l by lia. lia.
Qed.

Lemma len_words bs : len (words bs) = len bs / 4.
Proof.
  unfold len. rewrite (length_words_aux (S (length bs))) by lia.
  by rewrite Nat2Z.inj_div.
Qed.

Lemma length_doubles_aux n : ∀ bs, (length bs < n)%nat →
  length (doubles bs) = (length bs / 8)%nat.
Proof.
  induction n as [|n IH]; intros bs Hn; [lia|].
  destruct bs as [|b0 [|b1 [|b2 [|b3 [|b4 [|b5 [|b6 [|b7 rest]]]]]]]]; try done.
  cbn [doubles length]. rewrite IH by (simpl in Hn; lia).
  replace (S (S (S (S (S (S (S (S (length rest)))))))))
    with (1 * 8 + length rest)%nat by lia.
  rewrite Nat.div_add_l by lia. lia.
Qed.

Lemma len_doubles bs : len (doubles bs) = len bs / 8.
Proof.
  unfold len. rewrite (length_doubles_aux (S (length bs))) by lia.
  by rewrite Nat2Z.inj_div.
Qed.

Lemma aligned_int_bytes (size : nat) zs :
  size ≠ 0%nat → (len (int_bytes size zs) mod Z.of_nat size =? 0) = true.
Proof.
  intros Hsize. rewrite len_int_bytes. apply Z.eqb_eq.
  rewrite Z.mul_comm. apply Z.mod_mul. lia.
Qed.

Section typed_array_facts.
Variable float32 : list byte → num.
Variable float64 : list byte → num.

Local Abbreviation createTypedArray' := (createTypedArray float32 float64).

Lemma int64_array_read_back (zs : list Z) :
  Forall int32_range zs →
  createTypedArray' (Some "Int64") (int_bytes 8 zs) = Int32Array zs.
Proof.
  intros Hzs. unfold createTypedArray.
  rewrite decide_False by done. rewrite decide_False by done.
  rewrite decide_False by done. rewrite decide_True by done.
  rewrite (aligned_int_bytes 8) by done.
  rewrite doubles_int_bytes, <- list_fmap_compose. f_equal.
  rewrite <- (list_fmap_id zs) at 2. apply Forall_fmap_ext_1.
  eapply Forall_impl; [exact Hzs|]. intros z Hz. unfold compose.
  unfold int32_range in Hz. rewrite int64_le_bytes by lia.
  rewrite number_of_bigint_small by lia.
  unfold to_int32, id. rewrite Z.mod_small by lia. lia.
Qed.

Lemma bytes_read_back (bs : list Z) :
  Forall (fun b => 0 ≤ b < 256) bs →
  createTypedArray' (Some "UInt8") (byte_of <$> bs) = Uint8Array bs.
Proof.
  intros Hbs. unfold createTypedArray.
  do 4 rewrite decide_False by done. rewrite decide_True by done.
  rewrite <- list_fmap_compose. f_equal.
  rewrite <- (list_fmap_id bs) at 2. apply Forall_fmap_ext_1.
  eapply Forall_impl; [exact Hbs|]. intros b Hb. unfold compose. by apply byte_value_of.
Qed.

(** X21.  Integers of the 32-bit range written in two's complement,
    little-endian, on four bytes each are read back unchanged by
    [createTypedArray] for type [Int32], and so are the same integers
    written on eight bytes each for type [Int64]: the detour of the
    latter through [BigInt64Array] and [Number] loses nothing on that
    range. *)
Theorem X21_signed_arrays_round_trip (zs : list Z) :
  Forall int32_range zs →
  createTypedArray' (Some "Int32") (int_bytes 4 zs) = Int32Array zs
  ∧ createTypedArray' (Some "Int64") (int_bytes 8 zs) = Int32Array zs.
Proof.
  intros Hzs. split; [|by apply int64_array_read_back].
  unfold createTypedArray.
  rewrite decide_False by done. rewrite decide_False by done.
  rewrite decide_True by done. rewrite (aligned_int_bytes 4) by done.
  rewrite words_int_bytes, <- list_fmap_compose. f_equal.
  rewrite <- (list_fmap_id zs) at 2. apply Forall_fmap_ext_1.
  eapply Forall_impl; [exact Hzs|]. intros z Hz. unfold compose.
  rewrite little_endian_le_bytes. by apply to_int32_wrap.
Qed.

(** X22.  Unsigned input: bytes are read back unchanged for type
    [UInt8]; 32-bit unsigned integers written little-endian are read
    back for type [UInt32] as signed ones, so that a value from 2^31 on
    comes back lowered by 2^32, as a negative number. *)
Theorem X22_unsigned_arrays (bs us : list Z) :
  Forall (fun b => 0 ≤ b < 256) bs →
  Forall (fun u => 0 ≤ u < 2 ^ 32) us →
  createTypedArray' (Some "UInt8") (byte_of <$> bs) = Uint8Array bs
  ∧ createTypedArray' (Some "UInt32") (int_bytes 4 us)
    = Int32Array ((fun u => if u <? 2 ^ 31 then u else u - 2 ^ 32) <$> us).
Proof.
  intros Hbs Hus. split; [by apply bytes_read_back|]. unfold createTypedArray.
  do 5 rewrite decide_False by done. rewrite decide_True by done.
  rewrite (aligned_int_bytes 4) by done.
  rewrite words_int_bytes, <- list_fmap_compose. f_equal.
  apply Forall_fmap_ext_1. eapply Forall_impl; [exact Hus|]. intros u Hu.
  unfold compose.
  rewrite little_endian_le_bytes. change (256 ^ Z.of_nat 4) with (2 ^ 32).
  rewrite Z.mod_small by done. by apply to_int32_unsigned.
Qed.

(** X23.  The length of the array that [createTypedArray] returns: the
    byte length divided by the element size of the type when the former
    is a multiple of the latter.  Otherwise the constructor's exception
    is caught, and the result is an array of zeros, one for every four
    whole bytes, whatever the type; type [UInt8] never comes to this. *)
Theorem X23_typed_array_length (type : option string) (buffer : list byte) :
  (len (array_from (createTypedArray' type buffer))
   = if len buffer mod element_size type =? 0
     then len buffer / element_size type else len buffer / 4)
  ∧ (len buffer mod element_size type = 0
     ∨ createTypedArray' type buffer = zeros buffer).
Proof.
  assert (len (array_from (zeros buffer)) = len buffer / 4) as Hzeros.
  { unfold zeros, len. simpl. rewrite length_replicate.
    rewrite Z2Nat.id; [done|]. apply Z.div_pos; lia. }
  unfold createTypedArray, element_size.
  repeat (destruct (decide _) as [?|?]; try congruence);
    try (destruct (len buffer mod _ =? 0) eqn:Hmod;
         [apply Z.eqb_eq in Hmod|apply Z.eqb_neq in Hmod];
         (split; [|by (left + right)]); try done; simpl;
         rewrite <- ?len_words, <- ?len_doubles; unfold len;
         by rewrite ?length_fmap).
  split.
  - rewrite Z.mod_1_r, Z.div_1_r. simpl. unfold len. by rewrite !length_fmap.
  - left. by rewrite Z.mod_1_r.
Qed.
End typed_array_facts.

Lemma X21_witness :
  createTypedArray (fun _ => NaN) (fun _ => NaN) (Some "Int32") (int_bytes 4 [-1; 7])
  = Int32Array [-1; 7]
  ∧ createTypedArray (fun _ => NaN) (fun _ => NaN) (Some "Int64") (int_bytes 8 [-1; 7])
    = Int32Array [-1; 7].
Proof.
  apply (X21_signed_arrays_round_trip (fun _ => NaN) (fun _ => NaN) [-1; 7]).
  unfold int32_range. repeat constructor; lia.
Defined.

Lemma X22_witness :
  createTypedArray (fun _ => NaN) (fun _ => NaN) (Some "UInt8") (byte_of <$> [0; 255])
  = Uint8Array [0; 255]
  ∧ createTypedArray (fun _ => NaN) (fun _ => NaN) (Some "UInt32")
      (int_bytes 4 [1; 4294967295])
    = Int32Array ((fun u => if u <? 2 ^ 31 then u else u - 2 ^ 32) <$> [1; 4294967295]).
Proof.
  apply (X22_unsigned_arrays (fun _ => NaN) (fun _ => NaN) [0; 255] [1; 4294967295]).
  - repeat constructor; lia.
  - repeat constructor; lia.
Defined.

(** ** A piece with appended arrays *)

Lemma len_app {A} (l k : list A) : len (l ++ k) = len l + len k.
Proof. unfold len. rewrite length_app. lia. Qed.

Lemma len_nonneg {A} (l : list A) : 0 ≤ len l.
Proof. unfold len. lia. Qed.

Lemma len_block hs payload : 0 ≤ hs → len (block hs payload) = hs + len payload.
Proof.
  intros Hhs. unfold block. rewrite len_app. unfold len at 1.
  rewrite length_le_bytes. lia.
Qed.

Section appended_blocks.
Variable atob : string → option (list byte).
Variable createTypedArray : option string → list byte → typedArray.
Variable parseAscii : option string → string → typedArray.

(** An appended array whose start is the start of a block. *)
Lemma parseDataArray_block el appendedMap headerSize pre payload post off :
  format el = Some "appended" → offset el = Some off →
  buffer appendedMap = Some (pre ++ block headerSize payload ++ post) →
  resolved_start appendedMap off = len pre →
  headerSize = 4 ∨ headerSize = 8 →
  len payload < 2 ^ 32 →
  parseDataArray atob createTypedArray parseAscii el appendedMap headerSize
  = Returned (Some (createTypedArray (type el) payload)).
Proof.
  intros Hfmt Hoff Hbuf Hstart Hhs Hsize. unfold parseDataArray.
  rewrite decide_True by done. rewrite Hoff, Hbuf.
  fold (resolved_start appendedMap off). rewrite Hstart.
  set (buf := pre ++ block headerSize payload ++ post).
  assert (0 ≤ headerSize) as Hpos by (destruct Hhs; lia).
  assert (len buf = len pre + headerSize + len payload + len post) as Hlen.
  { unfold buf. rewrite !len_app, len_block by done. lia. }
  pose proof (len_nonneg pre). pose proof (len_nonneg payload).
  pose proof (len_nonneg post).
  rewrite (proj2 (Z.leb_gt _ _)) by (destruct Hhs; lia).
  rewrite (proj2 (Z.ltb_ge _ _)) by lia.
  rewrite read_header_little_endian by (done || lia).
  assert (take (Z.to_nat headerSize) (drop (Z.to_nat (len pre)) buf)
          = le_bytes (Z.to_nat headerSize) (len payload)) as ->.
  { unfold buf, block, len at 1. rewrite Nat2Z.id, drop_app_length.
    rewrite <- !app_assoc. apply take_app_length'. by rewrite length_le_bytes. }
  rewrite little_endian_le_bytes.
  assert (2 ^ 32 ≤ 256 ^ Z.of_nat (Z.to_nat headerSize)) as Hbig
    by (destruct Hhs as [-> | ->]; by vm_compute).
  rewrite Z.mod_small by lia.
  rewrite (proj2 (Z.ltb_ge _ _)) by lia. do 3 f_equal.
  unfold slice, buf, block.
  replace (Z.to_nat (len pre + headerSize))
    with (length (pre ++ le_bytes (Z.to_nat headerSize) (len payload)))
    by (rewrite length_app, length_le_bytes; unfold len; lia).
  rewrite <- !app_assoc.
  rewrite (app_assoc pre), drop_app_length.
  apply take_app_length'. unfold len. lia.
Qed.
End appended_blocks.

Lemma cell_offsets_bounds start cells :
  Forall (fun o => start ≤ o ≤ start + len (cell_connectivity cells))
         (cell_offsets start cells).
Proof.
  revert start. induction cells as [|c cells IH]; intros start; [constructor|].
  cbn [cell_offsets]. unfold cell_connectivity. cbn [flat_map].
  fold (cell_connectivity cells). rewrite len_app.
  pose proof (len_nonneg c.2). pose proof (len_nonneg (cell_connectivity cells)).
  constructor; [lia|].
  eapply Forall_impl; [apply (IH (start + len c.2))|]. simpl. intros o Ho. lia.
Qed.

(** The XML walk on whole cells with one offset and one type each. *)
Lemma xml_walk_whole_cells (cells : list (Z * list Z)) :
  let w := xml_walk (len cells) (cell_connectivity cells) (cell_offsets 0 cells)
                    (cell_types cells) in
  calls w = cell_calls cells ∧ numbered w.
Proof.
  destruct (xml_walk_run (len cells) (cell_connectivity cells)
              (cell_offsets 0 cells) (cell_types cells)) as [Hnum Hcalls].
  split; [|done]. rewrite Hcalls. unfold xml_cells.
  replace (Z.min (len cells)
             (Z.min (len (cell_offsets 0 cells)) (len (cell_types cells))))
    with (len cells)
    by (unfold len, cell_types; rewrite length_cell_offsets, length_fmap; lia).
  apply (xml_cells_encoded [] [] [] cells); done.
Qed.

(** X24.  A piece whose arrays are appended, from the [Piece] element
    and the appended-data map on: what comes before in [parse], the
    parsing of the document and the decoding of the base64 block into
    the map's buffer, is not part of the statement.  The buffer holds
    the coordinates as [Float32], the connectivity and the offsets as
    [Int64] and the types as [UInt8], each array behind a header of 4 or
    8 bytes that gives its byte size, and each [DataArray] has the
    offset of its header; the encoding is not [raw].  Then [parse]
    returns a geometry whose position is the typed array of the
    coordinates, whose index buffer is made of the triangles of the
    cells in order, and whose cell-ID map numbers each triangle by its
    cell.  The conditions are that ids fit 32 bits, types fit a byte,
    and each array is shorter than 2^32 bytes; the offsets then fit 32
    bits too, and the loops over the connectivity end. *)
Theorem X24_piece_with_appended_arrays
    (atob : string → option (list byte)) (float32 float64 : list byte → num)
    (parseAscii : option string → string → typedArray)
    (headerSize : Z) (appendedMap : appendedDataMap) (coordinates : list byte)
    (cells : list (Z * list Z)) :
  headerSize = 4 ∨ headerSize = 8 →
  buffer appendedMap = Some (vtu_appended headerSize coordinates cells) →
  encoding appendedMap ≠ "raw" →
  len coordinates < 2 ^ 32 →
  writable_cells cells →
  ∃ g, xml_parse atob (createTypedArray float32 float64) parseAscii headerSize
         appendedMap (vtu_piece headerSize coordinates cells)
       = Returned (Some g)
       ∧ vtu_geometry (createTypedArray float32 float64 (Some "Float32") coordinates)
                      cells g.
Proof.
  intros Hhs Hbuf Henc Hcoords (Hids & Htys & Hconn & Hcells).
  pose (pre := @nil byte).
  change (vtu_appended headerSize coordinates cells)
    with (pre ++ vtu_appended headerSize coordinates cells) in Hbuf.
  assert (∀ off, resolved_start appendedMap off = len pre + off) as Hstart.
  { intros off. unfold resolved_start. by rewrite decide_False by done. }
  assert (0 ≤ headerSize) as Hpos by (destruct Hhs; lia).
  set (b0 := block headerSize coordinates).
  set (b1 := block headerSize (int_bytes 8 (cell_connectivity cells))).
  set (b2 := block headerSize (int_bytes 8 (cell_offsets 0 cells))).
  set (b3 := block headerSize (byte_of <$> cell_types cells)).
  assert (len (cell_offsets 0 cells) = len cells) as Hoffs
    by (unfold len; by rewrite length_cell_offsets).
  assert (len (cell_types cells) = len cells) as Htlen
    by (unfold len, cell_types; by rewrite length_fmap).
  unfold xml_parse, vtu_piece. cbv zeta.
  cbn [pointsElement cellsElement NumberOfCells pointDataEl cellDataEl].
  fold b0 b1 b2.
  rewrite (parseDataArray_block _ _ _ _ _ _ pre coordinates (b1 ++ b2 ++ b3) 0);
    [|done|done|by rewrite Hbuf|by rewrite Hstart, Z.add_0_r|done|done].
  rewrite (parseDataArray_block _ _ _ _ _ _ (pre ++ b0)
             (int_bytes 8 (cell_connectivity cells)) (b2 ++ b3) (len b0));
    [|done|done|by rewrite Hbuf; unfold vtu_appended; rewrite <- !app_assoc
     |by rewrite Hstart, len_app|done|by rewrite len_int_bytes; lia].
  rewrite (parseDataArray_block _ _ _ _ _ _ (pre ++ b0 ++ b1)
             (int_bytes 8 (cell_offsets 0 cells)) b3 (len b0 + len b1));
    [|done|done|by rewrite Hbuf; unfold vtu_appended; rewrite <- !app_assoc
     |by rewrite Hstart, !len_app; lia|done|by rewrite len_int_bytes; lia].
  rewrite (parseDataArray_block _ _ _ _ _ _ (pre ++ b0 ++ b1 ++ b2)
             (byte_of <$> cell_types cells) [] (len b0 + len b1 + len b2));
    [|done|done|by rewrite Hbuf; unfold vtu_appended; rewrite <- !app_assoc, app_nil_r
     |by rewrite Hstart, !len_app; lia|done
     |by unfold len in *; rewrite length_fmap; lia].
  cbn [type appended_array default add_fields].
  rewrite (int64_array_read_back float32 float64 (cell_connectivity cells) Hids).
  rewrite (int64_array_read_back float32 float64 (cell_offsets 0 cells)).
  2:{ eapply Forall_impl; [apply cell_offsets_bounds|]. simpl.
    unfold int32_range. intros o Ho. pose proof (len_nonneg (cell_connectivity cells)).
    lia. }
  rewrite (bytes_read_back float32 float64 (cell_types cells) Htys).
  unfold xml_cells_walk, integers. cbn [mbind option_bind].
  eexists. split; [reflexivity|].
  destruct (xml_walk_whole_cells cells) as [Hcalls [Hind Hmap]].
  unfold vtu_geometry, build_geometry, index_buffer. cbn [position index userData].
  split; [done|]. split.
  - rewrite <- Hcalls, <- Hind.
    destruct (0 <? len _) eqn:Hp; [done|]. apply Z.ltb_ge in Hp.
    symmetry. apply length_zero_iff_nil. unfold len in *. lia.
  - unfold cell_ids. by rewrite Hmap, Hcalls.
Qed.

Lemma X24_witness :
  ∃ g, xml_parse no_atob (createTypedArray (fun _ => NaN) (fun _ => NaN)) no_ascii 4
         sample_block (vtu_piece 4 sample_coordinates sample_cells)
       = Returned (Some g)
       ∧ vtu_geometry
           (createTypedArray (fun _ => NaN) (fun _ => NaN) (Some "Float32")
              sample_coordinates)
           sample_cells g.
Proof.
  apply (X24_piece_with_appended_arrays no_atob (fun _ => NaN) (fun _ => NaN)
           no_ascii 4 sample_block sample_coordinates sample_cells).
  - by left.
  - reflexivity.
  - simpl. discriminate.
  - by vm_compute.
  - unfold writable_cells, int32_range. simpl.
    split; [|split; [|split]]; [| |by vm_compute|by vm_compute];
      repeat (apply Forall_cons; split; [lia|]); by apply Forall_nil.
Defined.

(** ** The two versions of the XML loader *)

(** X25.  The two versions of [VTULoader.parseDataArray] agree on inline
    arrays: for an element whose format is not [appended] and whose type
    is neither [Int64] nor [UInt32], with the default header of four
    bytes, the version with appended data returns, and never throws,
    what the version without returns.  ([atob] decodes the empty text to
    no byte.)  The two types are excluded because the version without
    appended data reads them as [Float32]. *)
Theorem X25_loaders_agree_on_inline_arrays
    (atob : string → option (list byte)) (float32 float64 : list byte → num)
    (parseAscii : option string → string → typedArray)
    (el : element) (appendedMap : appendedDataMap) :
  atob "" = Some [] →
  format el ≠ Some "appended" →
  type el ≠ Some "Int64" → type el ≠ Some "UInt32" →
  parseDataArray atob (createTypedArray float32 float64) parseAscii el appendedMap 4
  = Returned (Inline.parseDataArray atob float32 float64 parseAscii el).
Proof.
  intros Hatob Hfmt H64 H32. unfold parseDataArray, Inline.parseDataArray.
  rewrite decide_False by done.
  destruct (decide (text el = "")) as [Htext|Htext].
  - destruct (decide (format el = Some "binary")); [|done].
    by rewrite Htext, Hatob.
  - destruct (decide (format el = Some "binary")); [|done].
    destruct (atob (text el)) as [bytes|]; [|done]. cbv zeta.
    destruct (len bytes <=? 4); [done|]. do 2 f_equal.
    unfold createTypedArray, Inline.createTypedArray. cbv zeta.
    change (Z.to_nat 4) with 4%nat.
    repeat (destruct (decide _) as [?|?]; try congruence).
Qed.

Lemma X25_witness :
  parseDataArray atob_of_empty (createTypedArray (fun _ => NaN) (fun _ => NaN))
    no_ascii (empty_array "offsets") sample_appended 4
  = Returned (Inline.parseDataArray atob_of_empty (fun _ => NaN) (fun _ => NaN)
                no_ascii (empty_array "offsets")).
Proof.
  apply (X25_loaders_agree_on_inline_arrays atob_of_empty (fun _ => NaN)
           (fun _ => NaN) no_ascii (empty_array "offsets") sample_appended).
  - reflexivity.
  - simpl. discriminate.
  - simpl. discriminate.
  - simpl. discriminate.
Defined.

(** ** The two versions of the legacy loader *)

Lemma int_get_app_r (a : list Z) (x : Z) rest :
  int_get (a ++ x :: rest) (len a) = JNum x.
Proof.
  unfold int_get. rewrite (proj2 (Z.ltb_ge _ _)) by (unfold len; lia).
  unfold len. rewrite Nat2Z.id, lookup_app_r by done. by rewrite Nat.sub_diag.
Qed.

Lemma unguarded_slice ids :
  ∀ (pre rest : list Z) (acc : list jsval) (j : Z),
    iterate_from (length ids) j
      (fun _ '(cellIndices, cellDataIndex) =>
         (cellIndices ++ [int_get (pre ++ ids ++ rest) cellDataIndex],
          cellDataIndex + 1))
      (acc, len pre)
    = (acc ++ (JNum <$> ids), len pre + len ids).
Proof.
  induction ids as [|x ids IH]; intros pre rest acc j.
  - simpl. rewrite app_nil_r. unfold len. simpl. f_equal. lia.
  - cbn [length iterate_from]. cbn [app]. rewrite int_get_app_r.
    replace (len pre + 1) with (len (pre ++ [x])) by (rewrite len_app; done).
    replace (pre ++ x :: ids ++ rest) with ((pre ++ [x]) ++ ids ++ rest)
      by (by rewrite <- app_assoc).
    rewrite IH. rewrite fmap_cons, <- app_assoc. f_equal.
    rewrite len_app. unfold len. simpl. lia.
Qed.

Lemma unguarded_slice_eq (pre ids rest : list Z) :
  Unguarded.legacy_slice (pre ++ ids ++ rest) (JNum (len ids)) (len pre)
  = (JNum <$> ids, len pre + len ids).
Proof.
  unfold Unguarded.legacy_slice, for_lt. rewrite Z.sub_0_r. unfold len at 1.
  rewrite Nat2Z.id. apply (unguarded_slice ids pre rest [] 0).
Qed.

Lemma unguarded_iterate cells :
  ∀ (pre tys_pre : list Z) (ind : list jsval) (map : list Z),
    iterate_from (length cells) (len tys_pre)
      (Unguarded.legacy_cell (pre ++ cell_buffer (snd <$> cells))
                             (tys_pre ++ cell_types cells))
      (len pre, (ind, map))
    = (len (pre ++ cell_buffer (snd <$> cells)),
       (ind ++ flat_map cell_triangles (cell_calls cells),
        map ++ concat (imap (fun k c => replicate (cell_count c)
                                          (len tys_pre + Z.of_nat k))
                            (cell_calls cells)))).
Proof.
  induction cells as [|[t ids] cells IH]; intros pre tys_pre ind map.
  - simpl. by rewrite !app_nil_r.
  - cbn [length iterate_from].
    change (cell_buffer (snd <$> (t, ids) :: cells))
      with ((len ids :: ids) ++ cell_buffer (snd <$> cells)).
    change (cell_types ((t, ids) :: cells)) with (t :: cell_types cells).
    assert (Unguarded.legacy_cell
              (pre ++ (len ids :: ids) ++ cell_buffer (snd <$> cells))
              (tys_pre ++ t :: cell_types cells) (len tys_pre) (len pre, (ind, map))
            = (len (pre ++ len ids :: ids),
               (ind ++ triangles_of t (JNum <$> ids),
                map ++ replicate (cell_count (t, JNum <$> ids)) (len tys_pre))))
      as ->.
    { unfold Unguarded.legacy_cell. rewrite int_get_app_r.
      cbn [app]. rewrite int_get_app_r.
      replace (len pre + 1) with (len (pre ++ [len ids])) by (rewrite len_app; done).
      replace (pre ++ len ids :: ids ++ cell_buffer (snd <$> cells))
        with ((pre ++ [len ids]) ++ ids ++ cell_buffer (snd <$> cells))
        by (by rewrite <- app_assoc).
      rewrite unguarded_slice_eq. cbn [Unguarded.triangulate].
      rewrite call_triangulateCell_eq, for_lt_push.
      f_equal; [rewrite !len_app; unfold len; simpl; lia|]. f_equal. f_equal.
      unfold cell_count, cell_triangles. simpl. unfold len.
      rewrite <- (Nat2Z.inj_div _ 3). by rewrite Nat2Z.id. }
    replace (pre ++ (len ids :: ids) ++ cell_buffer (snd <$> cells))
      with ((pre ++ len ids :: ids) ++ cell_buffer (snd <$> cells))
      by (by rewrite <- app_assoc).
    replace (tys_pre ++ t :: cell_types cells)
      with ((tys_pre ++ [t]) ++ cell_types cells) by (by rewrite <- app_assoc).
    replace (len tys_pre + 1) with (len (tys_pre ++ [t])) by (rewrite len_app; done).
    rewrite IH. f_equal. unfold cell_calls. rewrite fmap_cons.
    cbn [flat_map imap concat]. rewrite <- !app_assoc. f_equal.
    f_equal. simpl fst. simpl snd. rewrite Z.add_0_r. do 2 f_equal.
    apply imap_ext. intros k c _. unfold compose. rewrite len_app. f_equal.
    unfold len. simpl. lia.
Qed.

(** X26.  On a grid whose cell buffer is made of whole cells, with one
    type for each cell and the right cell count, the version of the
    legacy loader without guards builds the index buffer and the cell-ID
    map that the guarded version builds: the triangles of the cells in
    order, each numbered by its cell.  The versions part on a buffer that
    ends inside a cell: the guarded walk drops the cut triangle, the
    other one writes [undefined] into the index buffer. *)
Theorem X26_legacy_versions_agree_on_whole_cells (cells : list (Z * list Z)) :
  Unguarded.legacy_walk (cell_buffer (snd <$> cells)) (cell_types cells) (len cells)
  = (flat_map cell_triangles (cell_calls cells), cell_ids (cell_calls cells))
  ∧ Unguarded.legacy_walk (cell_buffer (snd <$> cells)) (cell_types cells) (len cells)
    = guarded_walk (cell_buffer (snd <$> cells)) (cell_types cells) (len cells)
  ∧ Unguarded.legacy_walk [3; 0; 1] [5] 1 = ([JNum 0; JNum 1; JUndefined], [0])
  ∧ guarded_walk [3; 0; 1] [5] 1 = ([], []).
Proof.
  assert (Unguarded.legacy_walk (cell_buffer (snd <$> cells)) (cell_types cells)
            (len cells)
          = (flat_map cell_triangles (cell_calls cells), cell_ids (cell_calls cells)))
    as Hwalk.
  { unfold Unguarded.legacy_walk, for_lt. rewrite Z.sub_0_r. unfold len at 1.
    rewrite Nat2Z.id.
    assert (iterate_from (length cells) 0
              (Unguarded.legacy_cell (cell_buffer (snd <$> cells)) (cell_types cells))
              (0, ([], []))
            = (len (cell_buffer (snd <$> cells)),
               (flat_map cell_triangles (cell_calls cells),
                cell_ids (cell_calls cells)))) as H
      by exact (unguarded_iterate cells [] [] [] []).
    by rewrite H. }
  split; [done|]. split; [|split; reflexivity].
  rewrite Hwalk. unfold guarded_walk.
  destruct (legacy_walk_whole_cells cells) as [Hcalls [Hind Hmap]].
  unfold cell_ids. by rewrite Hind, Hmap, Hcalls.
Qed.

(** ** Raw appended data *)

Lemma starts_with_app pat rest : starts_with pat (pat ++ rest) = true.
Proof.
  induction pat as [|p pat IH]; [done|]. simpl.
  by rewrite (Byte.byte_dec_lb (eq_refl p)), IH.
Qed.

Lemma find_at_here pat rest i : find_at pat (pat ++ rest) i = Some i.
Proof.
  destruct (pat ++ rest) as [|b l] eqn:Heq.
  - simpl. destruct pat; [done|discriminate].
  - unfold find_at. rewrite <- Heq. by rewrite starts_with_app.
Qed.

Lemma find_at_skip pat head rest i :
  absent pat head rest →
  find_at pat (head ++ rest) i = find_at pat rest (i + len head).
Proof.
  revert i. induction head as [|b head IH]; intros i Habs.
  - simpl. unfold len. simpl. by rewrite Z.add_0_r.
  - cbn [app find_at].
    pose proof (Habs 0%nat ltac:(simpl; lia)) as H0. simpl in H0.
    change (starts_with pat (b :: head ++ rest)) with
      (starts_with pat ((b :: head) ++ rest)). cbn [app]. rewrite H0.
    rewrite IH.
    + f_equal. unfold len. simpl. lia.
    + intros j Hj. apply (Habs (S j)). simpl. lia.
Qed.

(** X27.  Raw appended data: when [<AppendedData] first occurs in the
    file behind [head], and the first underscore from there on is the
    marker, the loader keeps the whole file as the appended buffer and
    counts offsets from the byte behind the marker: the array of offset
    [off] starts at byte [off] of the data. *)
Theorem X27_raw_offsets_count_from_marker (head attrs data : list byte) :
  absent tag_bytes head (tag_bytes ++ attrs ++ [x5f] ++ data) →
  absent [x5f] (tag_bytes ++ attrs) ([x5f] ++ data) →
  raw_appended (raw_file head attrs data)
  = MkAppended (Some (raw_file head attrs data)) (len (raw_prefix head attrs)) "raw"
  ∧ ∀ off, resolved_start (raw_appended (raw_file head attrs data)) off
           = len (raw_prefix head attrs) + off.
Proof.
  intros Htag Hmarker.
  assert (raw_appended (raw_file head attrs data)
          = MkAppended (Some (raw_file head attrs data))
                       (len (raw_prefix head attrs)) "raw") as Hmap.
  { unfold raw_appended, indexOf. simpl drop.
    assert (raw_file head attrs data
            = head ++ tag_bytes ++ attrs ++ [x5f] ++ data) as Hfile
      by (unfold raw_file, raw_prefix; by rewrite <- !app_assoc).
    rewrite Hfile at 1. rewrite (find_at_skip _ _ _ _ Htag), find_at_here.
    rewrite Z.add_0_l. rewrite Hfile at 1. unfold len at 1.
    rewrite Nat2Z.id, drop_app_length.
    rewrite (app_assoc tag_bytes attrs).
    rewrite (find_at_skip _ _ _ _ Hmarker), (find_at_here [x5f] data).
    f_equal. unfold raw_prefix. rewrite !len_app. unfold len. simpl. lia. }
  split; [done|]. intros off. rewrite Hmap. reflexivity.
Qed.

Lemma X27_witness :
  raw_appended (raw_file [x3c; x61] [x3e] [x02; x00])
  = MkAppended (Some (raw_file [x3c; x61] [x3e] [x02; x00]))
               (len (raw_prefix [x3c; x61] [x3e])) "raw"
  ∧ ∀ off, resolved_start (raw_appended (raw_file [x3c; x61] [x3e] [x02; x00])) off
           = len (raw_prefix [x3c; x61] [x3e]) + off.
Proof.
  apply (X27_raw_offsets_count_from_marker [x3c; x61] [x3e] [x02; x00]).
  - intros j Hj. simpl in Hj.
    destruct j as [|[|j]]; [reflexivity|reflexivity|lia].
  - intros j Hj. simpl in Hj.
    do 14 (destruct j as [|j]; [reflexivity|]). lia.
Defined.

(** ** Poly-data *)

Lemma inferred_type_fan (ids : list jsval) :
  triangles_of (infer_type (len ids)) ids = triangles_of 7 ids.
Proof.
  destruct ids as [|a [|b [|c [|d [|e ids]]]]]; try reflexivity.
  unfold infer_type.
  assert (5 ≤ len (a :: b :: c :: d :: e :: ids)) as Hlen
    by (unfold len; simpl; lia).
  by do 4 rewrite (proj2 (Z.eqb_neq _ _)) by lia.
Qed.

Lemma read_polygon_lines polygons :
  ∀ sub nP nC pc pts raw tys cs pf cf,
    read_lines (polygon_lines polygons)
               (MkLines POLYGONS sub nP nC pc pts raw tys cs pf cf)
    = Returned
        (MkLines POLYGONS sub nP nC pc pts
           (raw ++ (of_int <$> cell_buffer polygons)) tys cs pf cf).
Proof.
  induction polygons as [|c polygons IH]; intros sub nP nC pc pts raw tys cs pf cf.
  - simpl. by rewrite app_nil_r.
  - change (polygon_lines (c :: polygons))
      with (Other (of_int <$> (len c :: c)) :: polygon_lines polygons).
    cbn [read_lines read_line].
    unfold data_line. cbn [cur_section cur_subSection numPoints numCells pointCount points
         cellDataRaw cellTypes currentScalar pointDataFields cellDataFields].
    rewrite parseNumbers_of_int. rewrite IH.
    change (cell_buffer (c :: polygons)) with ((len c :: c) ++ cell_buffer polygons).
    by rewrite (fmap_app of_int), app_assoc.
Qed.

Lemma polygon_cells_triangles (polygons : list (list Z)) :
  flat_map cell_triangles
    (cell_calls ((fun c : list Z => (infer_type (len c), c)) <$> polygons))
  = flat_map cell_triangles (cell_calls (as_polygons polygons))
  ∧ cell_ids (cell_calls ((fun c : list Z => (infer_type (len c), c)) <$> polygons))
    = cell_ids (cell_calls (as_polygons polygons)).
Proof.
  assert (∀ c : list Z,
            cell_triangles (infer_type (len c), JNum <$> c)
            = cell_triangles (7, JNum <$> c)) as Hc.
  { intros c. unfold cell_triangles. simpl.
    replace (len c) with (len (JNum <$> c)) by (unfold len; by rewrite length_fmap).
    apply inferred_type_fan. }
  unfold cell_ids, as_polygons, cell_calls. rewrite <- !list_fmap_compose. split.
  - induction polygons as [|c polygons IH]; [done|].
    rewrite !fmap_cons. cbn [flat_map]. rewrite IH. f_equal. apply Hc.
  - f_equal. rewrite !imap_fmap. apply imap_ext. intros k c _. unfold compose.
    unfold cell_count. simpl. by rewrite Hc.
Qed.

(** X28.  On a poly-data buffer made of whole polygons, the types that
    the legacy loader infers from the arity prefixes change nothing: the
    walk with the inferred types builds the index buffer and the cell-ID
    map that the walk builds with type 7 (polygon) for every cell, the
    fans of the polygons.  This holds because the prefix of a whole
    polygon is the number of its ids.  It fails for a polygon that the
    end of the buffer cuts: for the buffer [4 0 1 2] the loader infers
    type 9 from the prefix 4 and emits nothing for the three ids that are
    there, while type 7 emits their triangle. *)
Theorem X28_inferred_types_give_the_fans (fuel : nat) (polygons : list (list Z))
    (numCells : Z) :
  polygons ≠ [] → (length polygons < fuel)%nat →
  (∃ tys n, infer_types fuel (cell_buffer polygons) [] numCells = Some (tys, n)
            ∧ guarded_walk (cell_buffer polygons) tys n
              = guarded_walk (cell_buffer polygons)
                             (cell_types (as_polygons polygons)) (len polygons))
  ∧ infer_types 2 [4; 0; 1; 2] [] 0 = Some ([9], 1)
  ∧ guarded_walk [4; 0; 1; 2] [9] 1 = ([], [])
  ∧ guarded_walk [4; 0; 1; 2] [7] 1 = ([JNum 0; JNum 1; JNum 2], [0]).
Proof.
  intros Hne Hfuel. split; [|repeat split; reflexivity].
  set (cells := (fun c : list Z => (infer_type (len c), c)) <$> polygons).
  assert (cell_buffer (snd <$> cells) = cell_buffer polygons) as Hbuf.
  { unfold cells. rewrite <- list_fmap_compose. by rewrite list_fmap_id. }
  assert (cell_buffer (snd <$> as_polygons polygons) = cell_buffer polygons) as Hbuf7.
  { unfold as_polygons. rewrite <- list_fmap_compose. by rewrite list_fmap_id. }
  assert (len (as_polygons polygons) = len polygons) as Hlen7
    by (unfold as_polygons, len; by rewrite length_fmap).
  exists (cell_types cells), (len cells). split.
  - rewrite infer_types_cells by done. do 2 f_equal.
    + unfold cell_types, cells. by rewrite <- list_fmap_compose.
    + unfold cells, len. by rewrite length_fmap.
  - destruct (legacy_walk_whole_cells cells) as [Hcalls [Hind Hmap]].
    destruct (legacy_walk_whole_cells (as_polygons polygons))
      as [Hcalls7 [Hind7 Hmap7]].
    rewrite Hbuf in Hcalls, Hind, Hmap. rewrite Hbuf7, Hlen7 in Hcalls7, Hind7, Hmap7.
    destruct (polygon_cells_triangles polygons) as [Htri Hids].
    fold cells in Htri, Hids. unfold cell_ids in Hids.
    unfold guarded_walk. rewrite Hind, Hmap, Hcalls, Hind7, Hmap7, Hcalls7.
    by rewrite Htri, Hids.
Qed.

Lemma X28_witness :
  (∃ tys n, infer_types 3 (cell_buffer [[0; 1; 2]; [0; 2; 3; 4]]) [] 0 = Some (tys, n)
            ∧ guarded_walk (cell_buffer [[0; 1; 2]; [0; 2; 3; 4]]) tys n
              = guarded_walk (cell_buffer [[0; 1; 2]; [0; 2; 3; 4]])
                  (cell_types (as_polygons [[0; 1; 2]; [0; 2; 3; 4]]))
                  (len [[0; 1; 2]; [0; 2; 3; 4]]))
  ∧ infer_types 2 [4; 0; 1; 2] [] 0 = Some ([9], 1)
  ∧ guarded_walk [4; 0; 1; 2] [9] 1 = ([], [])
  ∧ guarded_walk [4; 0; 1; 2] [7] 1 = ([JNum 0; JNum 1; JNum 2], [0]).
Proof.
  apply (X28_inferred_types_give_the_fans 3 [[0; 1; 2]; [0; 2; 3; 4]] 0).
  - discriminate.
  - simpl. lia.
Defined.

(** X29.  End to end, a legacy [POLYDATA] file with one line per point
    and a [POLYGONS] section with one line per polygon: once the fuel
    exceeds the number of polygons, the loader infers one type per
    polygon and returns a geometry that holds every coordinate, whose
    index buffer is made of the fans of the polygons in file order, and
    whose cell-ID map numbers each triangle by its polygon. *)
Theorem X29_polydata_file_loaded (fuel : nat) (pts : list (num * num * num))
    (polygons : list (list Z)) :
  len pts * 3 < 2 ^ 32 →
  Forall not_nan (coords pts) →
  (length polygons < fuel)%nat →
  ∃ g, legacy_parse fuel (polydata_file pts polygons) = Some (Returned g)
       ∧ grid_geometry pts (as_polygons polygons) g.
Proof.
  intros Hlen Hnan Hfuel. unfold legacy_parse, polydata_file.
  cbn [app read_lines read_line].
  rewrite (proj2 (Z.leb_le 0 (len pts * 3))) by (unfold len; lia).
  rewrite (proj2 (Z.ltb_lt _ _)) by done. cbn [andb initial_lines].
  rewrite read_lines_app.
  rewrite (read_point_lines pts [] (Z.to_nat (len pts * 3)))
    by first [done | unfold len; lia].
  cbn [app read_lines read_line]. unfold set_section, initial_lines.
  cbn [cur_section cur_subSection numPoints numCells pointCount points
       cellDataRaw cellTypes currentScalar pointDataFields cellDataFields].
  rewrite read_polygon_lines.
  cbn [cellDataRaw cellTypes app]. rewrite mapM_fmap_Some by apply to_int_of_int.
  change (mapM to_int []) with (Some (@nil Z)).
  cbn [mbind option_bind]. unfold legacy_finish.
  set (cells := (fun c : list Z => (infer_type (len c), c)) <$> polygons).
  assert (cell_buffer (snd <$> cells) = cell_buffer polygons) as Hbuf.
  { unfold cells. rewrite <- list_fmap_compose. by rewrite list_fmap_id. }
  assert (cell_types cells = (fun c => infer_type (len c)) <$> polygons) as Htys.
  { unfold cell_types, cells. by rewrite <- list_fmap_compose. }
  assert (len cells = len polygons) as Hcells
    by (unfold cells, len; by rewrite length_fmap).
  cbn [numCells default points pointDataFields cellDataFields]. unfold id.
  replace (Z.to_nat (len pts * 3) - 3 * length pts)%nat with 0%nat
    by (unfold len; lia).
  rewrite app_nil_r.
  destruct (legacy_walk_whole_cells cells) as [Hcalls [Hind Hmap]].
  rewrite Hbuf in Hcalls, Hind, Hmap.
  destruct (polygon_cells_triangles polygons) as [Htri Hids]. fold cells in Htri, Hids.
  destruct polygons as [|c polygons].
  - eexists. split; [reflexivity|]. done.
  - rewrite (infer_types_cells fuel (c :: polygons) 0) by done.
    cbn [mbind option_bind]. rewrite <- Htys, <- Hcells.
    eexists. split; [reflexivity|].
    unfold grid_geometry, build_geometry, index_buffer. cbn [position index userData].
    split; [done|]. split.
    + rewrite <- Htri, <- Hcalls, <- Hind.
      destruct (0 <? len _) eqn:Hpos; [done|]. apply Z.ltb_ge in Hpos.
      symmetry. apply length_zero_iff_nil. unfold len in *. lia.
    + rewrite <- Hids. unfold cell_ids. by rewrite Hmap, Hcalls.
Qed.

Lemma X29_witness :
  ∃ g, legacy_parse 2
         (polydata_file
            [(Fin 0, Fin 0, Fin 0); (Fin 1, Fin 0, Fin 0); (Fin 0, Fin 1, Fin 0)]
            [[0; 1; 2]])
       = Some (Returned g)
       ∧ grid_geometry
           [(Fin 0, Fin 0, Fin 0); (Fin 1, Fin 0, Fin 0); (Fin 0, Fin 1, Fin 0)]
           (as_polygons [[0; 1; 2]]) g.
Proof.
  apply (X29_polydata_file_loaded 2
           [(Fin 0, Fin 0, Fin 0); (Fin 1, Fin 0, Fin 0); (Fin 0, Fin 1, Fin 0)]
           [[0; 1; 2]]).
  - reflexivity.
  - unfold not_nan. repeat constructor.
  - simpl. lia.
Defined.

(** ** The legacy walk with its counter as a number *)

(** X30.  When no number of the legacy cell buffer is above 2^53, the
    geometry generation returns, counter as a number and all, once the
    fuel exceeds every number of the buffer; it returns what the walk in
    integers returns.  Its reads of the buffer all lie inside the
    buffer; the cells it hands to the engine are the arity-prefixed
    groups of the buffer, none of which starts at or past the end, the
    last one cut at the end; it stops inside the buffer; and its index
    buffer is made of the triangles of these cells. *)
Theorem X30_walk_returns_below_2_53 (fuel : nat) (cellDataRaw cellTypes : list Z)
    (numCells : Z) :
  (0 < fuel)%nat → Forall (countable fuel) cellDataRaw →
  ∃ st, Counted.legacy_walk fuel cellDataRaw cellTypes numCells = Some st
        ∧ st = legacy_walk cellDataRaw cellTypes numCells
        ∧ Forall (in_buffer cellDataRaw) (raw_reads st)
        ∧ calls (lwalk st)
          = legacy_cells (Z.to_nat (Z.min numCells (len cellTypes))) 0 0
                         cellDataRaw cellTypes
        ∧ 0 ≤ cellDataIndex st ≤ len cellDataRaw
        ∧ indices (lwalk st) = flat_map cell_triangles (calls (lwalk st)).
Proof.
  intros Hfuel Hall. eexists. split; [by apply counted_walk_agrees|].
  destruct (legacy_walk_run cellDataRaw cellTypes numCells)
    as (Hcalls & [Hind _] & Hreads & Hidx).
  repeat split; try done; lia.
Qed.

Lemma X30_witness :
  ∃ st, Counted.legacy_walk 4 [3; 0; 1] [5; 5] 2 = Some st
        ∧ st = legacy_walk [3; 0; 1] [5; 5] 2
        ∧ Forall (in_buffer [3; 0; 1]) (raw_reads st)
        ∧ calls (lwalk st)
          = legacy_cells (Z.to_nat (Z.min 2 (len [5; 5]))) 0 0 [3; 0; 1] [5; 5]
        ∧ 0 ≤ cellDataIndex st ≤ len [3; 0; 1]
        ∧ indices (lwalk st) = flat_map cell_triangles (calls (lwalk st)).
Proof.
  apply (X30_walk_returns_below_2_53 4 [3; 0; 1] [5; 5] 2).
  - lia.
  - unfold countable. repeat (apply Forall_cons; split; [lia|]). by apply Forall_nil.
Defined.
